(** * linear-task-sync: label reconciliation against a Linear workspace

    A shallow embedding of the two variants of the synchronisation script:
    - the static-inference variant, which derives the two canonical label
      names from the project identifier ([Static]);
    - the lookup-table variant [sync_v1.mts], which reads them from a
      mapping document keyed by project name ([Lookup]).

    Strings are [string]; each character stands for one UTF-16 code unit
    (the code only splits on ".", slices by offset and parses digits).
    A JavaScript object used as a dictionary is the [gmap string _] of its
    own properties, read through [JS.get], which falls back on the
    properties every object inherits from [Object.prototype].  A JavaScript
    [Set] is a duplicate-free list in insertion order, which is also the
    order [Array.from] gives. *)

From Stdlib Require Import ZArith String Ascii List Bool Lia DecimalString.
From stdpp Require Import base option list gmap strings.

Local Open Scope string_scope.
Local Open Scope Z_scope.
Local Open Scope list_scope.

(** ** JavaScript primitives used by the script *)

Module JS.

(** A [Number] as far as the script produces them: [parseInt] of at most
    three characters is an integer of magnitude below 1000 or [NaN], and
    division by 100, [Math.floor], multiplication by 100 and addition of
    99 are exact on such values. *)
Inductive number : Type :=
| NaN : number
| Int : Z → number.

(** [!s] for a string: only the empty string is falsy. *)
Definition truthy (s : string) : bool :=
  match s with
  | EmptyString => false
  | String _ _ => true
  end.

Fixpoint take (n : nat) (s : string) : string :=
  match n, s with
  | S n', String c s' => String c (take n' s')
  | _, _ => EmptyString
  end.

Fixpoint drop (n : nat) (s : string) : string :=
  match n, s with
  | S n', String _ s' => drop n' s'
  | _, _ => s
  end.

(** [s.substring(start, end)] for non-negative integer arguments: both are
    clamped to the length and swapped when [start > end]. *)
Definition substring (s : string) (start stop : nat) : string :=
  let len := String.length s in
  let a := Nat.min start len in
  let b := Nat.min stop len in
  take (Nat.max a b - Nat.min a b) (drop (Nat.min a b) s).

(** [s.slice(start, end)] for non-negative integer arguments: both are
    clamped to the length, and the result is empty when [start >= end]. *)
Definition slice (s : string) (start stop : nat) : string :=
  let len := String.length s in
  let a := Nat.min start len in
  let b := Nat.min stop len in
  take (b - a) (drop a s).

(** [s.split(sep)] for a one-character separator.  The result always has
    at least one element: the empty string splits into one empty part. *)
Fixpoint split (sep : ascii) (s : string) : list string :=
  match s with
  | EmptyString => [EmptyString]
  | String c s' =>
      if Ascii.eqb c sep then EmptyString :: split sep s'
      else match split sep s' with
           | p :: ps => String c p :: ps
           | [] => [String c EmptyString]
           end
  end.

Fixpoint repeat_char (c : ascii) (n : nat) : string :=
  match n with
  | O => EmptyString
  | S n' => String c (repeat_char c n')
  end.

(** [s.padStart(width, c)] for a one-character filler. *)
Definition padStart (s : string) (width : nat) (c : ascii) : string :=
  (repeat_char c (width - String.length s) ++ s)%string.

(** White space that [parseInt] strips, among the code units below 256:
    TAB, LF, VT, FF, CR, SP and NBSP. *)
Definition is_white_space (c : ascii) : bool :=
  let n := nat_of_ascii c in
  ((9 <=? n) && (n <=? 13) || (n =? 32) || (n =? 160))%nat.

Fixpoint trim_start (s : string) : string :=
  match s with
  | String c s' => if is_white_space c then trim_start s' else s
  | EmptyString => EmptyString
  end.

(** The value of a character as a digit in radix 10 or 16. *)
Definition digit_value (radix : Z) (c : ascii) : option Z :=
  let n := Z.of_nat (nat_of_ascii c) in
  let v :=
    if (48 <=? n) && (n <=? 57) then Some (n - 48)
    else if (97 <=? n) && (n <=? 102) then Some (n - 87)
    else if (65 <=? n) && (n <=? 70) then Some (n - 55)
    else None in
  match v with
  | Some d => if d <? radix then Some d else None
  | None => None
  end.

(** The longest prefix of digits, read left to right; [None] when the
    string does not start with a digit of the radix. *)
Fixpoint digits_from (radix : Z) (acc : option Z) (s : string) : option Z :=
  match s with
  | EmptyString => acc
  | String c s' =>
      match digit_value radix c with
      | Some d => digits_from radix (Some (default 0 acc * radix + d)) s'
      | None => acc
      end
  end.

Definition strip_sign (s : string) : Z * string :=
  match s with
  | String c s' =>
      if Ascii.eqb c "-" then (-1, s')
      else if Ascii.eqb c "+" then (1, s')
      else (1, s)
  | EmptyString => (1, s)
  end.

Definition strip_hex_prefix (s : string) : Z * string :=
  match s with
  | String c1 (String c2 s') =>
      if Ascii.eqb c1 "0" && (Ascii.eqb c2 "x" || Ascii.eqb c2 "X") then (16, s')
      else (10, s)
  | _ => (10, s)
  end.

(** [parseInt(s)] with no radix argument: leading white space and a sign
    are skipped, a [0x] prefix selects radix 16, and the longest prefix of
    digits is the value; [NaN] when there is none. *)
Definition parseInt (s : string) : number :=
  let '(sign, s1) := strip_sign (trim_start s) in
  let '(radix, s2) := strip_hex_prefix s1 in
  match digits_from radix None s2 with
  | Some v => Int (sign * v)
  | None => NaN
  end.

(** [Math.floor(x / 100) * 100]. *)
Definition floor_hundred (x : number) : number :=
  match x with
  | NaN => NaN
  | Int z => Int (z / 100 * 100)
  end.

Definition add (x : number) (k : Z) : number :=
  match x with
  | NaN => NaN
  | Int z => Int (z + k)
  end.

(** [x.toString()] on an integer or [NaN]. *)
Definition toString (x : number) : string :=
  match x with
  | NaN => "NaN"
  | Int z => NilZero.string_of_int (Z.to_int z)
  end.

(** The property names that every plain object inherits from
    [Object.prototype]; neither the script nor its libraries add to them. *)
Definition prototype_keys : list string :=
  ["constructor"; "__defineGetter__"; "__defineSetter__"; "hasOwnProperty";
   "__lookupGetter__"; "__lookupSetter__"; "isPrototypeOf"; "propertyIsEnumerable";
   "toString"; "valueOf"; "__proto__"; "toLocaleString"].

(** What reading a property of a plain object gives: the value of an own
    property; else the value inherited under that key (a function, or under
    "__proto__" the prototype itself), which is truthy and is no string;
    else [undefined]. *)
Inductive property (A : Type) : Type :=
| Own (a : A)
| Inherited (key : string)
| Undefined.
Arguments Own {A} a.
Arguments Inherited {A} key.
Arguments Undefined {A}.

(** [object[key]], given the own properties of the object. *)
Definition get {A} (own : gmap string A) (key : string) : property A :=
  match own !! key with
  | Some a => Own a
  | None => if bool_decide (key ∈ prototype_keys) then Inherited key else Undefined
  end.

(** [object[key] = value] for a string value, on an object that started as
    [{}]: under "__proto__" the assignment reaches the inherited setter,
    which ignores a value that is not an object. *)
Definition assign (own : gmap string string) (key value : string) : gmap string string :=
  if String.eqb key "__proto__" then own else <[key := value]> own.

(** A value that is a string or [undefined] (here [None]), used as a
    property key or inside a template literal. *)
Definition to_key (v : option string) : string := default "undefined" v.

End JS.

(** ** Data model *)

Record Label : Type := mkLabel {
  label_id : string;
  label_name : string
}.

(** The static variant reads [project.identifier]; the lookup-table variant
    reads only [project.name]. *)
Record Project : Type := mkProject {
  project_id : string;
  project_name : string;
  project_identifier : string
}.

Record Issue : Type := mkIssue {
  issue_id : string;
  issue_title : string;
  issue_identifier : string;
  issue_labels : list Label;
  issue_project : option Project
}.

(** [LABEL_GROUPS] and the record a mapping document gives per project. *)
Inductive LabelGroup : Type := CoreSystems | CoreAreas.

Definition LABEL_GROUPS : list LabelGroup := [CoreSystems; CoreAreas].

Record ProjectLabelMapping : Type := mkMapping {
  core_systems : string;
  core_areas : string
}.

Definition mapping_get (m : ProjectLabelMapping) (g : LabelGroup) : string :=
  match g with
  | CoreSystems => core_systems m
  | CoreAreas => core_areas m
  end.

(** What the label-id sets of the apply loop hold: the id of a label, or a
    value that reading the name-to-id object inherited from the prototype,
    named by its key (two such values are the same value exactly when the
    keys are). *)
Inductive LabelId : Type :=
| Id (id : string)
| Foreign (key : string).

#[global] Instance LabelId_eq_dec : EqDecision LabelId.
Proof. solve_decision. Defined.

(** ** The outside world *)

(** The three GraphQL operations, with their variables, as they are handed
    to [graphqlRequest]. *)
Inductive request : Type :=
| IssuesQuery (after : option string)
| LabelsQuery (after : option string)
| UpdateIssueMutation (issueId : string) (labelIds : list LabelId).

(** An element of [labelIds] as [JSON.stringify] writes it: a string as it
    is, a function as [null], the prototype object as [{}]. *)
Inductive json_id : Type :=
| JString (s : string)
| JNull
| JEmptyObject.

Definition stringify_id (v : LabelId) : json_id :=
  match v with
  | Id id => JString id
  | Foreign key => if String.eqb key "__proto__" then JEmptyObject else JNull
  end.

(** The body of a request, [JSON.stringify({ query, variables })]. *)
Inductive body : Type :=
| IssuesBody (after : option string)
| LabelsBody (after : option string)
| UpdateBody (issueId : string) (labelIds : list json_id).

Definition JSON_stringify (r : request) : body :=
  match r with
  | IssuesQuery after => IssuesBody after
  | LabelsQuery after => LabelsBody after
  | UpdateIssueMutation issueId labelIds => UpdateBody issueId (map stringify_id labelIds)
  end.

(** The [data] member of a response body.  [UpdateResult None] is a body
    whose [data] has no [issueUpdate]. *)
Inductive payload : Type :=
| IssuesPage (nodes : list Issue) (hasNextPage : bool) (endCursor : option string)
| LabelsPage (nodes : list Label) (hasNextPage : bool) (endCursor : option string)
| UpdateResult (issueUpdate : option (bool * list Label)).

(** What [fetch] and [response.json()] give: a rejection, or a status with a
    body that may carry an [errors] list and may carry [data]. *)
Inductive response : Type :=
| Unreachable (reason : string)
| Reply (ok : bool) (status : Z) (errors : bool) (data : option payload).

(** What reading and parsing [project_label_mappings.json] gives.
    [DocParsed None] is a document without [PROJECT_LABEL_MAPPING]. *)
Inductive MappingDoc : Type :=
| DocMissing
| DocMalformed
| DocParsed (m : option (gmap string ProjectLabelMapping)).

(** The server answers the [n]-th request of a run as it likes, from the
    body it receives. *)
Record world : Type := mkWorld {
  respond : nat → body → response;
  mapping_file : MappingDoc
}.

(** The response to the [n]-th request. *)
Definition server (w : world) (n : nat) (r : request) : response :=
  respond w n (JSON_stringify r).
Arguments server : simpl never.

Inductive error : Type :=
| Rejected (reason : string)
| HttpError (status : Z)
| GraphQLFailed
| MissingData
| TypeError
| InvalidIdentifier (projectIdentifier : string).

Inductive message : Type :=
| RequestFailed
| GraphQLErrors
| Retrying (attemptsLeft : nat)
| FetchedIssues (count : nat)
| FetchedLabels (count : nat)
| WorkspaceLabels (names : list string)
| Skipping (issue : Issue)
| NeedsUpdate (issue : Issue)
| NeedUpdating (count : nat)
| LabelNotFound (name : string)
| Updating (issue : Issue) (labelIds : list LabelId)
| UpdateSucceeded (issue : Issue) (updatedLabels : list string)
| UpdateFailed (issue : Issue)
| UpdateUnexpected (issue : Issue)
| UpdateError (issue : Issue) (e : error)
| NoChanges (issue : Issue)
| SyncCompleted
| SyncError (e : error)
| MappingError
| MissingApiKey.

Inductive event : Type :=
| Sent (r : request)
| Delay (ms : Z)
| ReadFile
| Log (m : message).

(** ** Computations: requests, delays and logs, exceptions, process exit *)

Inductive stop : Type :=
| Throw (e : error)
| Exit (code : Z)
| OutOfFuel.

Inductive outcome (A : Type) : Type :=
| Ok (a : A)
| Stop (s : stop).
Arguments Ok {A} a.
Arguments Stop {A} s.

(** A computation runs in a world, knows how many requests the run has sent
    so far, and gives an outcome, the events it emitted and the new count. *)
Definition M (A : Type) : Type := world → nat → outcome A * list event * nat.

Definition ret {A} (a : A) : M A := λ _ n, (Ok a, [], n).

Definition bind {A B} (m : M A) (k : A → M B) : M B := λ w n,
  match m w n with
  | (Ok a, t, n') => let '(o, t', n'') := k a w n' in (o, t ++ t', n'')
  | (Stop s, t, n') => (Stop s, t, n')
  end.

Notation "'let*' x ':=' m 'in' k" := (bind m (λ x, k))
  (at level 10, x pattern, m at level 100, k at level 200,
   format "'[v' 'let*'  x  ':='  m  'in' '/' k ']'").
Notation "m ';;' k" := (bind m (λ _, k))
  (at level 100, k at level 200, right associativity).

Definition emit (e : event) : M unit := λ _ n, (Ok tt, [e], n).
Definition log (m : message) : M unit := emit (Log m).
Definition sleep (ms : Z) : M unit := emit (Delay ms).
Definition throw {A} (e : error) : M A := λ _ n, (Stop (Throw e), [], n).
Definition process_exit {A} (code : Z) : M A := λ _ n, (Stop (Exit code), [], n).
Definition out_of_fuel {A} : M A := λ _ n, (Stop OutOfFuel, [], n).

(** [fetch(url, ...)] followed by [response.json()]. *)
Definition send (r : request) : M response := λ w n,
  (Ok (server w n r), [Sent r], S n).

Definition readMappingFile : M MappingDoc := λ w n,
  (Ok (mapping_file w), [ReadFile], n).

(** [try { m } catch (error) { h error }]: only exceptions are caught. *)
Definition try_catch {A} (m : M A) (h : error → M A) : M A := λ w n,
  match m w n with
  | (Stop (Throw e), t, n') => let '(o, t', n'') := h e w n' in (o, t ++ t', n'')
  | r => r
  end.

(** A pure function that may throw. *)
Definition lift {A} (r : error + A) : M A :=
  match r with
  | inl e => throw e
  | inr a => ret a
  end.

(** [list.filter(p)] and [for (const x of list) body] with effects. *)
Fixpoint filterM {A} (p : A → M bool) (l : list A) : M (list A) :=
  match l with
  | [] => ret []
  | x :: l' =>
      let* keep := p x in
      let* rest := filterM p l' in
      ret (if keep then x :: rest else rest)
  end.

Fixpoint forM_ {A} (l : list A) (body : A → M unit) : M unit :=
  match l with
  | [] => ret tt
  | x :: l' => body x;; forM_ l' body
  end.

Fixpoint foldM {A S} (l : list A) (body : S → A → M S) (s : S) : M S :=
  match l with
  | [] => ret s
  | x :: l' => let* s' := body s x in foldM l' body s'
  end.

(** ** JavaScript [Set], in insertion order *)

Definition Set_has {A} `{EqDecision A} (s : list A) (x : A) : bool := bool_decide (x ∈ s).

Definition Set_add {A} `{EqDecision A} (s : list A) (x : A) : list A :=
  if Set_has s x then s else s ++ [x].

Definition new_Set {A} `{EqDecision A} (l : list A) : list A := foldl Set_add [] l.

(** [set.has(v)] on a set of strings, for a value that is a string or
    [undefined]. *)
Definition Set_has_value (s : list string) (v : option string) : bool :=
  match v with
  | Some x => Set_has s x
  | None => false
  end.

(** ** Code shared by the two variants *)

Definition RETRY_ATTEMPTS : nat := 3.
Definition RETRY_DELAY : Z := 1000.

Fixpoint fetchWithRetry {A} (operation : M A) (attempts : nat) : M A :=
  try_catch operation (λ error,
    match attempts with
    | S (S _ as left) =>
        log (Retrying left);;
        sleep RETRY_DELAY;;
        fetchWithRetry operation left
    | _ => throw error
    end).

Definition graphqlRequest (query : request) : M (option payload) :=
  let* response := send query in
  match response with
  | Unreachable reason => throw (Rejected reason)
  | Reply ok status errors data =>
      if negb ok then log RequestFailed;; throw (HttpError status)
      else if errors then log GraphQLErrors;; throw GraphQLFailed
      else ret data
  end.

(** The [while (hasNextPage)] loops, with fuel for the number of pages. *)
Fixpoint fetchAllIssues_from (fuel : nat) (issues : list Issue)
    (endCursor : option string) : M (list Issue) :=
  match fuel with
  | O => out_of_fuel
  | S fuel' =>
      let* data := fetchWithRetry (graphqlRequest (IssuesQuery endCursor)) RETRY_ATTEMPTS in
      match data with
      | Some (IssuesPage nodes hasNextPage endCursor') =>
          if hasNextPage then fetchAllIssues_from fuel' (issues ++ nodes) endCursor'
          else ret (issues ++ nodes)
      | Some _ => throw TypeError
      | None => throw MissingData
      end
  end.

Definition fetchAllIssues (fuel : nat) : M (list Issue) :=
  fetchAllIssues_from fuel [] None.

Fixpoint fetchWorkspaceLabels_from (fuel : nat) (labels : list Label)
    (endCursor : option string) : M (list Label) :=
  match fuel with
  | O => out_of_fuel
  | S fuel' =>
      let* data := fetchWithRetry (graphqlRequest (LabelsQuery endCursor)) RETRY_ATTEMPTS in
      match data with
      | Some (LabelsPage nodes hasNextPage endCursor') =>
          if hasNextPage then fetchWorkspaceLabels_from fuel' (labels ++ nodes) endCursor'
          else ret (labels ++ nodes)
      | Some _ => throw TypeError
      | None => throw MissingData
      end
  end.

Definition fetchWorkspaceLabels (fuel : nat) : M (list Label) :=
  fetchWorkspaceLabels_from fuel [] None.

Definition updateIssue (issue : Issue) (labelIds : list LabelId) : M unit :=
  try_catch
    (log (Updating issue labelIds);;
     let* result := fetchWithRetry
       (graphqlRequest (UpdateIssueMutation (issue_id issue) labelIds)) RETRY_ATTEMPTS in
     match result with
     | Some (UpdateResult (Some (success, labels))) =>
         if success then log (UpdateSucceeded issue (map label_name labels))
         else log (UpdateFailed issue)
     | _ => log (UpdateUnexpected issue)
     end)
    (λ error, log (UpdateError issue error)).

(** [workspaceLabels.reduce((acc, label) => { acc[label.name] = label.id; ... }, {})]:
    the own properties of the object it builds. *)
Definition labelNameToId (workspaceLabels : list Label) : gmap string string :=
  foldl (λ acc label, JS.assign acc (label_name label) (label_id label)) ∅ workspaceLabels.

(** [if (id) newLabelIds.add(id) else console.warn(...)], for the value
    [id] read from the name-to-id object: [undefined] and the empty id are
    falsy, an inherited value is truthy. *)
Definition add_if_found (name : string) (id : JS.property string)
    (newLabelIds : list LabelId) : M (list LabelId) :=
  match id with
  | JS.Own i =>
      if JS.truthy i then ret (Set_add newLabelIds (Id i))
      else log (LabelNotFound name);; ret newLabelIds
  | JS.Inherited key => ret (Set_add newLabelIds (Foreign key))
  | JS.Undefined => log (LabelNotFound name);; ret newLabelIds
  end.

(** What the top level of a script does: it may log, exit, and start
    asynchronous runs (each takes the fuel of its pagination loops). *)
Record launch : Type := mkLaunch {
  console : list event;
  exit_code : option Z;
  started : list (nat → M unit)
}.

(** ** The static-inference variant *)

Module Static.

Definition inferCoreSystemsLabel (projectIdentifier : string) : error + string :=
  if negb (JS.truthy projectIdentifier) then inl (InvalidIdentifier projectIdentifier)
  else
    let parts := JS.split "." projectIdentifier in
    if (length parts <? 1)%nat then inl (InvalidIdentifier projectIdentifier)
    else
      match parts with
      | [] => inl TypeError
      | part0 :: _ =>
          let systemNumber := JS.parseInt (JS.substring part0 0 3) in
          let lowerBound := JS.floor_hundred systemNumber in
          let upperBound := JS.add lowerBound 99 in
          inr ("[" ++ JS.padStart (JS.toString lowerBound) 3 "0" ++ "-"
                   ++ JS.padStart (JS.toString upperBound) 3 "0" ++ "]")%string
      end.

Definition inferCoreAreasLabel (projectIdentifier : string) : error + string :=
  if negb (JS.truthy projectIdentifier) then inl (InvalidIdentifier projectIdentifier)
  else
    let parts := JS.split "." projectIdentifier in
    if (length parts <? 1)%nat then inl (InvalidIdentifier projectIdentifier)
    else
      match parts with
      | [] => inl TypeError
      | part0 :: _ =>
          let areaNumber := JS.slice part0 1 4 in
          inr ("[" ++ areaNumber ++ "]")%string
      end.

(** The callback of [issues.filter]. *)
Definition select (issue : Issue) : M bool :=
  match issue_project issue with
  | None => log (Skipping issue);; ret false
  | Some project =>
      if negb (JS.truthy (project_identifier project))
      then log (Skipping issue);; ret false
      else
        let existingLabelNames := new_Set (map label_name (issue_labels issue)) in
        let* coreSystemsLabel := lift (inferCoreSystemsLabel (project_identifier project)) in
        let* coreAreasLabel := lift (inferCoreAreasLabel (project_identifier project)) in
        let needsUpdate := negb (Set_has existingLabelNames coreSystemsLabel)
                           || negb (Set_has existingLabelNames coreAreasLabel) in
        (if needsUpdate then log (NeedsUpdate issue) else ret tt);;
        ret needsUpdate
  end.

(** The body of [for (const issue of issuesToUpdate)]. *)
Definition apply (labelNameToId : gmap string string) (issue : Issue) : M unit :=
  match issue_project issue with
  | None => ret tt
  | Some project =>
      if negb (JS.truthy (project_identifier project)) then ret tt
      else
        let existingLabelIds := new_Set (map (λ label, Id (label_id label)) (issue_labels issue)) in
        let newLabelIds := existingLabelIds in
        let* coreSystemsLabel := lift (inferCoreSystemsLabel (project_identifier project)) in
        let* coreAreasLabel := lift (inferCoreAreasLabel (project_identifier project)) in
        let coreSystemsLabelId := JS.get labelNameToId coreSystemsLabel in
        let coreAreasLabelId := JS.get labelNameToId coreAreasLabel in
        let* newLabelIds := add_if_found coreSystemsLabel coreSystemsLabelId newLabelIds in
        let* newLabelIds := add_if_found coreAreasLabel coreAreasLabelId newLabelIds in
        let labelIdsToUpdate := newLabelIds in
        if negb (length labelIdsToUpdate =? length existingLabelIds)%nat
        then updateIssue issue labelIdsToUpdate
        else log (NoChanges issue)
  end.

Definition syncTasks (fuel : nat) : M unit :=
  try_catch
    (let* issues := fetchAllIssues fuel in
     log (FetchedIssues (length issues));;
     let* workspaceLabels := fetchWorkspaceLabels fuel in
     log (FetchedLabels (length workspaceLabels));;
     let labelNameToId := labelNameToId workspaceLabels in
     log (WorkspaceLabels (map label_name workspaceLabels));;
     let* issuesToUpdate := filterM select issues in
     log (NeedUpdating (length issuesToUpdate));;
     forM_ issuesToUpdate (apply labelNameToId);;
     log SyncCompleted)
    (λ error, log (SyncError error)).

(** The top level: the credential check, then the two calls at the end of
    the file. *)
Definition main (LINEAR_API_KEY : option string) : launch :=
  if JS.truthy (default "" LINEAR_API_KEY)
  then mkLaunch [] None [syncTasks; syncTasks]
  else mkLaunch [Log MissingApiKey] (Some 1) [].

End Static.

(** ** The lookup-table variant *)

Module Lookup.

Definition loadProjectLabelMappings : M (option (gmap string ProjectLabelMapping)) :=
  let* doc := readMappingFile in
  match doc with
  | DocParsed m => ret m
  | DocMissing | DocMalformed => log MappingError;; process_exit 1
  end.

(** [PROJECT_LABEL_MAPPING[name]]: indexing [undefined] is a [TypeError];
    the parsed object has the members of the document as own properties. *)
Definition index (PROJECT_LABEL_MAPPING : option (gmap string ProjectLabelMapping))
    (name : string) : M (JS.property ProjectLabelMapping) :=
  match PROJECT_LABEL_MAPPING with
  | Some m => ret (JS.get m name)
  | None => throw TypeError
  end.

(** [projectMapping[group]] for a truthy [projectMapping]: the member of an
    entry of the document, and [undefined] (here [None]) on an inherited
    value, which has no property named after a label group. *)
Definition member (projectMapping : JS.property ProjectLabelMapping)
    (group : LabelGroup) : option string :=
  match projectMapping with
  | JS.Own entry => Some (mapping_get entry group)
  | JS.Inherited _ | JS.Undefined => None
  end.

Definition select (PROJECT_LABEL_MAPPING : option (gmap string ProjectLabelMapping))
    (issue : Issue) : M bool :=
  match issue_project issue with
  | None => log (Skipping issue);; ret false
  | Some project =>
      let* projectMapping := index PROJECT_LABEL_MAPPING (project_name project) in
      match projectMapping with
      | JS.Undefined => log (Skipping issue);; ret false
      | JS.Own _ | JS.Inherited _ =>
          let existingLabelNames := new_Set (map label_name (issue_labels issue)) in
          let needsUpdate :=
            existsb (λ group, negb (Set_has_value existingLabelNames (member projectMapping group)))
                    LABEL_GROUPS in
          (if needsUpdate then log (NeedsUpdate issue) else ret tt);;
          ret needsUpdate
      end
  end.

Definition apply (PROJECT_LABEL_MAPPING : option (gmap string ProjectLabelMapping))
    (labelNameToId : gmap string string) (issue : Issue) : M unit :=
  match issue_project issue with
  | None => ret tt
  | Some project =>
      let* projectMapping := index PROJECT_LABEL_MAPPING (project_name project) in
      match projectMapping with
      | JS.Undefined => ret tt
      | JS.Own _ | JS.Inherited _ =>
          let existingLabelIds :=
            new_Set (map (λ label, Id (label_id label)) (issue_labels issue)) in
          let newLabelIds := existingLabelIds in
          let* newLabelIds :=
            foldM LABEL_GROUPS (λ newLabelIds group,
              let requiredLabelName := member projectMapping group in
              let requiredLabelId := JS.get labelNameToId (JS.to_key requiredLabelName) in
              add_if_found (JS.to_key requiredLabelName) requiredLabelId newLabelIds)
              newLabelIds in
          let labelIdsToUpdate := newLabelIds in
          if negb (length labelIdsToUpdate =? length existingLabelIds)%nat
          then updateIssue issue labelIdsToUpdate
          else log (NoChanges issue)
      end
  end.

Definition syncTasks (fuel : nat) : M unit :=
  try_catch
    (let* issues := fetchAllIssues fuel in
     log (FetchedIssues (length issues));;
     let* workspaceLabels := fetchWorkspaceLabels fuel in
     log (FetchedLabels (length workspaceLabels));;
     let* PROJECT_LABEL_MAPPING := loadProjectLabelMappings in
     log (WorkspaceLabels (map label_name workspaceLabels));;
     let labelNameToId := labelNameToId workspaceLabels in
     let* issuesToUpdate := filterM (select PROJECT_LABEL_MAPPING) issues in
     log (NeedUpdating (length issuesToUpdate));;
     forM_ issuesToUpdate (apply PROJECT_LABEL_MAPPING labelNameToId);;
     log SyncCompleted)
    (λ error, log (SyncError error)).

Definition main (LINEAR_API_KEY : option string) : launch :=
  if JS.truthy (default "" LINEAR_API_KEY)
  then mkLaunch [] None [syncTasks]
  else mkLaunch [Log MissingApiKey] (Some 1) [].

End Lookup.

(** ** Vocabulary of the statements *)

(** [parts[0]] of [projectIdentifier.split('.')]. *)
Definition first_segment (projectIdentifier : string) : string :=
  default "" (head (JS.split "." projectIdentifier)).

Definition is_decimal_digit (c : ascii) : bool :=
  ((48 <=? nat_of_ascii c) && (nat_of_ascii c <=? 57))%nat.

Definition starts_with_digit (s : string) : bool :=
  match s with
  | String c _ => is_decimal_digit c
  | EmptyString => false
  end.

(** A number below 1000 written with exactly three decimal digits. *)
Definition decimal_digit (d : Z) : ascii := ascii_of_nat (48 + Z.to_nat d).

Definition three_digits (z : Z) : string :=
  String (decimal_digit (z / 100 mod 10))
    (String (decimal_digit (z / 10 mod 10))
       (String (decimal_digit (z mod 10)) EmptyString)).

(** A function raises on an input. *)
Definition raises {A} (f : string → error + A) (x : string) : Prop :=
  ∃ e, f x = inl e.

(** The label of the hundred-range that contains [n]. *)
Definition range_label (n : Z) : string :=
  ("[" ++ three_digits (n / 100 * 100) ++ "-" ++ three_digits (n / 100 * 100 + 99) ++ "]")%string.

(** ** Observations on a run *)

Definition result {A} (r : outcome A * list event * nat) : outcome A := r.1.1.
Definition events {A} (r : outcome A * list event * nat) : list event := r.1.2.

Definition is_delay (e : event) : bool :=
  match e with
  | Delay _ => true
  | _ => false
  end.

(** The number of delays in a sequence of events. *)
Definition delays (t : list event) : nat := length (List.filter is_delay t).

Definition is_ok {A} (o : outcome A) : bool :=
  match o with
  | Ok _ => true
  | Stop _ => false
  end.

(** The request count before attempt [failures + 1] of an operation started
    at count [c], when the attempts before it all threw. *)
Fixpoint before_attempt {A} (operation : M A) (w : world) (failures : nat)
    (c : nat) : option nat :=
  match failures with
  | O => Some c
  | S failures' =>
      match operation w c with
      | (Stop (Throw _), _, c') => before_attempt operation w failures' c'
      | _ => None
      end
  end.

(** The events that the first [attempts] invocations of an operation emit
    themselves. *)
Fixpoint attempts_trace {A} (operation : M A) (w : world) (attempts : nat)
    (c : nat) : list event :=
  match attempts with
  | O => []
  | S attempts' =>
      let '(_, t, c') := operation w c in
      t ++ attempts_trace operation w attempts' c'
  end.

(** The update requests in a sequence of events, in order. *)
Definition mutation_of (e : event) : option (string * list LabelId) :=
  match e with
  | Sent (UpdateIssueMutation issueId labelIds) => Some (issueId, labelIds)
  | _ => None
  end.

Definition mutations (t : list event) : list (string * list LabelId) :=
  omap mutation_of t.

(** The calls of [updateIssue], as its first log line shows them. *)
Definition start_of (e : event) : option (Issue * list LabelId) :=
  match e with
  | Log (Updating issue labelIds) => Some (issue, labelIds)
  | _ => None
  end.

Definition started_updates (t : list event) : list (Issue * list LabelId) :=
  omap start_of t.

(** How a call of [updateIssue] ended, as its last log line shows it. *)
Inductive verdict : Type :=
| Succeeded
| Failed
| Unexpected
| Errored (e : error).

Definition verdict_of (e : event) : option (Issue * verdict) :=
  match e with
  | Log (UpdateSucceeded issue _) => Some (issue, Succeeded)
  | Log (UpdateFailed issue) => Some (issue, Failed)
  | Log (UpdateUnexpected issue) => Some (issue, Unexpected)
  | Log (UpdateError issue e) => Some (issue, Errored e)
  | _ => None
  end.

Definition verdicts (t : list event) : list (Issue * verdict) :=
  omap verdict_of t.

(** Events of the transport layer for one request: the request itself, the
    delays and the log lines of the retry wrapper and of [graphqlRequest]. *)
Definition transport (q : request) (e : event) : Prop :=
  match e with
  | Sent r => r = q
  | Delay ms => ms = RETRY_DELAY
  | Log (Retrying _) | Log RequestFailed | Log GraphQLErrors => True
  | _ => False
  end.

(** Events that are neither an update request nor the first or last log
    line of [updateIssue]. *)
Definition silent (e : event) : Prop :=
  mutation_of e = None ∧ start_of e = None ∧ verdict_of e = None.

Definition is_query (q : request) : Prop :=
  match q with
  | UpdateIssueMutation _ _ => False
  | _ => True
  end.

(** Exceptions can be caught; a process exit and a loop that never ends
    cannot. *)
Definition not_fatal {A} (o : outcome A) : Prop :=
  match o with
  | Stop (Exit _) | Stop OutOfFuel => False
  | _ => True
  end.

(** The last log line of [updateIssue], from what the retried request gave. *)
Definition update_verdict (o : outcome (option payload)) : option verdict :=
  match o with
  | Ok (Some (UpdateResult (Some (true, _)))) => Some Succeeded
  | Ok (Some (UpdateResult (Some (false, _)))) => Some Failed
  | Ok _ => Some Unexpected
  | Stop (Throw e) => Some (Errored e)
  | Stop _ => None
  end.

(** The events of an apply phase show exactly the given calls of
    [updateIssue]: each was started, each ended with a verdict, and the
    update requests sent are theirs. *)
Definition faithful (calls : list (Issue * list LabelId)) (t : list event) : Prop :=
  started_updates t = calls
  ∧ map fst (verdicts t) = map fst calls
  ∧ ∀ x, x ∈ mutations t ↔ x ∈ map (λ call, (issue_id call.1, call.2)) calls.

(** What [try { ... } catch] around a whole run makes of the way it stopped. *)
Definition caught (s : stop) : outcome unit :=
  match s with
  | Throw _ => Ok tt
  | _ => Stop s
  end.

Definition catch_log (s : stop) : list event :=
  match s with
  | Throw e => [Log (SyncError e)]
  | _ => []
  end.

(** ** The plan, as a function of what was fetched *)

Definition existing_names (issue : Issue) : list string :=
  new_Set (map label_name (issue_labels issue)).

Definition existing_ids (issue : Issue) : list LabelId :=
  new_Set (map (λ label, Id (label_id label)) (issue_labels issue)).

(** The required label names of an issue, each a string or [undefined]
    (here [None]); no list at all when the project of the issue does not
    resolve. *)
Definition static_required (issue : Issue) : option (list (option string)) :=
  match issue_project issue with
  | Some project =>
      if JS.truthy (project_identifier project) then
        match Static.inferCoreSystemsLabel (project_identifier project),
              Static.inferCoreAreasLabel (project_identifier project) with
        | inr coreSystemsLabel, inr coreAreasLabel =>
            Some [Some coreSystemsLabel; Some coreAreasLabel]
        | _, _ => None
        end
      else None
  | None => None
  end.

(** In the lookup-table variant the project resolves when the mapping
    object has a truthy value under the project name: an entry of the
    document, with its two label names, or an inherited value, whose two
    required names are [undefined]. *)
Definition lookup_required (mapping : gmap string ProjectLabelMapping)
    (issue : Issue) : option (list (option string)) :=
  match issue_project issue with
  | Some project =>
      match JS.get mapping (project_name project) with
      | JS.Undefined => None
      | projectMapping => Some (map (Lookup.member projectMapping) LABEL_GROUPS)
      end
  | None => None
  end.


(** Some required label name is not among the issue's label names. *)
Definition missing_required (required : option (list (option string))) (issue : Issue) : bool :=
  match required with
  | Some names => existsb (λ name, negb (Set_has_value (existing_names issue) name)) names
  | None => false
  end.

(** The value that the name-to-id object gives for a required label name
    and that the code accepts, a truthy one: the non-empty id of a workspace
    label, or an inherited value. *)
Definition usable_id (labelNameToId : gmap string string) (name : option string)
    : option LabelId :=
  match JS.get labelNameToId (JS.to_key name) with
  | JS.Own id => if JS.truthy id then Some (Id id) else None
  | JS.Inherited key => Some (Foreign key)
  | JS.Undefined => None
  end.

Definition target_ids (labelNameToId : gmap string string) (required : list (option string))
    (existing : list LabelId) : list LabelId :=
  foldl (λ ids name, from_option (Set_add ids) ids (usable_id labelNameToId name))
        existing required.

Definition target (labelNameToId : gmap string string)
    (required : option (list (option string))) (issue : Issue) : list LabelId :=
  target_ids labelNameToId (default [] required) (existing_ids issue).

Definition changed (labelNameToId : gmap string string)
    (required : option (list (option string))) (issue : Issue) : bool :=
  negb (length (target labelNameToId required issue) =? length (existing_ids issue))%nat.

(** The issues the planner selects. *)
Definition plan (required : Issue → option (list (option string))) (issues : list Issue)
    : list Issue :=
  List.filter (λ issue, missing_required (required issue) issue) issues.

(** The calls of [updateIssue] that a plan leads to. *)
Definition submissions (labelNameToId : gmap string string)
    (required : Issue → option (list (option string))) (plan : list Issue)
    : list (Issue * list LabelId) :=
  map (λ issue, (issue, target labelNameToId (required issue) issue))
      (List.filter (λ issue, changed labelNameToId (required issue) issue) plan).

(** Every required label name that has no usable id was warned about. *)
Definition warned (labelNameToId : gmap string string)
    (required : Issue → option (list (option string))) (plan : list Issue)
    (t : list event) : Prop :=
  ∀ issue names name,
    issue ∈ plan → required issue = Some names → name ∈ names →
    usable_id labelNameToId name = None → Log (LabelNotFound (JS.to_key name)) ∈ t.

(** What the events of an apply phase over a plan show. *)
Definition applied (labelNameToId : gmap string string)
    (required : Issue → option (list (option string))) (plan : list Issue)
    (t : list event) : Prop :=
  faithful (submissions labelNameToId required plan) t
  ∧ warned labelNameToId required plan t.

(** ** Sample data and worlds *)

(** An issue of project "150.2" that carries both of its labels. *)
Definition labelled_issue : Issue :=
  mkIssue "issue-1" "Labelled" "ENG-1"
    [mkLabel "id-a" "[100-199]"; mkLabel "id-b" "[50]"]
    (Some (mkProject "project-1" "Alpha" "150.2")).

(** An issue of the same project that lacks the area label. *)
Definition unlabelled_issue : Issue :=
  mkIssue "issue-2" "Unlabelled" "ENG-2"
    [mkLabel "id-a" "[100-199]"]
    (Some (mkProject "project-1" "Alpha" "150.2")).

Definition sample_mapping : gmap string ProjectLabelMapping :=
  {[ "Alpha" := mkMapping "[100-199]" "[50]" ]}.

(** An issue whose project is named after a property that every object
    inherits. *)
Definition constructor_issue : Issue :=
  mkIssue "issue-4" "Inherited" "ENG-4"
    [mkLabel "id-a" "[100-199]"; mkLabel "id-b" "[50]"]
    (Some (mkProject "project-2" "constructor" "150.2")).

(** An issue of that project with no label at all. *)
Definition bare_issue : Issue :=
  mkIssue "issue-3" "Bare" "ENG-3" []
    (Some (mkProject "project-1" "Alpha" "150.2")).

(** Workspace labels where the area label has the empty id. *)
Definition empty_id_labels : list Label :=
  [mkLabel "id-a" "[100-199]"; mkLabel "" "[50]"].

Definition sample_labels : list Label :=
  [mkLabel "id-a" "[100-199]"; mkLabel "id-b" "[50]"].

(** A server that lists the given issues and labels on one page each and
    answers every update with the given response. *)
Definition simple_server (issues : list Issue) (labels : list Label)
    (update : response) (n : nat) (r : body) : response :=
  match r with
  | IssuesBody _ => Reply true 200 false (Some (IssuesPage issues false None))
  | LabelsBody _ => Reply true 200 false (Some (LabelsPage labels false None))
  | UpdateBody _ _ => update
  end.

Definition accepted : response :=
  Reply true 200 false (Some (UpdateResult (Some (true, [])))).

Definition refused : response :=
  Reply true 200 false (Some (UpdateResult (Some (false, [])))).

Definition empty_id_world : world :=
  mkWorld (simple_server [bare_issue] empty_id_labels accepted) DocMissing.

(** Two issues need an update and the server refuses every update. *)
Definition refusing_world : world :=
  mkWorld (simple_server [unlabelled_issue; labelled_issue; bare_issue] sample_labels refused)
          (DocParsed (Some sample_mapping)).

(** The mapping document names a label "constructor" that the workspace
    does not have. *)
Definition inherited_name_world : world :=
  mkWorld (simple_server [unlabelled_issue] sample_labels accepted)
          (DocParsed (Some {[ "Alpha" := mkMapping "[100-199]" "constructor" ]})).

(** The mapping document is missing. *)
Definition no_mapping_world : world :=
  mkWorld (simple_server [unlabelled_issue] sample_labels accepted) DocMissing.

(** A server that rejects the first two requests and then answers. *)
Definition flaky_world : world :=
  mkWorld (λ n _, if (n <? 2)%nat then Unreachable "down"
                  else Reply true 200 false (Some (IssuesPage [] false None)))
          DocMissing.

(** A server that rejects every request, each time for another reason. *)
Definition dead_world : world :=
  mkWorld (λ n _, Unreachable (NilZero.string_of_uint (Nat.to_uint n))) DocMissing.

(** ** Vocabulary of the further properties *)

(** The requests in a sequence of events, in order. *)
Definition request_of (e : event) : option request :=
  match e with
  | Sent r => Some r
  | _ => None
  end.

Definition requests (t : list event) : list request := omap request_of t.

(** The exception [graphqlRequest] throws on a response, if any: a rejection,
    a status that is not ok, or an [errors] member, in that order. *)
Definition reply_error (r : response) : option error :=
  match r with
  | Unreachable reason => Some (Rejected reason)
  | Reply false status _ _ => Some (HttpError status)
  | Reply true _ true _ => Some GraphQLFailed
  | Reply true _ false _ => None
  end.

Definition reply_data (r : response) : option payload :=
  match r with
  | Reply _ _ _ data => data
  | Unreachable _ => None
  end.

(** The server answers the issue queries from request [c] on with the given
    pages, each page a list of nodes and an end cursor; every page but the
    last announces a next page, and each query carries the cursor of the
    page before it. *)
Fixpoint serves_issues (w : world) (c : nat) (after : option string)
    (pages : list (list Issue * option string)) : Prop :=
  match pages with
  | [] => False
  | (nodes, endCursor) :: rest =>
      ∃ status,
        server w c (IssuesQuery after)
        = Reply true status false (Some (IssuesPage nodes (negb (bool_decide (rest = []))) endCursor))
      ∧ (rest = [] ∨ serves_issues w (S c) endCursor rest)
  end.

Fixpoint serves_labels (w : world) (c : nat) (after : option string)
    (pages : list (list Label * option string)) : Prop :=
  match pages with
  | [] => False
  | (nodes, endCursor) :: rest =>
      ∃ status,
        server w c (LabelsQuery after)
        = Reply true status false (Some (LabelsPage nodes (negb (bool_decide (rest = []))) endCursor))
      ∧ (rest = [] ∨ serves_labels w (S c) endCursor rest)
  end.

(** The cursors that the queries for a sequence of pages carry. *)
Definition cursors {A} (pages : list (list A * option string)) : list (option string) :=
  None :: map snd (removelast pages).

(** The phase of a run that an event belongs to: listing issues, listing
    labels, reading the mapping document, updating.  Delays and log lines
    belong to no phase. *)
Definition phase_of (e : event) : option nat :=
  match e with
  | Sent (IssuesQuery _) => Some 0%nat
  | Sent (LabelsQuery _) => Some 1%nat
  | ReadFile => Some 2%nat
  | Sent (UpdateIssueMutation _ _) => Some 3%nat
  | Delay _ | Log _ => None
  end.

Definition phases (t : list event) : list nat := omap phase_of t.

(** All events of a sequence that belong to a phase belong to phase [k]. *)
Definition in_phase (k : nat) (t : list event) : Prop :=
  Forall (λ e, phase_of e = None ∨ phase_of e = Some k) t.

Definition is_log (e : event) : Prop :=
  match e with
  | Log _ => True
  | _ => False
  end.

(** A log line that is neither the first nor the last line of
    [updateIssue]. *)
Definition plain_log (e : event) : Prop := is_log e ∧ silent e.

(** Every started update sent at least one request and at most
    [RETRY_ATTEMPTS]. *)
Definition within_budget (t : list event) : Prop :=
  (length (started_updates t) ≤ length (mutations t)
   ≤ RETRY_ATTEMPTS * length (started_updates t))%nat.

(** An issue without a project. *)
Definition no_project (issue : Issue) : bool :=
  match issue_project issue with
  | None => true
  | Some _ => false
  end.

(** The first two characters are "0x" or "0X". *)
Definition hex_prefixed (s : string) : bool :=
  match s with
  | String c1 (String c2 _) => Ascii.eqb c1 "0" && (Ascii.eqb c2 "x" || Ascii.eqb c2 "X")
  | _ => false
  end.

Fixpoint dot_free (s : string) : bool :=
  match s with
  | EmptyString => true
  | String c s' => negb (Ascii.eqb c ".") && dot_free s'
  end.

(** ** Sample data for the further properties *)

(** A server with three pages of issues and two pages of labels. *)
Definition paged_world : world :=
  mkWorld (λ n r,
    match r with
    | IssuesBody None =>
        Reply true 200 false (Some (IssuesPage [labelled_issue] true (Some "i1")))
    | IssuesBody (Some cursor) =>
        if String.eqb cursor "i1"
        then Reply true 200 false (Some (IssuesPage [unlabelled_issue] true (Some "i2")))
        else Reply true 200 false (Some (IssuesPage [bare_issue] false None))
    | LabelsBody None =>
        Reply true 200 false (Some (LabelsPage [mkLabel "id-a" "[100-199]"] true (Some "l1")))
    | LabelsBody (Some _) =>
        Reply true 200 false (Some (LabelsPage [mkLabel "id-b" "[50]"] false None))
    | UpdateBody _ _ => accepted
    end) DocMissing.

(** A server that always announces another page. *)
Definition endless_world : world :=
  mkWorld (λ n r,
    match r with
    | IssuesBody _ => Reply true 200 false (Some (IssuesPage [] true (Some "next")))
    | LabelsBody _ => Reply true 200 false (Some (LabelsPage [] true (Some "next")))
    | UpdateBody _ _ => accepted
    end) DocMissing.

(** A server whose responses carry no [data]. *)
Definition dataless_world : world :=
  mkWorld (λ n r, Reply true 200 false None) DocMissing.

(** The bare issue once both labels are on it. *)
Definition updated_issue : Issue :=
  mkIssue "issue-3" "Bare" "ENG-3"
    [mkLabel "id-a" "renamed"; mkLabel "id-b" "[50]"]
    (Some (mkProject "project-1" "Alpha" "150.2")).

(** The mapping document has no [PROJECT_LABEL_MAPPING] member. *)
Definition keyless_world : world :=
  mkWorld (simple_server [unlabelled_issue] sample_labels accepted) (DocParsed None).

(** * Properties *)

(** ** The inference rules *)

Section Inference.

Lemma split_cons (sep : ascii) (s : string) :
  ∃ p ps, JS.split sep s = p :: ps.
Proof.
  induction s as [|c s IH]; simpl; [by eauto|].
  destruct (Ascii.eqb c sep); [by eauto|].
  destruct IH as (p & ps & ->); eauto.
Qed.

Lemma split_first_segment (s : string) :
  ∃ ps, JS.split "." s = first_segment s :: ps.
Proof.
  unfold first_segment. destruct (split_cons "." s) as (p & ps & ->); simpl; eauto.
Qed.

Lemma truthy_nonempty (s : string) : JS.truthy s = true ↔ s ≠ "".
Proof. destruct s; simpl; split; congruence. Qed.

Lemma take_min_length (k : nat) (s : string) :
  JS.take (Nat.min k (String.length s)) s = JS.take k s.
Proof.
  revert s; induction k as [|k IH]; intros [|c s]; simpl; try done.
  by rewrite IH.
Qed.

Lemma substring_prefix (s : string) (k : nat) : JS.substring s 0 k = JS.take k s.
Proof.
  unfold JS.substring.
  rewrite Nat.min_0_l, Nat.max_0_l, Nat.sub_0_r.
  destruct s; simpl; [by destruct k|].
  apply (take_min_length k (String _ _)).
Qed.


Lemma infer_systems_unfold (id : string) :
  id ≠ "" →
  Static.inferCoreSystemsLabel id =
    let lowerBound := JS.floor_hundred (JS.parseInt (JS.take 3 (first_segment id))) in
    inr ("[" ++ JS.padStart (JS.toString lowerBound) 3 "0" ++ "-"
             ++ JS.padStart (JS.toString (JS.add lowerBound 99)) 3 "0" ++ "]")%string.
Proof.
  intros Hid. unfold Static.inferCoreSystemsLabel.
  apply truthy_nonempty in Hid as ->. simpl negb. cbv iota.
  destruct (split_first_segment id) as [ps ->].
  by rewrite substring_prefix.
Qed.

Lemma infer_areas_unfold (id : string) :
  id ≠ "" →
  Static.inferCoreAreasLabel id = inr ("[" ++ JS.slice (first_segment id) 1 4 ++ "]")%string.
Proof.
  intros Hid. unfold Static.inferCoreAreasLabel.
  apply truthy_nonempty in Hid as ->. simpl negb. cbv iota.
  by destruct (split_first_segment id) as [ps ->].
Qed.

Lemma first_segment_nonempty (id : string) :
  starts_with_digit (first_segment id) = true → id ≠ "".
Proof. by intros H ->. Qed.

Lemma digit_value_range (r : Z) (c : ascii) (d : Z) :
  JS.digit_value r c = Some d → 0 ≤ d < r.
Proof.
  unfold JS.digit_value.
  set (n := Z.of_nat (nat_of_ascii c)).
  repeat case_match; intros; simplify_eq;
    repeat match goal with
      | H : _ && _ = true |- _ => apply andb_prop in H as [? ?]
      | H : (_ <=? _) = true |- _ => apply Z.leb_le in H
      | H : (_ <? _) = true |- _ => apply Z.ltb_lt in H
      end; lia.
Qed.

Lemma digits_from_bound (r : Z) (s : string) (acc : option Z) (v : Z) :
  0 < r → 0 ≤ default 0 acc →
  JS.digits_from r acc s = Some v →
  0 ≤ v < (default 0 acc + 1) * r ^ Z.of_nat (String.length s).
Proof.
  intros Hr. revert acc. induction s as [|c s IH]; intros acc Hacc; simpl String.length.
  - simpl. intros ->. simpl in *. rewrite Z.pow_0_r. lia.
  - simpl JS.digits_from. destruct (JS.digit_value r c) as [d|] eqn:Hd.
    + apply digit_value_range in Hd. intros Hv.
      apply IH in Hv; simpl in *; [|nia].
      rewrite Nat2Z.inj_succ, Z.pow_succ_r by lia.
      assert (0 < r ^ Z.of_nat (String.length s)) by (apply Z.pow_pos_nonneg; lia).
      nia.
    + intros ->. simpl in Hacc. simpl default.
      assert (0 < r ^ Z.of_nat (S (String.length s))) by (apply Z.pow_pos_nonneg; lia).
      nia.
Qed.
Lemma digit_char (c : ascii) :
  is_decimal_digit c = true →
  JS.is_white_space c = false ∧ Ascii.eqb c "-" = false ∧ Ascii.eqb c "+" = false
  ∧ JS.digit_value 10 c = Some (Z.of_nat (nat_of_ascii c) - 48).
Proof.
  destruct c as [[] [] [] [] [] [] [] []]; vm_compute; intros; try discriminate; done.
Qed.

Lemma length_take (k : nat) (s : string) : (String.length (JS.take k s) ≤ k)%nat.
Proof.
  revert s; induction k as [|k IH]; intros [|c s]; simpl; try lia.
  specialize (IH s). lia.
Qed.

Lemma parseInt_leading_digit (s : string) (n : Z) :
  starts_with_digit s = true → (String.length s ≤ 3)%nat →
  JS.parseInt s = JS.Int n → 0 ≤ n ≤ 999.
Proof.
  destruct s as [|c s]; [done|]. simpl starts_with_digit. intros Hc Hlen.
  destruct (digit_char c Hc) as (Hws & Hminus & Hplus & Hd).
  unfold JS.parseInt. simpl JS.trim_start. rewrite Hws.
  unfold JS.strip_sign. rewrite Hminus, Hplus.
  assert (Hpow : ∀ k : nat, (k ≤ 3)%nat → 10 ^ Z.of_nat k ≤ 1000).
  { intros k Hk. assert (k = 0 ∨ k = 1 ∨ k = 2 ∨ k = 3)%nat as [-> | [-> | [-> | ->]]] by lia; done. }
  assert (Hdec : ∀ v, JS.digits_from 10 None (String c s) = Some v → 0 ≤ 1 * v ≤ 999).
  { intros v Hv. apply digits_from_bound in Hv; simpl default in *; [|lia..].
    specialize (Hpow _ Hlen). lia. }
  unfold JS.strip_hex_prefix.
  destruct s as [|c2 s].
  { destruct (JS.digits_from 10 None _) eqn:E; intros; simplify_eq. by apply Hdec. }
  destruct (Ascii.eqb c "0" && _).
  - destruct (JS.digits_from 16 None s) as [v|] eqn:E; intros; simplify_eq.
    apply digits_from_bound in E; simpl default in *; [|lia..].
    assert (16 ^ Z.of_nat (String.length s) ≤ 16).
    { simpl in Hlen.
      assert (String.length s = 0 ∨ String.length s = 1)%nat as [-> | ->] by lia; done. }
    lia.
  - destruct (JS.digits_from 10 None _) eqn:E; intros; simplify_eq. by apply Hdec.
Qed.

Lemma format_hundreds (h : Z) :
  0 ≤ h ≤ 9 →
  JS.padStart (JS.toString (JS.Int (h * 100))) 3 "0" = three_digits (h * 100)
  ∧ JS.padStart (JS.toString (JS.Int (h * 100 + 99))) 3 "0" = three_digits (h * 100 + 99).
Proof.
  intros Hh.
  assert (h = 0 ∨ h = 1 ∨ h = 2 ∨ h = 3 ∨ h = 4 ∨ h = 5 ∨ h = 6 ∨ h = 7 ∨ h = 8 ∨ h = 9)
    as Hcases by lia.
  repeat destruct Hcases as [-> | Hcases]; try subst h; by vm_compute.
Qed.

(** Parsing undoes three-digit printing. *)
Lemma parseInt_three_digits (n : Z) :
  0 ≤ n ≤ 999 → JS.parseInt (three_digits n) = JS.Int n.
Proof.
  intros Hn.
  assert (forallb (λ k, match JS.parseInt (three_digits (Z.of_nat k)) with
                        | JS.Int v => v =? Z.of_nat k
                        | JS.NaN => false
                        end) (seq 0 1000) = true) as Hall by (by vm_compute).
  rewrite forallb_forall in Hall. specialize (Hall (Z.to_nat n)).
  rewrite Z2Nat.id in Hall by lia.
  destruct (JS.parseInt (three_digits n)) as [|v].
  - discriminate Hall. apply in_seq. lia.
  - f_equal. apply Z.eqb_eq, Hall, in_seq. lia.
Qed.

(** C3.  When the first segment of the identifier starts with a digit and
    its first three characters parse to the integer [n], the system label is
    the bracketed hundred-range of [n], both bounds written with three
    digits: "[" lower "-" upper "]" with lower = floor(n/100)*100 and
    upper = lower + 99, and [n] lies in that range. *)
Theorem system_label_is_hundred_range (projectIdentifier : string) (n : Z) :
  starts_with_digit (first_segment projectIdentifier) = true →
  JS.parseInt (JS.substring (first_segment projectIdentifier) 0 3) = JS.Int n →
  Static.inferCoreSystemsLabel projectIdentifier = inr (range_label n)
  ∧ n / 100 * 100 ≤ n ≤ n / 100 * 100 + 99.
Proof.
  intros Hdigit Hparse.
  rewrite infer_systems_unfold by by apply first_segment_nonempty.
  rewrite substring_prefix in Hparse. rewrite Hparse. simpl JS.floor_hundred. simpl JS.add.
  assert (0 ≤ n ≤ 999) as Hn.
  { apply (parseInt_leading_digit (JS.take 3 (first_segment projectIdentifier))); [|apply length_take|done].
    by destruct (first_segment projectIdentifier). }
  assert (0 ≤ n / 100 ≤ 9) as Hh.
  { pose proof (Z.div_mod n 100). pose proof (Z.mod_pos_bound n 100). lia. }
  cbv zeta. destruct (format_hundreds _ Hh) as [-> ->].
  split; [done|]. pose proof (Z.div_mod n 100). pose proof (Z.mod_pos_bound n 100). lia.
Qed.

(** The worked examples: "123.45" gives "[100-199]" and "234.5" gives
    "[200-299]". *)
Lemma system_label_examples :
  Static.inferCoreSystemsLabel "123.45" = inr "[100-199]"
  ∧ Static.inferCoreSystemsLabel "234.5" = inr "[200-299]".
Proof.
  split.
  - exact (proj1 (system_label_is_hundred_range "123.45" 123 eq_refl eq_refl)).
  - exact (proj1 (system_label_is_hundred_range "234.5" 234 eq_refl eq_refl)).
Defined.

(** C4, as stated, fails: a non-numeric leading segment is not rejected. *)
Lemma non_numeric_identifier_not_rejected :
  JS.parseInt (JS.substring (first_segment "abc.1") 0 3) = JS.NaN
  ∧ ¬ raises Static.inferCoreSystemsLabel "abc.1"
  ∧ ¬ raises Static.inferCoreAreasLabel "abc.1".
Proof. repeat split; try done; intros [e He]; vm_compute in He; discriminate. Qed.

(** C4, amended.  The empty identifier makes both inference functions
    raise the invalid-identifier error.  A non-empty identifier is never
    rejected, whatever its leading segment: both functions return a label.
    When the first three characters of the leading segment do not parse to
    a number, the system label is "[NaN-NaN]" and the area label is the
    bracketed slice of the segment. *)
Theorem identifier_rejection (projectIdentifier : string) :
  (projectIdentifier = "" →
     Static.inferCoreSystemsLabel projectIdentifier = inl (InvalidIdentifier projectIdentifier)
     ∧ Static.inferCoreAreasLabel projectIdentifier = inl (InvalidIdentifier projectIdentifier))
  ∧ (projectIdentifier ≠ "" →
     (∃ systemLabel, Static.inferCoreSystemsLabel projectIdentifier = inr systemLabel)
     ∧ (∃ areaLabel, Static.inferCoreAreasLabel projectIdentifier = inr areaLabel)
     ∧ ¬ raises Static.inferCoreSystemsLabel projectIdentifier
     ∧ ¬ raises Static.inferCoreAreasLabel projectIdentifier)
  ∧ (projectIdentifier ≠ "" →
     JS.parseInt (JS.substring (first_segment projectIdentifier) 0 3) = JS.NaN →
     Static.inferCoreSystemsLabel projectIdentifier = inr "[NaN-NaN]"
     ∧ Static.inferCoreAreasLabel projectIdentifier
       = inr ("[" ++ JS.slice (first_segment projectIdentifier) 1 4 ++ "]")%string).
Proof.
  split; [|split].
  - by intros ->.
  - intros Hid. unfold raises. rewrite infer_systems_unfold, infer_areas_unfold by done.
    split; [by eexists|]. split; [by eexists|]. split; by intros [e He].
  - intros Hid Hnan. rewrite infer_systems_unfold, infer_areas_unfold by done.
    rewrite substring_prefix in Hnan. by rewrite Hnan.
Qed.

(** The empty identifier; a leading segment that is no number; a leading
    segment that is a negative number. *)
Lemma identifier_rejection_witness :
  (Static.inferCoreSystemsLabel "" = inl (InvalidIdentifier "")
   ∧ Static.inferCoreAreasLabel "" = inl (InvalidIdentifier ""))
  ∧ (Static.inferCoreSystemsLabel "abc.1" = inr "[NaN-NaN]"
     ∧ Static.inferCoreAreasLabel "abc.1" = inr "[bc]")
  ∧ (¬ raises Static.inferCoreSystemsLabel "-5.x"
     ∧ ¬ raises Static.inferCoreAreasLabel "-5.x").
Proof.
  split; [|split].
  - exact (proj1 (identifier_rejection "") eq_refl).
  - refine (proj2 (proj2 (identifier_rejection "abc.1")) _ eq_refl). discriminate.
  - refine (proj2 (proj2 (proj1 (proj2 (identifier_rejection "-5.x")) _))). discriminate.
Defined.

Lemma slice_offset_one (seg : string) :
  JS.slice seg 1 4 = String.substring 1 3 seg.
Proof. destruct seg as [|c1 [|c2 [|c3 [|c4 [|c5 s]]]]]; reflexivity. Qed.

Lemma substring_length_bound (seg : string) :
  (String.length (String.substring 1 3 seg) ≤ 3)%nat
  ∧ ((String.length seg < 4)%nat → (String.length (String.substring 1 3 seg) < 3)%nat).
Proof. destruct seg as [|c1 [|c2 [|c3 [|c4 [|c5 s]]]]]; simpl; lia. Qed.

(** C5.  For a valid (non-empty) identifier the area label is "[" s "]"
    where [s] is the part of the first segment from offset 1, at most 3
    characters long, which is what [slice(1, 4)] gives; [s] has fewer than
    3 characters when the segment has fewer than 4. *)
Theorem area_label_is_slice (projectIdentifier : string) :
  projectIdentifier ≠ "" →
  let segment := first_segment projectIdentifier in
  let s := String.substring 1 3 segment in
  Static.inferCoreAreasLabel projectIdentifier = inr ("[" ++ s ++ "]")%string
  ∧ s = JS.slice segment 1 4
  ∧ (String.length s ≤ 3)%nat
  ∧ ((String.length segment < 4)%nat → (String.length s < 3)%nat).
Proof.
  intros Hid segment s. subst s segment.
  rewrite infer_areas_unfold, slice_offset_one by done.
  split; [done|]. split; [done|]. apply substring_length_bound.
Qed.

(** Segment "234": the area label is "[34]", two characters. *)
Lemma area_label_example :
  first_segment "234.5" = "234"
  ∧ Static.inferCoreAreasLabel "234.5" = inr "[34]"
  ∧ (String.length "34" < 3)%nat.
Proof.
  split; [reflexivity|].
  assert (H : "234.5" ≠ "") by discriminate.
  pose proof (area_label_is_slice "234.5" H) as (Hlabel & _ & _ & Hshort).
  split; [exact Hlabel|]. apply Hshort. simpl. lia.
Defined.

End Inference.

(** ** The retry wrapper *)

Section Retry.
Context {A : Type} (operation : M A) (w : world).

Lemma delays_app (t1 t2 : list event) : delays (t1 ++ t2) = (delays t1 + delays t2)%nat.
Proof. unfold delays. by rewrite List.filter_app, length_app. Qed.

Lemma fetchWithRetry_last (attempts : nat) :
  (attempts ≤ 1)%nat →
  fetchWithRetry operation attempts = try_catch operation throw.
Proof. by destruct attempts as [|[|n]]; [..|lia]. Qed.

Lemma fetchWithRetry_more (left : nat) :
  fetchWithRetry operation (S (S left)) =
    try_catch operation (λ _,
      log (Retrying (S left));; sleep RETRY_DELAY;; fetchWithRetry operation (S left)).
Proof. reflexivity. Qed.

Lemma retry_after_failures (j : nat) :
  ∀ (n c cj c' : nat) (o : outcome A) (tj : list event),
    (j < n)%nat →
    before_attempt operation w j c = Some cj →
    operation w cj = (o, tj, c') →
    is_ok o = true ∨ n = S j →
    ∃ t, fetchWithRetry operation n w c = (o, t, c')
         ∧ delays t = (j + delays (attempts_trace operation w (S j) c))%nat.
Proof.
  induction j as [|j IH]; intros n c cj c' o tj Hn Hbefore Hop Hlast.
  - simpl in Hbefore. simplify_eq. simpl attempts_trace. rewrite Hop, app_nil_r.
    destruct o as [v|s].
    + exists tj. split; [|done].
      destruct n as [|[|n]]; [lia|..]; simpl; unfold try_catch; by rewrite Hop.
    + destruct Hlast as [? | ->]; [done|].
      rewrite fetchWithRetry_last by done. unfold try_catch. rewrite Hop.
      destruct s as [e| |]; [|by eauto..].
      unfold throw. exists (tj ++ []). by rewrite app_nil_r.
  - destruct n as [|[|n]]; [lia..|].
    simpl in Hbefore.
    destruct (operation w c) as [[[v|[e| |]] t1] c1] eqn:Hfirst; try done.
    destruct (IH (S n) c1 cj c' o tj) as (t & Hrun & Hdelays); [lia|done..| |].
    { destruct Hlast as [?|?]; [by left|right; lia]. }
    rewrite fetchWithRetry_more. unfold try_catch. rewrite Hfirst.
    unfold bind, log, sleep, emit. rewrite Hrun.
    eexists. split; [reflexivity|].
    change (attempts_trace operation w (S (S j)) c)
      with (let '(_, t, c') := operation w c in t ++ attempts_trace operation w (S j) c').
    rewrite Hfirst. rewrite !delays_app, Hdelays. simpl. lia.
Qed.

(** C6.  With a budget of [n] attempts, when the first [k - 1] attempts
    throw and attempt [k <= n] succeeds, the wrapper returns that attempt's
    value; when all [n] attempts throw ([k = n]) it stops with the outcome
    of the [n]-th attempt, that is, it re-raises the last failure
    unchanged.  In both cases the wrapper itself adds exactly [k - 1]
    delays to whatever the attempts emit. *)
Theorem retry_contract (n k c ck c' : nat) (o : outcome A) (tk : list event) :
  (1 ≤ k ≤ n)%nat →
  before_attempt operation w (k - 1) c = Some ck →
  operation w ck = (o, tk, c') →
  is_ok o = true ∨ k = n →
  ∃ t, fetchWithRetry operation n w c = (o, t, c')
       ∧ delays t = ((k - 1) + delays (attempts_trace operation w k c))%nat.
Proof.
  intros Hk Hbefore Hop Hlast.
  destruct k as [|j]; [lia|]. replace (S j - 1)%nat with j in * by lia.
  apply (retry_after_failures j n c ck c' o tk); [lia|done..|].
  destruct Hlast as [?|?]; [by left|right; lia].
Qed.
End Retry.

(** An operation that fails twice and then succeeds, under the default
    budget of 3: the value is returned after exactly 2 delays.  An operation
    that always fails: the third failure is re-raised, after 2 delays. *)
Lemma retry_contract_examples :
  (∃ t, fetchWithRetry (graphqlRequest (IssuesQuery None)) RETRY_ATTEMPTS flaky_world 0%nat
        = (Ok (Some (IssuesPage [] false None)), t, 3%nat)
        ∧ delays t = 2%nat)
  ∧ (∃ t, fetchWithRetry (graphqlRequest (IssuesQuery None)) RETRY_ATTEMPTS dead_world 0%nat
          = (Stop (Throw (Rejected "2")), t, 3%nat)
          ∧ delays t = 2%nat).
Proof.
  split.
  - destruct (retry_contract (graphqlRequest (IssuesQuery None)) flaky_world
                3 3 0 2 3 (Ok (Some (IssuesPage [] false None))) [Sent (IssuesQuery None)])
      as (t & Hrun & Hdelays); [lia|reflexivity|reflexivity|by left|].
    exists t. split; [exact Hrun|exact Hdelays].
  - destruct (retry_contract (graphqlRequest (IssuesQuery None)) dead_world
                3 3 0 2 3 (Stop (Throw (Rejected "2"))) [Sent (IssuesQuery None)])
      as (t & Hrun & Hdelays); [lia|reflexivity|reflexivity|by right|].
    exists t. split; [exact Hrun|exact Hdelays].
Defined.

(** ** Sets in insertion order *)

Section Sets.
Context {A : Type} `{EqDecision A}.
Implicit Types (s l : list A) (x y : A).

Lemma Set_has_spec s x : Set_has s x = true ↔ x ∈ s.
Proof. unfold Set_has. by rewrite bool_decide_eq_true. Qed.

Lemma elem_of_Set_add s x y : y ∈ Set_add s x ↔ y ∈ s ∨ y = x.
Proof.
  unfold Set_add. destruct (Set_has s x) eqn:E.
  - apply Set_has_spec in E. split; [by left|]. by intros [?| ->].
  - rewrite elem_of_app, list_elem_of_singleton. done.
Qed.

Lemma NoDup_Set_add s x : NoDup s → NoDup (Set_add s x).
Proof.
  intros Hs. unfold Set_add. destruct (Set_has s x) eqn:E; [done|].
  apply NoDup_app. split; [done|]. split; [|apply NoDup_singleton].
  intros y Hy ->%list_elem_of_singleton.
  apply Set_has_spec in Hy. congruence.
Qed.

Lemma Set_add_subseteq s x : s ⊆ Set_add s x.
Proof. intros y Hy. apply elem_of_Set_add. by left. Qed.

Lemma elem_of_foldl_Set_add l s x : x ∈ foldl Set_add s l ↔ x ∈ s ∨ x ∈ l.
Proof.
  revert s. induction l as [|y l IH]; intros s; simpl.
  - rewrite elem_of_nil. tauto.
  - rewrite IH, elem_of_Set_add, elem_of_cons. tauto.
Qed.

Lemma NoDup_foldl_Set_add l s : NoDup s → NoDup (foldl Set_add s l).
Proof. revert s. induction l; simpl; auto using NoDup_Set_add. Qed.

Lemma elem_of_new_Set l x : x ∈ new_Set l ↔ x ∈ l.
Proof. unfold new_Set. rewrite elem_of_foldl_Set_add, elem_of_nil. tauto. Qed.

Lemma NoDup_new_Set l : NoDup (new_Set l).
Proof. apply NoDup_foldl_Set_add, NoDup_nil_2. Qed.

(** Two duplicate-free lists, one within the other: the sizes agree
    exactly when the larger adds nothing. *)
Lemma size_differs_iff_strict s l :
  NoDup s → NoDup l → s ⊆ l →
  length l ≠ length s ↔ s ⊂ l.
Proof.
  intros Hs Hl Hsub. split.
  - intros Hlen. split; [done|]. intros Hback.
    apply Hlen, Nat.le_antisymm; apply submseteq_length; by apply NoDup_submseteq.
  - intros [_ Hstrict] Hlen. apply Hstrict.
    assert (s ≡ₚ l) as Hperm.
    { apply submseteq_length_Permutation; [by apply NoDup_submseteq|lia]. }
    intros x. by rewrite Hperm.
Qed.

End Sets.
(** ** The planner *)

(** Run the sequencing of a computation as far as its parts are known. *)
Ltac exec := cbv [bind ret lift throw log sleep emit process_exit out_of_fuel].

Section Planner.

Lemma static_required_resolved (issue : Issue) (project : Project) :
  issue_project issue = Some project →
  JS.truthy (project_identifier project) = true →
  ∃ coreSystemsLabel coreAreasLabel,
    Static.inferCoreSystemsLabel (project_identifier project) = inr coreSystemsLabel
    ∧ Static.inferCoreAreasLabel (project_identifier project) = inr coreAreasLabel
    ∧ static_required issue = Some [Some coreSystemsLabel; Some coreAreasLabel].
Proof.
  intros Hproject Hid. unfold static_required. rewrite Hproject, Hid.
  apply truthy_nonempty in Hid.
  rewrite infer_systems_unfold, infer_areas_unfold by done. eauto.
Qed.

Lemma static_select_run (issue : Issue) (w : world) (c : nat) :
  ∃ t, Static.select issue w c
       = (Ok (missing_required (static_required issue) issue), t, c)
       ∧ Forall silent t.
Proof.
  unfold Static.select.
  destruct (issue_project issue) as [project|] eqn:Hproject.
  - destruct (JS.truthy (project_identifier project)) eqn:Hid;
      [change (negb true) with false|change (negb false) with true]; cbv iota.
    + destruct (static_required_resolved _ _ Hproject Hid) as (s & a & -> & -> & ->).
      unfold missing_required, existing_names. simpl existsb. rewrite orb_false_r.
      exec. destruct (_ || _); eexists; (split; [reflexivity|]); repeat constructor.
    + unfold static_required. rewrite Hproject, Hid.
      eexists; (split; [reflexivity|]); repeat constructor.
  - unfold static_required. rewrite Hproject.
    eexists; (split; [reflexivity|]); repeat constructor.
Qed.

Lemma lookup_select_run (mapping : gmap string ProjectLabelMapping)
    (issue : Issue) (w : world) (c : nat) :
  ∃ t, Lookup.select (Some mapping) issue w c
       = (Ok (missing_required (lookup_required mapping issue) issue), t, c)
       ∧ Forall silent t.
Proof.
  unfold Lookup.select, lookup_required.
  destruct (issue_project issue) as [project|].
  - unfold Lookup.index. exec.
    destruct (JS.get mapping (project_name project)) as [entry|key|].
    1,2: unfold missing_required, existing_names;
      destruct (existsb _ _); eexists; (split; [reflexivity|]); repeat constructor.
    eexists; (split; [reflexivity|]); repeat constructor.
  - eexists; (split; [reflexivity|]); repeat constructor.
Qed.

Lemma filterM_run {A} (p : A → M bool) (f : A → bool) :
  (∀ x w c, ∃ t, p x w c = (Ok (f x), t, c) ∧ Forall silent t) →
  ∀ l w c, ∃ t, filterM p l w c = (Ok (List.filter f l), t, c) ∧ Forall silent t.
Proof.
  intros Hp l w c. induction l as [|x l (t & IH & Ht)]; simpl.
  - by exists [].
  - destruct (Hp x w c) as (tx & Hx & Htx).
    unfold bind. rewrite Hx, IH. unfold ret.
    eexists. split; [by destruct (f x)|].
    rewrite app_nil_r. by apply Forall_app.
Qed.







End Planner.


(** An issue whose project has no entry in the mapping document and is
    named "constructor" is selected all the same, whatever its labels. *)
Lemma inherited_project_name_is_selected :
  sample_mapping !! "constructor" = None
  ∧ ∃ t, filterM (Lookup.select (Some sample_mapping)) [constructor_issue] flaky_world 0%nat
         = (Ok [constructor_issue], t, 0%nat).
Proof. split; [reflexivity|]. eexists. vm_compute. reflexivity. Qed.

(** ** Requests and their retries *)

Section Requests.

Lemma omap_silent {B} (f : event → option B) (t : list event) :
  Forall (λ e, f e = None) t → omap f t = [].
Proof. induction 1 as [|e t He _ IH]; simpl; [done|]. by rewrite He. Qed.

Lemma silent_mutations (t : list event) : Forall silent t → mutations t = [].
Proof. intros H. apply omap_silent. eapply Forall_impl; [done|]. by intros e (? & ? & ?). Qed.

Lemma silent_started (t : list event) : Forall silent t → started_updates t = [].
Proof. intros H. apply omap_silent. eapply Forall_impl; [done|]. by intros e (? & ? & ?). Qed.

Lemma silent_verdicts (t : list event) : Forall silent t → verdicts t = [].
Proof. intros H. apply omap_silent. eapply Forall_impl; [done|]. by intros e (? & ? & ?). Qed.

Lemma transport_quiet (q : request) (t : list event) :
  Forall (transport q) t →
  started_updates t = [] ∧ verdicts t = []
  ∧ ∀ x, x ∈ mutations t → Some x = mutation_of (Sent q).
Proof.
  induction 1 as [|e t He _ (IH1 & IH2 & IH3)]; [by split; [|split; [|intros ? ?%elem_of_nil]]|].
  unfold started_updates, verdicts, mutations in *.
  destruct e as [r|ms| |[]]; simpl in *; try done.
  subst r. split; [done|]. split; [done|].
  destruct q; simpl; try done.
  intros x [->|?]%elem_of_cons; [done|by apply IH3].
Qed.

Lemma transport_silent (q : request) (t : list event) :
  is_query q → Forall (transport q) t → Forall silent t.
Proof.
  intros Hq H. eapply Forall_impl; [done|]. intros e He.
  destruct e as [r|ms| |[]]; simpl in *; try done.
  subst r. by destruct q.
Qed.

Lemma graphqlRequest_run (q : request) (w : world) (c : nat) :
  ∃ o t, graphqlRequest q w c = (o, Sent q :: t, S c)
         ∧ Forall (transport q) t ∧ not_fatal o.
Proof.
  unfold graphqlRequest, send. exec.
  destruct (server w c q) as [reason|[] status [] data]; simpl;
    eexists _, _; (split; [reflexivity|]); split; by repeat constructor.
Qed.

Lemma retry_request_run (n : nat) (q : request) (w : world) (c : nat) :
  ∃ o t c', fetchWithRetry (graphqlRequest q) n w c = (o, Sent q :: t, c')
            ∧ Forall (transport q) t ∧ not_fatal o.
Proof.
  revert c. induction n as [n IH] using lt_wf_ind. intros c.
  destruct (graphqlRequest_run q w c) as (o & t & Hrun & Ht & Ho).
  destruct n as [|[|n]].
  1,2: rewrite fetchWithRetry_last by lia; unfold try_catch; rewrite Hrun;
    destruct o as [v|[e| |]]; try done; exec;
    [by eexists _, _, _|];
    exists (Stop (Throw e)), t, (S c); rewrite app_nil_r; by repeat split.
  rewrite fetchWithRetry_more. unfold try_catch. rewrite Hrun.
  destruct o as [v|[e| |]]; try done.
  { eexists _, _, _; by split. }
  destruct (IH (S n) ltac:(lia) (S c)) as (o' & t' & c' & Hrest & Ht' & Ho').
  exec. rewrite Hrest.
  eexists _, _, _; split; [reflexivity|]. split; [|done].
  apply Forall_app. split; [done|]. by repeat constructor.
Qed.

End Requests.
(** ** The mutation applier *)

Section Applier.

Lemma faithful_silent (t : list event) : Forall silent t → faithful [] t.
Proof.
  intros H. unfold faithful.
  by rewrite silent_started, silent_verdicts, silent_mutations.
Qed.

Lemma faithful_app (calls1 calls2 : list (Issue * list LabelId)) (t1 t2 : list event) :
  faithful calls1 t1 → faithful calls2 t2 → faithful (calls1 ++ calls2) (t1 ++ t2).
Proof.
  intros (Hs1 & Hv1 & Hm1) (Hs2 & Hv2 & Hm2). unfold faithful, started_updates, verdicts, mutations in *.
  rewrite !omap_app, !map_app, Hs1, Hs2, Hv1, Hv2.
  split; [done|]. split; [done|].
  intros x. rewrite !elem_of_app, Hm1, Hm2. done.
Qed.

Lemma faithful_silent_l (calls : list (Issue * list LabelId)) (t1 t2 : list event) :
  Forall silent t1 → faithful calls t2 → faithful calls (t1 ++ t2).
Proof. intros H1 H2. apply (faithful_app [] calls); [by apply faithful_silent|done]. Qed.

Lemma faithful_silent_r (calls : list (Issue * list LabelId)) (t1 t2 : list event) :
  faithful calls t1 → Forall silent t2 → faithful calls (t1 ++ t2).
Proof.
  intros H1 H2. rewrite <- (app_nil_r calls).
  apply faithful_app; [done|by apply faithful_silent].
Qed.

(** A call of [updateIssue] always returns normally.  It logs its start,
    sends the update request at least once and nothing but that request,
    and ends with the log line that tells how the retried request ended. *)
Lemma updateIssue_run (issue : Issue) (labelIds : list LabelId) (w : world) (c : nat) :
  ∃ t c' v,
    updateIssue issue labelIds w c = (Ok tt, t, c')
    ∧ faithful [(issue, labelIds)] t
    ∧ update_verdict
        (fetchWithRetry (graphqlRequest (UpdateIssueMutation (issue_id issue) labelIds))
           RETRY_ATTEMPTS w c).1.1 = Some v
    ∧ verdicts t = [(issue, v)].
Proof.
  unfold updateIssue, try_catch. exec.
  destruct (retry_request_run RETRY_ATTEMPTS (UpdateIssueMutation (issue_id issue) labelIds) w c)
    as (o & t & c' & Hrun & Ht & Ho).
  rewrite Hrun. simpl fst.
  destruct (transport_quiet _ _ Ht) as (Hs & Hv & Hm).
  assert (∀ last v, verdict_of last = Some (issue, v) → start_of last = None →
            mutation_of last = None →
            faithful [(issue, labelIds)]
              (Log (Updating issue labelIds) :: (Sent (UpdateIssueMutation (issue_id issue) labelIds) :: t) ++ [last])
            ∧ verdicts (Log (Updating issue labelIds) :: (Sent (UpdateIssueMutation (issue_id issue) labelIds) :: t) ++ [last]) = [(issue, v)])
    as Hshape.
  { intros last v Hlast Hstart Hmut.
    unfold faithful, started_updates, verdicts, mutations in *. simpl.
    rewrite !omap_app, Hs, Hv. simpl. rewrite Hlast, Hstart, Hmut. simpl.
    split; [|done]. split; [done|]. split; [done|].
    intros x. rewrite app_nil_r, elem_of_cons, list_elem_of_singleton.
    split; [|by left]. intros [?|Hx]; [done|]. apply Hm in Hx. simpl in Hx. congruence. }
  destruct o as [[[| |[[[] labels]|]]|]|[e| |]]; try done; simpl;
    eexists _, _, _; (split; [reflexivity|]);
    rewrite ?app_nil_r; (split; [|split; [reflexivity|]]); by eapply Hshape.
Qed.

End Applier.
(** ** The apply loop *)

Section Apply.

Lemma submissions_one (m : gmap string string) (required : Issue → option (list (option string)))
    (issue : Issue) :
  submissions m required [issue]
  = if changed m (required issue) issue
    then [(issue, target m (required issue) issue)] else [].
Proof. unfold submissions. simpl. by destruct (changed _ _ _). Qed.

Lemma submissions_cons (m : gmap string string) (required : Issue → option (list (option string)))
    (issue : Issue) (plan : list Issue) :
  submissions m required (issue :: plan)
  = submissions m required [issue] ++ submissions m required plan.
Proof. unfold submissions. simpl. by destruct (changed _ _ _). Qed.

Lemma submissions_unresolved (m : gmap string string)
    (required : Issue → option (list (option string))) (issue : Issue) :
  required issue = None → submissions m required [issue] = [].
Proof.
  intros H. rewrite submissions_one. unfold changed, target. rewrite H. simpl.
  by rewrite Nat.eqb_refl.
Qed.

Lemma add_if_found_run (m : gmap string string) (name : option string) (ids : list LabelId)
    (w : world) (c : nat) :
  ∃ t, add_if_found (JS.to_key name) (JS.get m (JS.to_key name)) ids w c
       = (Ok (from_option (Set_add ids) ids (usable_id m name)), t, c)
       ∧ Forall silent t
       ∧ (usable_id m name = None → Log (LabelNotFound (JS.to_key name)) ∈ t).
Proof.
  unfold add_if_found, usable_id.
  destruct (JS.get m (JS.to_key name)) as [id|key|]; [destruct (JS.truthy id)| |]; exec;
    eexists; (split; [reflexivity|]); (split; [by repeat constructor|]);
    intros; try done; by left.
Qed.

Lemma warned_app (m : gmap string string) (required : Issue → option (list (option string)))
    (plan1 plan2 : list Issue) (t1 t2 : list event) :
  warned m required plan1 t1 → warned m required plan2 t2 →
  warned m required (plan1 ++ plan2) (t1 ++ t2).
Proof.
  intros H1 H2 issue names name [Hin|Hin]%elem_of_app Hreq Hname Hnone;
    apply elem_of_app; [left|right]; eauto.
Qed.

Lemma warned_nil (m : gmap string string) (required : Issue → option (list (option string)))
    (t : list event) :
  warned m required [] t.
Proof. by intros issue names name ?%elem_of_nil. Qed.

Lemma applied_silent_l (m : gmap string string) (required : Issue → option (list (option string)))
    (plan : list Issue) (t1 t2 : list event) :
  Forall silent t1 → applied m required plan t2 → applied m required plan (t1 ++ t2).
Proof.
  intros H1 [Hf Hw]. split; [by apply faithful_silent_l|].
  apply (warned_app m required [] plan); [apply warned_nil|done].
Qed.

Lemma applied_silent_r (m : gmap string string) (required : Issue → option (list (option string)))
    (plan : list Issue) (t1 t2 : list event) :
  applied m required plan t1 → Forall silent t2 → applied m required plan (t1 ++ t2).
Proof.
  intros [Hf Hw] H2. split; [by apply faithful_silent_r|].
  rewrite <- (app_nil_r plan). apply warned_app; [done|apply warned_nil].
Qed.

Lemma applied_unresolved (m : gmap string string) (required : Issue → option (list (option string)))
    (issue : Issue) :
  required issue = None → applied m required [issue] [].
Proof.
  intros Hreq. split.
  - rewrite submissions_unresolved by done. by apply faithful_silent.
  - intros i names name ->%list_elem_of_singleton. congruence.
Qed.

(** The common end of both loop bodies: the size comparison. *)
Lemma submit_if_changed (m : gmap string string) (required : Issue → option (list (option string)))
    (issue : Issue) (names : list (option string)) (w : world) (c : nat) :
  required issue = Some names →
  let ids := target_ids m names (existing_ids issue) in
  ∃ t c',
    (if negb (length ids =? length (existing_ids issue))%nat
     then updateIssue issue ids else log (NoChanges issue)) w c = (Ok tt, t, c')
    ∧ faithful (submissions m required [issue]) t.
Proof.
  intros Hreq ids. rewrite submissions_one. unfold changed, target. rewrite Hreq.
  simpl default. fold ids.
  destruct (negb _).
  - destruct (updateIssue_run issue ids w c) as (t & c' & v & Hrun & Hfaithful & _). eauto.
  - eexists _, _. split; [reflexivity|]. apply faithful_silent. by repeat constructor.
Qed.

Lemma bind_ret {A B} (a : A) (k : A → M B) (w : world) (c : nat) :
  bind (ret a) k w c = k a w c.
Proof. unfold bind, ret. by destruct (k a w c) as [[o t] c']. Qed.

(** Two required names, looked up and added one after the other. *)
Lemma add_two_then_submit (m : gmap string string) (required : Issue → option (list (option string)))
    (issue : Issue) (first second : option string) (w : world) (c : nat) :
  required issue = Some [first; second] →
  ∃ t c',
    (let* newLabelIds :=
       add_if_found (JS.to_key first) (JS.get m (JS.to_key first)) (existing_ids issue) in
     let* newLabelIds :=
       add_if_found (JS.to_key second) (JS.get m (JS.to_key second)) newLabelIds in
     if negb (length newLabelIds =? length (existing_ids issue))%nat
     then updateIssue issue newLabelIds
     else log (NoChanges issue)) w c = (Ok tt, t, c')
    ∧ applied m required [issue] t.
Proof.
  intros Hreq. exec.
  destruct (add_if_found_run m first (existing_ids issue) w c) as (t1 & -> & Ht1 & Hw1).
  destruct (add_if_found_run m second
              (from_option (Set_add (existing_ids issue)) (existing_ids issue)
                 (usable_id m first)) w c) as (t2 & -> & Ht2 & Hw2).
  destruct (submit_if_changed m required issue _ w c Hreq) as (t & c' & Hrun & Ht).
  unfold target_ids in Hrun. cbn [foldl] in Hrun. cbv [log emit] in Hrun. rewrite Hrun.
  eexists _, _. split; [reflexivity|]. split.
  - apply faithful_silent_l; [done|]. by apply faithful_silent_l.
  - intros i names name ->%list_elem_of_singleton Hnames Hname Hnone.
    rewrite Hreq in Hnames. injection Hnames as <-.
    apply elem_of_cons in Hname as [-> | ->%list_elem_of_singleton].
    + apply elem_of_app. left. by apply Hw1.
    + apply elem_of_app. right. apply elem_of_app. left. by apply Hw2.
Qed.

Lemma static_apply_run (m : gmap string string) (issue : Issue) (w : world) (c : nat) :
  ∃ t c', Static.apply m issue w c = (Ok tt, t, c')
          ∧ applied m static_required [issue] t.
Proof.
  unfold Static.apply.
  destruct (issue_project issue) as [project|] eqn:Hproject.
  - destruct (JS.truthy (project_identifier project)) eqn:Hid;
      [change (negb true) with false|change (negb false) with true]; cbv iota.
    + destruct (static_required_resolved _ _ Hproject Hid) as (s & a & Hs & Ha & Hreq).
      destruct (add_two_then_submit m static_required issue (Some s) (Some a) w c Hreq)
        as (t & c' & Hrun & Ht).
      exists t, c'. split; [|done]. rewrite <- Hrun, Hs, Ha. cbn [lift].
      by rewrite !bind_ret.
    + exists [], c. split; [done|]. apply applied_unresolved.
      unfold static_required. by rewrite Hproject, Hid.
  - exists [], c. split; [done|]. apply applied_unresolved.
    unfold static_required. by rewrite Hproject.
Qed.

Lemma lookup_apply_run (mapping : gmap string ProjectLabelMapping)
    (m : gmap string string) (issue : Issue) (w : world) (c : nat) :
  ∃ t c', Lookup.apply (Some mapping) m issue w c = (Ok tt, t, c')
          ∧ applied m (lookup_required mapping) [issue] t.
Proof.
  unfold Lookup.apply, Lookup.index.
  destruct (issue_project issue) as [project|] eqn:Hproject.
  - destruct (JS.get mapping (project_name project)) as [entry|key|] eqn:Hmapping.
    1,2: match type of Hmapping with
         | _ = ?pm =>
             assert (lookup_required mapping issue
                     = Some [Lookup.member pm CoreSystems; Lookup.member pm CoreAreas]) as Hreq
               by (unfold lookup_required; by rewrite Hproject, Hmapping)
         end;
      destruct (add_two_then_submit m (lookup_required mapping) issue _ _ w c Hreq)
        as (t & c' & Hrun & Ht);
      exists t, c'; (split; [|done]); rewrite <- Hrun, bind_ret;
      cbn [foldM LABEL_GROUPS]; unfold bind, ret, existing_ids;
      (destruct (add_if_found _ _ _ w c) as [[[ids1|s1] t1] c1]; [|done]);
      (destruct (add_if_found _ _ _ w c1) as [[[ids2|s2] t2] c2]; [|done]);
      (destruct (negb _); [destruct (updateIssue issue ids2 w c2) as [[o3 t3] c3]|cbv [log emit]]);
      by rewrite ?app_nil_r, ?app_assoc.
    exists [], c. split; [by rewrite bind_ret|].
    apply applied_unresolved. unfold lookup_required. by rewrite Hproject, Hmapping.
  - exists [], c. split; [done|]. apply applied_unresolved.
    unfold lookup_required. by rewrite Hproject.
Qed.

Lemma applied_cons (m : gmap string string) (required : Issue → option (list (option string)))
    (issue : Issue) (plan : list Issue) (t1 t2 : list event) :
  applied m required [issue] t1 → applied m required plan t2 →
  applied m required (issue :: plan) (t1 ++ t2).
Proof.
  intros [Hf1 Hw1] [Hf2 Hw2]. split.
  - rewrite submissions_cons. by apply faithful_app.
  - by apply (warned_app m required [issue] plan).
Qed.

Lemma forM_run (body : Issue → M unit) (m : gmap string string)
    (required : Issue → option (list (option string))) :
  (∀ issue w c, ∃ t c', body issue w c = (Ok tt, t, c')
                        ∧ applied m required [issue] t) →
  ∀ plan w c, ∃ t c', forM_ plan body w c = (Ok tt, t, c')
                      ∧ applied m required plan t.
Proof.
  intros Hbody plan w. induction plan as [|issue plan IH]; intros c.
  - exists [], c. split; [done|]. split; [by apply faithful_silent|apply warned_nil].
  - destruct (Hbody issue w c) as (t1 & c1 & Hrun1 & Ht1).
    destruct (IH c1) as (t2 & c2 & Hrun2 & Ht2).
    simpl forM_. exec. rewrite Hrun1, Hrun2.
    eexists _, _. split; [reflexivity|]. by apply applied_cons.
Qed.

End Apply.
(** ** Whole runs *)

(** Events known piece by piece to be silent. *)
Ltac silence :=
  cbn [app]; rewrite ?app_nil_r;
  repeat first [assumption | apply Forall_nil_2 | apply Forall_app; split
               | apply Forall_cons; split; [by repeat split|]].

Section Runs.

Lemma fetchAllIssues_silent (fuel : nat) (issues : list Issue) (endCursor : option string)
    (w : world) (c : nat) :
  ∃ o t c', fetchAllIssues_from fuel issues endCursor w c = (o, t, c') ∧ Forall silent t.
Proof.
  revert issues endCursor c. induction fuel as [|fuel IH]; intros issues endCursor c.
  - by exists (Stop OutOfFuel), [], c.
  - cbn [fetchAllIssues_from]. exec.
    destruct (retry_request_run RETRY_ATTEMPTS (IssuesQuery endCursor) w c)
      as (o & t & c' & -> & Ht & _).
    assert (Forall silent (Sent (IssuesQuery endCursor) :: t)) as Hsilent.
    { constructor; [done|]. by apply (transport_silent (IssuesQuery endCursor)). }
    destruct o as [[[nodes [] endCursor'| |]|]|s]; try (eexists _, _, _; split; [reflexivity|];
      rewrite ?app_nil_r; done).
    destruct (IH (issues ++ nodes) endCursor' c') as (o' & t' & c'' & -> & Ht').
    eexists _, _, _; split; [reflexivity|]. by apply Forall_app.
Qed.

Lemma fetchWorkspaceLabels_silent (fuel : nat) (labels : list Label)
    (endCursor : option string) (w : world) (c : nat) :
  ∃ o t c', fetchWorkspaceLabels_from fuel labels endCursor w c = (o, t, c') ∧ Forall silent t.
Proof.
  revert labels endCursor c. induction fuel as [|fuel IH]; intros labels endCursor c.
  - by exists (Stop OutOfFuel), [], c.
  - cbn [fetchWorkspaceLabels_from]. exec.
    destruct (retry_request_run RETRY_ATTEMPTS (LabelsQuery endCursor) w c)
      as (o & t & c' & -> & Ht & _).
    assert (Forall silent (Sent (LabelsQuery endCursor) :: t)) as Hsilent.
    { constructor; [done|]. by apply (transport_silent (LabelsQuery endCursor)). }
    destruct o as [[[|nodes [] endCursor'|]|]|s]; try (eexists _, _, _; split; [reflexivity|];
      rewrite ?app_nil_r; done).
    destruct (IH (labels ++ nodes) endCursor' c') as (o' & t' & c'' & -> & Ht').
    eexists _, _, _; split; [reflexivity|]. by apply Forall_app.
Qed.

Lemma applied_silent_cons (m : gmap string string)
    (required : Issue → option (list (option string))) (plan : list Issue)
    (e : event) (t : list event) :
  silent e → applied m required plan t → applied m required plan (e :: t).
Proof. intros He Ht. apply (applied_silent_l m required plan [e]); [|done]. by constructor. Qed.

Lemma static_sync_run (fuel : nat) (w : world) (c : nat) :
  ∃ o t c',
    Static.syncTasks fuel w c = (o, t, c')
    ∧ match fetchAllIssues fuel w c with
      | (Stop s, _, _) => o = caught s ∧ Forall silent t ∧ ∃ t0, t = t0 ++ catch_log s
      | (Ok issues, _, c1) =>
          match fetchWorkspaceLabels fuel w c1 with
          | (Stop s, _, _) => o = caught s ∧ Forall silent t ∧ ∃ t0, t = t0 ++ catch_log s
          | (Ok workspaceLabels, _, _) =>
              o = Ok tt
              ∧ (∃ t0, t = t0 ++ [Log SyncCompleted])
              ∧ applied (labelNameToId workspaceLabels) static_required
                  (plan static_required issues) t
          end
      end.
Proof.
  unfold Static.syncTasks, try_catch, fetchAllIssues, fetchWorkspaceLabels. exec.
  destruct (fetchAllIssues_silent fuel [] None w c) as (o1 & t1 & c1 & -> & Ht1).
  assert (∀ s, Forall silent (catch_log s)) as Hcatch by (intros []; by repeat constructor).
  destruct o1 as [issues|s].
  2: { destruct s as [e| |]; cbn [caught catch_log];
         (eexists _, _, _; split; [reflexivity|]; split; [done|]; split;
          [|by first [eexists; reflexivity|eexists; rewrite app_nil_r]]);
         rewrite ?app_nil_r; repeat (apply Forall_app; split); by repeat constructor. }
  destruct (fetchWorkspaceLabels_silent fuel [] None w c1) as (o2 & t2 & c2 & -> & Ht2).
  destruct o2 as [workspaceLabels|s].
  2: { destruct s as [e| |]; cbn [caught catch_log];
         (eexists _, _, _; split; [reflexivity|]; split; [done|]; split;
          [|by first [eexists; reflexivity|eexists; rewrite app_nil_r]]);
         rewrite ?app_nil_r; repeat (apply Forall_app; split); by repeat constructor. }
  destruct (filterM_run Static.select _ static_select_run issues w c2) as (t3 & -> & Ht3).
  destruct (forM_run (Static.apply (labelNameToId workspaceLabels)) _ static_required
              (static_apply_run _) (plan static_required issues) w c2)
    as (t4 & c4 & Hloop & Ht4).
  unfold plan in Hloop. rewrite Hloop.
  eexists _, _, _. split; [reflexivity|]. split; [done|]. split.
  - eexists. rewrite !app_assoc. reflexivity.
  - cbn [app].
    repeat first [apply applied_silent_cons; [done|]
                 |apply applied_silent_l; [done|]
                 |apply applied_silent_r; [|by repeat constructor]].
    done.
Qed.

Lemma lookup_select_undefined (issues : list Issue) (w : world) (c : nat) :
  ∃ o t, filterM (Lookup.select None) issues w c = (o, t, c)
         ∧ Forall silent t ∧ (o = Ok [] ∨ o = Stop (Throw TypeError)).
Proof.
  induction issues as [|issue issues (o & t & IH & Ht & Ho)].
  - exists (Ok []), []. by repeat split; [|left].
  - cbn [filterM]. set (rest := filterM (Lookup.select None) issues) in *.
    unfold Lookup.select, Lookup.index.
    destruct (issue_project issue) as [project|]; exec.
    + exists (Stop (Throw TypeError)), []. by repeat split; [|right].
    + rewrite IH. destruct Ho as [-> | ->]; eexists _, _; (split; [reflexivity|]);
        (split; [cbn [app]; rewrite ?app_nil_r; by repeat constructor|]); [by left|by right].
Qed.

Lemma lookup_sync_run (fuel : nat) (w : world) (c : nat) :
  ∃ o t c',
    Lookup.syncTasks fuel w c = (o, t, c')
    ∧ match fetchAllIssues fuel w c with
      | (Stop s, _, _) => o = caught s ∧ Forall silent t
      | (Ok issues, t1, c1) =>
          match fetchWorkspaceLabels fuel w c1 with
          | (Stop s, _, _) => o = caught s ∧ Forall silent t
          | (Ok workspaceLabels, t2, c2) =>
              match mapping_file w with
              | DocMissing | DocMalformed =>
                  o = Stop (Exit 1) ∧ c' = c2
                  ∧ t = t1 ++ Log (FetchedIssues (length issues)) :: t2
                        ++ [Log (FetchedLabels (length workspaceLabels)); ReadFile;
                            Log MappingError]
              | DocParsed None => Forall silent t
              | DocParsed (Some mapping) =>
                  o = Ok tt
                  ∧ applied (labelNameToId workspaceLabels) (lookup_required mapping)
                      (plan (lookup_required mapping) issues) t
              end
          end
      end.
Proof.
  unfold Lookup.syncTasks, try_catch, fetchAllIssues, fetchWorkspaceLabels,
    Lookup.loadProjectLabelMappings, readMappingFile. exec.
  destruct (fetchAllIssues_silent fuel [] None w c) as (o1 & t1 & c1 & -> & Ht1).
  destruct o1 as [issues|s].
  2: { destruct s as [e| |]; cbn [caught]; eexists _, _, _; (split; [reflexivity|]);
         (split; [done|]); rewrite ?app_nil_r;
         repeat (apply Forall_app; split); by repeat constructor. }
  destruct (fetchWorkspaceLabels_silent fuel [] None w c1) as (o2 & t2 & c2 & -> & Ht2).
  destruct o2 as [workspaceLabels|s].
  2: { destruct s as [e| |]; cbn [caught]; eexists _, _, _; (split; [reflexivity|]);
         (split; [done|]); rewrite ?app_nil_r;
         repeat (apply Forall_app; split); by repeat constructor. }
  destruct (mapping_file w) as [| |[mapping|]].
  1,2: eexists _, _, _; (split; [reflexivity|]); by rewrite ?app_nil_r.
  - destruct (filterM_run (Lookup.select (Some mapping)) _ (lookup_select_run mapping) issues w c2)
      as (t3 & -> & Ht3).
    destruct (forM_run (Lookup.apply (Some mapping) (labelNameToId workspaceLabels)) _
                (lookup_required mapping) (lookup_apply_run mapping _)
                (plan (lookup_required mapping) issues) w c2)
      as (t4 & c4 & Hloop & Ht4).
    unfold plan in Hloop. rewrite Hloop.
    eexists _, _, _. split; [reflexivity|]. split; [done|].
    cbn [app].
    repeat first [apply applied_silent_cons; [done|]
                 |apply applied_silent_l; [done|]
                 |apply applied_silent_r; [|by repeat constructor]].
    done.
  - destruct (lookup_select_undefined issues w c2) as (o3 & t3 & -> & Ht3 & [-> | ->]);
      eexists _, _, _; (split; [reflexivity|]); silence.
Qed.

Lemma fetchAllIssues_sends (fuel : nat) (w : world) (c : nat) :
  ∃ o t c', fetchAllIssues (S fuel) w c = (o, Sent (IssuesQuery None) :: t, c').
Proof.
  unfold fetchAllIssues. cbn [fetchAllIssues_from]. exec.
  destruct (retry_request_run RETRY_ATTEMPTS (IssuesQuery None) w c)
    as (o & t & c' & -> & _).
  destruct o as [[[nodes [] endCursor'| |]|]|s]; try by eexists _, _, _.
  destruct (fetchAllIssues_from fuel _ _ w c') as [[o' t'] c'']. by eexists _, _, _.
Qed.

End Runs.
(** ** What the update requests carry *)

Section Targets.

Lemma get_plain {A} (own : gmap string A) (key : string) :
  key ∉ JS.prototype_keys →
  JS.get own key = from_option JS.Own JS.Undefined (own !! key).
Proof.
  intros Hkey. unfold JS.get. destruct (own !! key); [done|].
  by rewrite bool_decide_eq_false_2.
Qed.

(** On a name that no object inherits a property under, the accepted value
    is the non-empty id that the map holds. *)
Lemma usable_id_spec (m : gmap string string) (name : option string) (x : LabelId) :
  JS.to_key name ∉ JS.prototype_keys →
  usable_id m name = Some x ↔ ∃ id, x = Id id ∧ m !! JS.to_key name = Some id ∧ id ≠ "".
Proof.
  intros Hkey. unfold usable_id. rewrite get_plain by done.
  destruct (m !! JS.to_key name) as [i|]; simpl; [|split; [done|by intros (? & _ & ? & _)]].
  destruct (JS.truthy i) eqn:Hi.
  - apply truthy_nonempty in Hi. split; [intros [= <-]; by exists i|].
    by intros (id & -> & [= <-] & _).
  - destruct i; [|done]. split; [done|]. by intros (id & -> & [= <-] & ?).
Qed.

Lemma usable_id_none (m : gmap string string) (name : option string) :
  JS.to_key name ∉ JS.prototype_keys →
  usable_id m name = None ↔ m !! JS.to_key name = None ∨ m !! JS.to_key name = Some "".
Proof.
  intros Hkey. unfold usable_id. rewrite get_plain by done.
  destruct (m !! JS.to_key name) as [i|]; simpl; [|split; [by left|done]].
  destruct i; simpl; (split; [|by intros [?|?]]); [by right|done].
Qed.

(** The names that the static variant infers start with a bracket: no
    object inherits a property under them. *)
Lemma bracket_not_inherited (rest : string) : (String "[" rest) ∉ JS.prototype_keys.
Proof.
  unfold JS.prototype_keys. intros H.
  repeat (apply elem_of_cons in H as [H|H]; [discriminate|]).
  by apply elem_of_nil in H.
Qed.

Lemma static_names_plain (issue : Issue) (names : list (option string)) :
  static_required issue = Some names →
  ∃ systems areas,
    names = [Some systems; Some areas]
    ∧ (systems ∉ JS.prototype_keys) ∧ (areas ∉ JS.prototype_keys).
Proof.
  unfold static_required. destruct (issue_project issue) as [project|]; [|done].
  destruct (JS.truthy (project_identifier project)) eqn:Hid; [|done].
  apply truthy_nonempty in Hid.
  rewrite infer_systems_unfold, infer_areas_unfold by done.
  intros [= <-]. eexists _, _. split; [reflexivity|].
  split; apply bracket_not_inherited.
Qed.

Lemma elem_of_target_ids (m : gmap string string) (names : list (option string))
    (existing : list LabelId) (id : LabelId) :
  id ∈ target_ids m names existing
  ↔ id ∈ existing ∨ ∃ name, name ∈ names ∧ usable_id m name = Some id.
Proof.
  unfold target_ids. revert existing.
  induction names as [|name names IH]; intros existing; simpl.
  - split; [by left|]. intros [?|(name & ?%elem_of_nil & _)]; done.
  - rewrite IH. destruct (usable_id m name) as [i|] eqn:Hname; simpl.
    + rewrite elem_of_Set_add. split.
      * intros [[?| ->]|(n & Hn & Hid)]; [by left|right..].
        -- exists name. split; [by left|done].
        -- exists n. split; [by right|done].
      * intros [?|(n & [-> |Hn]%elem_of_cons & Hid)]; [by left; left| |].
        -- left. right. congruence.
        -- right. by exists n.
    + split.
      * intros [?|(n & Hn & Hid)]; [by left|right]. exists n. split; [by right|done].
      * intros [?|(n & [-> |Hn]%elem_of_cons & Hid)]; [by left|congruence|].
        right. by exists n.
Qed.

Lemma elem_of_existing_ids (issue : Issue) (x : LabelId) :
  x ∈ existing_ids issue ↔ ∃ id, x = Id id ∧ id ∈ map label_id (issue_labels issue).
Proof.
  unfold existing_ids. rewrite elem_of_new_Set, list_elem_of_fmap. split.
  - intros (label & -> & Hlabel). eexists. split; [done|].
    apply list_elem_of_fmap. by exists label.
  - intros (id & -> & (label & -> & Hlabel)%list_elem_of_fmap). by exists label.
Qed.

Lemma NoDup_target_ids (m : gmap string string) (names : list (option string)) (existing : list LabelId) :
  NoDup existing → NoDup (target_ids m names existing).
Proof.
  unfold target_ids. revert existing. induction names as [|name names IH]; intros existing H; [done|].
  simpl. apply IH. destruct (usable_id m name); simpl; [by apply NoDup_Set_add|done].
Qed.

Lemma elem_of_submissions (m : gmap string string) (required : Issue → option (list (option string)))
    (issues : list Issue) (issue : Issue) (ids : list LabelId) :
  (issue, ids) ∈ submissions m required (plan required issues)
  ↔ issue ∈ issues
    ∧ missing_required (required issue) issue = true
    ∧ changed m (required issue) issue = true
    ∧ ids = target m (required issue) issue.
Proof.
  unfold submissions, plan. rewrite list_elem_of_fmap. split.
  - intros (i & [= <- ->] & Hi). apply list_elem_of_In, filter_In in Hi as [Hi Hc].
    apply filter_In in Hi as [Hi Hm]. by rewrite list_elem_of_In.
  - intros (Hi & Hm & Hc & ->). exists issue. split; [done|].
    apply list_elem_of_In, filter_In. split; [|done].
    apply filter_In. by rewrite <- list_elem_of_In.
Qed.

(** What an update request of a run carries, given what was fetched. *)
Lemma mutation_of_plan (m : gmap string string) (required : Issue → option (list (option string)))
    (issues : list Issue) (t : list event) (issueId : string) (labelIds : list LabelId) :
  applied m required (plan required issues) t →
  (issueId, labelIds) ∈ mutations t →
  ∃ issue names,
    issue ∈ plan required issues
    ∧ required issue = Some names
    ∧ issueId = issue_id issue
    ∧ (∀ id, id ∈ map label_id (issue_labels issue) → Id id ∈ labelIds)
    ∧ (∀ x, x ∈ labelIds
            ↔ (∃ id, x = Id id ∧ id ∈ map label_id (issue_labels issue))
              ∨ ∃ name, name ∈ names ∧ usable_id m name = Some x)
    ∧ (∀ name, name ∈ names → usable_id m name = None →
               Log (LabelNotFound (JS.to_key name)) ∈ t).
Proof.
  intros [(_ & _ & Hmut) Hwarned] Hin.
  apply Hmut, list_elem_of_fmap in Hin as ([issue ids] & [= -> ->] & Hsub).
  pose proof Hsub as Hplan.
  apply elem_of_submissions in Hsub as (Hissue & Hmissing & _ & Hids). simpl in *.
  destruct (required issue) as [names|] eqn:Hreq; [|done].
  assert (issue ∈ plan required issues) as Hselected.
  { unfold plan. apply list_elem_of_In, filter_In. rewrite <- list_elem_of_In, Hreq. done. }
  exists issue, names. split; [done|]. split; [done|]. split; [done|].
  assert (∀ x, x ∈ ids
               ↔ (∃ id, x = Id id ∧ id ∈ map label_id (issue_labels issue))
                 ∨ ∃ name, name ∈ names ∧ usable_id m name = Some x) as Hspec.
  { intros x. rewrite Hids. unfold target. simpl default.
    by rewrite elem_of_target_ids, elem_of_existing_ids. }
  split; [|split; [done|]].
  - intros id Hid. apply Hspec. left. by exists id.
  - intros name Hname Hnone. by eapply Hwarned.
Qed.

End Targets.
(** ** The claims about whole runs *)

Section Claims.

(** C1, as stated, fails: a required label whose workspace id is the empty
    string is in the name-to-id map, yet its id is not submitted. *)
Lemma empty_id_is_skipped :
  mutations (events (Static.syncTasks 1 empty_id_world 0%nat)) = [("issue-3", [Id "id-a"])]
  ∧ fetchAllIssues 1 empty_id_world 0%nat
    = (Ok [bare_issue], [Sent (IssuesQuery None)], 1%nat)
  ∧ fetchWorkspaceLabels 1 empty_id_world 1%nat
    = (Ok empty_id_labels, [Sent (LabelsQuery None)], 2%nat)
  ∧ static_required bare_issue = Some [Some "[100-199]"; Some "[50]"]
  ∧ labelNameToId empty_id_labels !! "[50]" = Some ""
  ∧ Id "" ∉ [Id "id-a"].
Proof.
  repeat split; try by vm_compute.
  intros [H|H]%elem_of_cons; [done|by apply elem_of_nil in H].
Qed.

(** In the lookup-table variant a required label name that every object
    inherits a property under, and that no workspace label has, is not
    skipped: the inherited value is added without a warning and the update
    is sent. *)
Lemma inherited_label_name_is_submitted :
  labelNameToId sample_labels !! "constructor" = None
  ∧ mutations (events (Lookup.syncTasks 1 inherited_name_world 0%nat))
    = [("issue-2", [Id "id-a"; Foreign "constructor"])]
  ∧ Log (LabelNotFound "constructor")
    ∉ events (Lookup.syncTasks 1 inherited_name_world 0%nat).
Proof.
  split; [reflexivity|]. split; [by vm_compute|].
  vm_compute. intros H.
  repeat (apply elem_of_cons in H as [H|H]; [discriminate|]).
  by apply elem_of_nil in H.
Qed.

(** C1, amended.  In both variants every update request of a run is for an
    issue the planner selected, and its label-id list contains every label
    id the issue already has.  Besides the existing ids the list holds
    exactly the values the code accepts for the required label names.  For
    a name under which no object inherits a property, which the names of the
    static variant always are, that is the non-empty id that the workspace
    name-to-id map gives for it; such a name with no id or with the empty id
    in the map adds nothing and is warned about. *)
Theorem update_requests_keep_labels :
  (∀ fuel w c issueId labelIds,
      (issueId, labelIds) ∈ mutations (events (Static.syncTasks fuel w c)) →
      ∃ issues t1 c1 workspaceLabels t2 c2 issue names,
        fetchAllIssues fuel w c = (Ok issues, t1, c1)
        ∧ fetchWorkspaceLabels fuel w c1 = (Ok workspaceLabels, t2, c2)
        ∧ issue ∈ plan static_required issues
        ∧ static_required issue = Some (map Some names)
        ∧ issueId = issue_id issue
        ∧ (∀ id, id ∈ map label_id (issue_labels issue) → Id id ∈ labelIds)
        ∧ (∀ x, x ∈ labelIds
                ↔ ∃ id, x = Id id
                        ∧ (id ∈ map label_id (issue_labels issue)
                           ∨ ∃ name, name ∈ names
                                     ∧ labelNameToId workspaceLabels !! name = Some id
                                     ∧ id ≠ ""))
        ∧ (∀ name, name ∈ names →
                   labelNameToId workspaceLabels !! name = None
                   ∨ labelNameToId workspaceLabels !! name = Some "" →
                   Log (LabelNotFound name) ∈ events (Static.syncTasks fuel w c)))
  ∧ (∀ fuel w c issueId labelIds,
      (issueId, labelIds) ∈ mutations (events (Lookup.syncTasks fuel w c)) →
      ∃ issues t1 c1 workspaceLabels t2 c2 mapping issue names,
        fetchAllIssues fuel w c = (Ok issues, t1, c1)
        ∧ fetchWorkspaceLabels fuel w c1 = (Ok workspaceLabels, t2, c2)
        ∧ mapping_file w = DocParsed (Some mapping)
        ∧ issue ∈ plan (lookup_required mapping) issues
        ∧ lookup_required mapping issue = Some names
        ∧ issueId = issue_id issue
        ∧ (∀ id, id ∈ map label_id (issue_labels issue) → Id id ∈ labelIds)
        ∧ (∀ x, x ∈ labelIds
                ↔ (∃ id, x = Id id ∧ id ∈ map label_id (issue_labels issue))
                  ∨ ∃ name, name ∈ names
                            ∧ usable_id (labelNameToId workspaceLabels) name = Some x)
        ∧ (∀ name, name ∈ names →
                   usable_id (labelNameToId workspaceLabels) name = None →
                   Log (LabelNotFound (JS.to_key name)) ∈ events (Lookup.syncTasks fuel w c))
        ∧ (∀ name, name ∈ names → JS.to_key name ∉ JS.prototype_keys →
             (∀ x, usable_id (labelNameToId workspaceLabels) name = Some x
                   ↔ ∃ id, x = Id id
                           ∧ labelNameToId workspaceLabels !! JS.to_key name = Some id
                           ∧ id ≠ "")
             ∧ (usable_id (labelNameToId workspaceLabels) name = None
                ↔ labelNameToId workspaceLabels !! JS.to_key name = None
                  ∨ labelNameToId workspaceLabels !! JS.to_key name = Some ""))).
Proof.
  split; intros fuel w c issueId labelIds Hin.
  - destruct (static_sync_run fuel w c) as (o & t & c' & Hrun & Hcases).
    rewrite Hrun in *. unfold events in *. simpl in Hin |- *.
    destruct (fetchAllIssues fuel w c) as [[[issues|s] t1] c1] eqn:Hissues.
    2: { destruct Hcases as (_ & Hsilent & _).
         rewrite silent_mutations in Hin by done. by apply elem_of_nil in Hin. }
    destruct (fetchWorkspaceLabels fuel w c1) as [[[workspaceLabels|s] t2] c2] eqn:Hlabels.
    2: { destruct Hcases as (_ & Hsilent & _).
         rewrite silent_mutations in Hin by done. by apply elem_of_nil in Hin. }
    destruct Hcases as (_ & _ & Happlied).
    destruct (mutation_of_plan _ _ _ _ _ _ Happlied Hin)
      as (issue & names & Hplan & Hreq & Hid & Hkeep & Hids & Hwarn).
    destruct (static_names_plain _ _ Hreq) as (systems & areas & -> & Hsystems & Hareas).
    assert (∀ name, name ∈ [systems; areas] → JS.to_key (Some name) ∉ JS.prototype_keys)
      as Hplain.
    { intros name [-> | ->%list_elem_of_singleton]%elem_of_cons; done. }
    exists issues, t1, c1, workspaceLabels, t2, c2, issue, [systems; areas].
    repeat (split; [done|]). split.
    + intros x. rewrite Hids. split.
      * intros [(id & -> & Hold)|(name & Hname & Husable)]; [exists id; by auto|].
        apply (list_elem_of_fmap Some [systems; areas]) in Hname as (n & -> & Hn).
        apply usable_id_spec in Husable as (id & -> & Hlookup & Hne); [|by apply Hplain].
        exists id. split; [done|]. right. by exists n.
      * intros (id & -> & [Hold|(n & Hn & Hlookup & Hne)]); [left; by exists id|].
        right. exists (Some n). split; [by apply (list_elem_of_fmap_2 Some [systems; areas])|].
        apply usable_id_spec; [by apply Hplain|]. by exists id.
    + intros name Hname Hnone. apply (Hwarn (Some name)).
      * by apply (list_elem_of_fmap_2 Some [systems; areas]).
      * apply usable_id_none; [by apply Hplain|done].
  - destruct (lookup_sync_run fuel w c) as (o & t & c' & Hrun & Hcases).
    rewrite Hrun in *. unfold events in *. simpl in Hin |- *.
    destruct (fetchAllIssues_silent fuel [] None w c) as (o1 & t1 & c1 & Hissues & Ht1).
    fold (fetchAllIssues fuel) in Hissues. rewrite Hissues in Hcases.
    destruct o1 as [issues|s].
    2: { destruct Hcases as (_ & Hsilent).
         rewrite silent_mutations in Hin by done. by apply elem_of_nil in Hin. }
    destruct (fetchWorkspaceLabels_silent fuel [] None w c1) as (o2 & t2 & c2 & Hlabels & Ht2).
    fold (fetchWorkspaceLabels fuel) in Hlabels. rewrite Hlabels in Hcases.
    destruct o2 as [workspaceLabels|s].
    2: { destruct Hcases as (_ & Hsilent).
         rewrite silent_mutations in Hin by done. by apply elem_of_nil in Hin. }
    destruct (mapping_file w) as [| |[mapping|]] eqn:Hdoc.
    1,2: destruct Hcases as (_ & _ & ->);
      rewrite silent_mutations in Hin by silence; by apply elem_of_nil in Hin.
    2: { rewrite silent_mutations in Hin by done. by apply elem_of_nil in Hin. }
    destruct Hcases as (_ & Happlied).
    destruct (mutation_of_plan _ _ _ _ _ _ Happlied Hin)
      as (issue & names & ? & ? & ? & ? & ? & ?).
    exists issues, t1, c1, workspaceLabels, t2, c2, mapping, issue, names.
    repeat (split; [done|]).
    intros name _ Hkey. split; [intros x; by apply usable_id_spec|by apply usable_id_none].
Qed.

(** Two runs with an update request: one per variant. *)
Lemma update_requests_keep_labels_witness :
  (∃ issue, issue ∈ plan static_required [bare_issue] ∧ "issue-3" = issue_id issue)
  ∧ (∃ issue, issue ∈ plan (lookup_required sample_mapping)
                        [unlabelled_issue; labelled_issue; bare_issue]
              ∧ "issue-2" = issue_id issue).
Proof.
  split.
  - destruct (proj1 update_requests_keep_labels 1%nat empty_id_world 0%nat "issue-3"
                [Id "id-a"])
      as (issues & t1 & c1 & workspaceLabels & t2 & c2 & issue & names
          & Hissues & _ & Hplan & _ & Hid & _).
    { apply list_elem_of_In. vm_compute. by left. }
    vm_compute in Hissues. injection Hissues as <- _ _. by exists issue.
  - destruct (proj2 update_requests_keep_labels 1%nat refusing_world 0%nat
                "issue-2" [Id "id-a"; Id "id-b"])
      as (issues & t1 & c1 & workspaceLabels & t2 & c2 & mapping & issue & names
          & Hissues & _ & Hdoc & Hplan & _ & Hid & _).
    { apply list_elem_of_In. vm_compute. by left. }
    vm_compute in Hissues. injection Hissues as <- _ _.
    injection Hdoc as <-. by exists issue.
Defined.

(** C2.  In the static variant: when fetching the issues or the labels
    stops (retries exhausted), the run sends no update request, starts no
    update and ends with the error log alone.  When both fetches succeed,
    the run completes whatever the server answers to the updates: every
    issue of the plan whose label set changes has its update started and
    brought to a verdict, in plan order.  A call of [updateIssue] always
    returns normally, and its verdict log tells how the retried request
    ended: the exception that escaped the retries, or the refusal. *)
Theorem fetch_failure_aborts_update_failure_continues (fuel : nat) (w : world) (c : nat) :
  (∀ s t1 c1,
      fetchAllIssues fuel w c = (Stop s, t1, c1) →
      mutations (events (Static.syncTasks fuel w c)) = []
      ∧ started_updates (events (Static.syncTasks fuel w c)) = []
      ∧ result (Static.syncTasks fuel w c) = caught s
      ∧ ∃ t0, events (Static.syncTasks fuel w c) = t0 ++ catch_log s)
  ∧ (∀ issues t1 c1 s t2 c2,
      fetchAllIssues fuel w c = (Ok issues, t1, c1) →
      fetchWorkspaceLabels fuel w c1 = (Stop s, t2, c2) →
      mutations (events (Static.syncTasks fuel w c)) = []
      ∧ started_updates (events (Static.syncTasks fuel w c)) = []
      ∧ result (Static.syncTasks fuel w c) = caught s
      ∧ ∃ t0, events (Static.syncTasks fuel w c) = t0 ++ catch_log s)
  ∧ (∀ issues t1 c1 workspaceLabels t2 c2,
      fetchAllIssues fuel w c = (Ok issues, t1, c1) →
      fetchWorkspaceLabels fuel w c1 = (Ok workspaceLabels, t2, c2) →
      let calls := submissions (labelNameToId workspaceLabels) static_required
                     (plan static_required issues) in
      result (Static.syncTasks fuel w c) = Ok tt
      ∧ (∃ t0, events (Static.syncTasks fuel w c) = t0 ++ [Log SyncCompleted])
      ∧ started_updates (events (Static.syncTasks fuel w c)) = calls
      ∧ map fst (verdicts (events (Static.syncTasks fuel w c))) = map fst calls)
  ∧ (∀ issue labelIds, ∃ t c' v,
      updateIssue issue labelIds w c = (Ok tt, t, c')
      ∧ update_verdict
          (result (fetchWithRetry
                     (graphqlRequest (UpdateIssueMutation (issue_id issue) labelIds))
                     RETRY_ATTEMPTS w c)) = Some v
      ∧ verdicts t = [(issue, v)]).
Proof.
  destruct (static_sync_run fuel w c) as (o & t & c' & Hrun & Hcases).
  rewrite Hrun. unfold events, result. simpl.
  split; [|split; [|split]].
  - intros s t1 c1 Hissues. rewrite Hissues in Hcases.
    destruct Hcases as (-> & Hsilent & Hlast).
    by rewrite silent_mutations, silent_started.
  - intros issues t1 c1 s t2 c2 Hissues Hlabels. rewrite Hissues, Hlabels in Hcases.
    destruct Hcases as (-> & Hsilent & Hlast).
    by rewrite silent_mutations, silent_started.
  - intros issues t1 c1 workspaceLabels t2 c2 Hissues Hlabels.
    rewrite Hissues, Hlabels in Hcases.
    by destruct Hcases as (-> & Hlast & (Hstarted & Hverdicts & _) & _).
  - intros issue labelIds.
    destruct (updateIssue_run issue labelIds w c) as (tu & cu & v & ? & _ & ? & ?).
    by exists tu, cu, v.
Qed.

(** A server that rejects every request: nothing is updated.  A server
    that refuses every update: both planned issues are still processed. *)
Lemma fetch_failure_aborts_update_failure_continues_witness :
  (mutations (events (Static.syncTasks 1 dead_world 0%nat)) = []
   ∧ result (Static.syncTasks 1 dead_world 0%nat) = Ok tt)
  ∧ (started_updates (events (Static.syncTasks 1 refusing_world 0%nat))
     = submissions (labelNameToId sample_labels) static_required
         (plan static_required [unlabelled_issue; labelled_issue; bare_issue])
     ∧ map fst (verdicts (events (Static.syncTasks 1 refusing_world 0%nat)))
       = [unlabelled_issue; bare_issue]).
Proof.
  split.
  - destruct (fetch_failure_aborts_update_failure_continues 1 dead_world 0) as (Hfail & _).
    edestruct Hfail as (Hmutations & _ & Hresult & _); [vm_compute; reflexivity|].
    split; [exact Hmutations|exact Hresult].
  - destruct (fetch_failure_aborts_update_failure_continues 1 refusing_world 0)
      as (_ & _ & Hcontinue & _).
    edestruct Hcontinue as (_ & _ & Hstarted & Hverdicts);
      [vm_compute; reflexivity|vm_compute; reflexivity|].
    split; [exact Hstarted|exact Hverdicts].
Defined.

Lemma faithful_mutations (calls : list (Issue * list LabelId)) (t : list event) :
  faithful calls t → mutations t ≠ [] ↔ calls ≠ [].
Proof.
  intros (_ & _ & Hmut). split; intros Hne Hnil; apply Hne.
  - subst calls. destruct (mutations t) as [|x l]; [done|].
    by pose proof (proj1 (Hmut x) ltac:(by left)) as ?%elem_of_nil.
  - rewrite Hnil in Hmut. destruct calls as [|call calls]; [done|].
    by pose proof (proj2 (Hmut (issue_id call.1, call.2)) ltac:(by left)) as ?%elem_of_nil.
Qed.

Lemma submitted_iff_size_differs (m : gmap string string)
    (required : Issue → option (list (option string))) (issue : Issue) (t : list event) :
  applied m required [issue] t →
  mutations t ≠ []
  ↔ length (target m (required issue) issue) ≠ length (existing_ids issue).
Proof.
  intros [Hf _]. rewrite (faithful_mutations _ _ Hf), submissions_one. unfold changed.
  destruct (Nat.eqb_spec (length (target m (required issue) issue))
              (length (existing_ids issue))) as [Heq|Hne]; simpl; by split.
Qed.

Lemma target_extends_existing (m : gmap string string) (required : option (list (option string)))
    (issue : Issue) :
  existing_ids issue ⊆ target m required issue
  ∧ (length (target m required issue) ≠ length (existing_ids issue)
     ↔ existing_ids issue ⊂ target m required issue).
Proof.
  assert (existing_ids issue ⊆ target m required issue) as Hsub.
  { intros id Hid. apply elem_of_target_ids. by left. }
  split; [done|]. apply size_differs_iff_strict; [apply NoDup_new_Set| |done].
  apply NoDup_target_ids, NoDup_new_Set.
Qed.

(** C8.  In both variants the loop body sends an update request for an
    issue exactly when the target id set and the existing id set differ in
    size; the target always contains the existing set, so the sizes differ
    exactly when the target strictly contains the existing set. *)
Theorem mutation_iff_strict_superset (m : gmap string string) (issue : Issue)
    (w : world) (c : nat) :
  (mutations (events (Static.apply m issue w c)) ≠ []
   ↔ length (target m (static_required issue) issue) ≠ length (existing_ids issue))
  ∧ (∀ mapping,
      mutations (events (Lookup.apply (Some mapping) m issue w c)) ≠ []
      ↔ length (target m (lookup_required mapping issue) issue) ≠ length (existing_ids issue))
  ∧ (∀ required,
      existing_ids issue ⊆ target m required issue
      ∧ (length (target m required issue) ≠ length (existing_ids issue)
         ↔ existing_ids issue ⊂ target m required issue)).
Proof.
  split; [|split].
  - destruct (static_apply_run m issue w c) as (t & c' & -> & Ht).
    by apply submitted_iff_size_differs.
  - intros mapping.
    destruct (lookup_apply_run mapping m issue w c) as (t & c' & -> & Ht).
    by apply (submitted_iff_size_differs m (lookup_required mapping)).
  - intros required. apply target_extends_existing.
Qed.

(** C9, as stated, fails: with the mapping document missing, the issue
    list and the label list are requested before the run exits. *)
Lemma mapping_is_read_after_fetching :
  mapping_file no_mapping_world = DocMissing
  ∧ Lookup.syncTasks 1 no_mapping_world 0%nat
    = (Stop (Exit 1),
       [Sent (IssuesQuery None); Log (FetchedIssues 1);
        Sent (LabelsQuery None); Log (FetchedLabels 2);
        ReadFile; Log MappingError],
       2%nat).
Proof. split; by vm_compute. Qed.

(** C9, amended.  In lookup-table mode a missing or unparseable mapping
    document is fatal once it is read, which is after the issue list and
    the label list have been fetched: the run then exits with status 1
    right after reading it.  No update request is sent in such a run. *)
Theorem missing_mapping_is_fatal_after_fetching (fuel : nat) (w : world) (c : nat) :
  mapping_file w = DocMissing ∨ mapping_file w = DocMalformed →
  mutations (events (Lookup.syncTasks fuel w c)) = []
  ∧ (∀ issues t1 c1 workspaceLabels t2 c2,
      fetchAllIssues fuel w c = (Ok issues, t1, c1) →
      fetchWorkspaceLabels fuel w c1 = (Ok workspaceLabels, t2, c2) →
      Lookup.syncTasks fuel w c
      = (Stop (Exit 1),
         t1 ++ Log (FetchedIssues (length issues)) :: t2
            ++ [Log (FetchedLabels (length workspaceLabels)); ReadFile; Log MappingError],
         c2)
      ∧ ∃ t1', t1 = Sent (IssuesQuery None) :: t1').
Proof.
  intros Hdoc.
  destruct (lookup_sync_run fuel w c) as (o & t & c' & Hrun & Hcases).
  rewrite Hrun. unfold events. simpl.
  destruct (fetchAllIssues_silent fuel [] None w c) as (o1 & t1 & c1 & Hissues & Ht1).
  fold (fetchAllIssues fuel) in Hissues. rewrite Hissues in Hcases.
  destruct o1 as [issues|s].
  2: { destruct Hcases as (_ & Hsilent). split; [by apply silent_mutations|]. intros; congruence. }
  destruct (fetchWorkspaceLabels_silent fuel [] None w c1) as (o2 & t2 & c2 & Hlabels & Ht2).
  fold (fetchWorkspaceLabels fuel) in Hlabels. rewrite Hlabels in Hcases.
  destruct o2 as [workspaceLabels|s].
  2: { destruct Hcases as (_ & Hsilent). split; [by apply silent_mutations|].
       intros issues' t1' c1' workspaceLabels' t2' c2' H1 H2.
       rewrite Hissues in H1. injection H1 as <- <- <-. congruence. }
  assert (o = Stop (Exit 1) ∧ c' = c2
          ∧ t = t1 ++ Log (FetchedIssues (length issues)) :: t2
                ++ [Log (FetchedLabels (length workspaceLabels)); ReadFile; Log MappingError])
    as (-> & -> & ->) by (by destruct Hdoc as [Hdoc|Hdoc]; rewrite Hdoc in Hcases).
  split; [apply silent_mutations; silence|].
  intros issues' t1' c1' workspaceLabels' t2' c2' H1 H2.
  rewrite Hissues in H1. injection H1 as <- <- <-.
  rewrite Hlabels in H2. injection H2 as <- <- <-. split; [done|].
  destruct fuel as [|fuel]; [done|].
  destruct (fetchAllIssues_sends fuel w c) as (o' & t' & c'' & Hsends).
  rewrite Hsends in Hissues. injection Hissues as _ <- _. by eexists.
Qed.

Lemma missing_mapping_is_fatal_after_fetching_witness :
  mutations (events (Lookup.syncTasks 1 no_mapping_world 0%nat)) = []
  ∧ result (Lookup.syncTasks 1 no_mapping_world 0%nat) = Stop (Exit 1).
Proof.
  destruct (missing_mapping_is_fatal_after_fetching 1 no_mapping_world 0) as [Hquiet Hexit].
  { by left. }
  split; [exact Hquiet|].
  edestruct Hexit as [-> _]; [vm_compute; reflexivity|vm_compute; reflexivity|].
  reflexivity.
Defined.

(** C10, as stated, fails: without the credential the process exits before
    any run is started. *)
Lemma missing_credential_starts_nothing :
  started (Static.main None) = [] ∧ exit_code (Static.main None) = Some 1.
Proof. by split. Qed.

End Claims.

(** * Further properties *)

(** ** More on the inference rules *)

Section InferenceEdges.

Lemma digits_from_Some (r a : Z) (s : string) : is_Some (JS.digits_from r (Some a) s).
Proof.
  revert a. induction s as [|c s IH]; intros a; simpl; [done|].
  destruct (JS.digit_value r c); [apply IH|done].
Qed.

Lemma parseInt_decimal (s : string) :
  starts_with_digit s = true → hex_prefixed s = false →
  ∃ n, JS.parseInt s = JS.Int n.
Proof.
  destruct s as [|c s]; [done|]. simpl starts_with_digit. intros Hc Hhex.
  destruct (digit_char c Hc) as (Hws & Hminus & Hplus & Hd).
  unfold JS.parseInt. simpl JS.trim_start. rewrite Hws.
  unfold JS.strip_sign. rewrite Hminus, Hplus.
  assert (JS.strip_hex_prefix (String c s) = (10, String c s)) as ->.
  { unfold JS.strip_hex_prefix. destruct s as [|c2 s]; [done|].
    simpl in Hhex. by rewrite Hhex. }
  simpl JS.digits_from. rewrite Hd.
  match goal with
  | |- context [JS.digits_from 10 (Some ?a) s] =>
      destruct (digits_from_Some 10 a s) as [v ->]
  end. eauto.
Qed.

Lemma starts_with_digit_take (s : string) :
  starts_with_digit (JS.take 3 s) = starts_with_digit s.
Proof. by destruct s. Qed.

Lemma hex_prefixed_take (s : string) :
  hex_prefixed (JS.take 3 s) = hex_prefixed s.
Proof. by destruct s as [|c1 [|c2 s]]. Qed.

Lemma range_label_hundreds (n : Z) : range_label n = range_label (100 * (n / 100)).
Proof.
  unfold range_label.
  replace (100 * (n / 100) / 100) with (n / 100); [done|].
  symmetry. rewrite Z.mul_comm. apply Z.div_mul. lia.
Qed.

Lemma system_label_of_parse (projectIdentifier : string) (n : Z) :
  starts_with_digit (first_segment projectIdentifier) = true →
  JS.parseInt (JS.take 3 (first_segment projectIdentifier)) = JS.Int n →
  0 ≤ n / 100 ≤ 9
  ∧ Static.inferCoreSystemsLabel projectIdentifier = inr (range_label (100 * (n / 100))).
Proof.
  intros Hdigit Hparse.
  assert (0 ≤ n ≤ 999) as Hn.
  { apply (parseInt_leading_digit (JS.take 3 (first_segment projectIdentifier)));
      [by rewrite starts_with_digit_take|apply length_take|done]. }
  assert (0 ≤ n / 100 ≤ 9) as Hh.
  { pose proof (Z.div_mod n 100). pose proof (Z.mod_pos_bound n 100). lia. }
  split; [done|].
  rewrite infer_systems_unfold by by apply first_segment_nonempty.
  rewrite Hparse. simpl JS.floor_hundred. simpl JS.add. cbv zeta.
  destruct (format_hundreds _ Hh) as [-> ->]. by rewrite <- range_label_hundreds.
Qed.

(** X1.  When the first segment of the identifier starts with a decimal
    digit, the system label is one of the ten range labels "[000-099]" to
    "[900-999]", the range of the number read from the first three
    characters; or it is "[NaN-NaN]", which happens only when the segment
    starts with "0x" or "0X" ([parseInt] then reads a hexadecimal number
    and finds no digit). *)
Theorem leading_digit_system_labels (projectIdentifier : string) :
  starts_with_digit (first_segment projectIdentifier) = true →
  (Static.inferCoreSystemsLabel projectIdentifier = inr "[NaN-NaN]"
   ∧ hex_prefixed (first_segment projectIdentifier) = true)
  ∨ ∃ h, 0 ≤ h ≤ 9
         ∧ Static.inferCoreSystemsLabel projectIdentifier = inr (range_label (100 * h)).
Proof.
  intros Hdigit.
  destruct (JS.parseInt (JS.take 3 (first_segment projectIdentifier))) as [|n] eqn:Hparse.
  - left. split.
    + rewrite infer_systems_unfold by by apply first_segment_nonempty. by rewrite Hparse.
    + destruct (hex_prefixed (first_segment projectIdentifier)) eqn:Hhex; [done|].
      destruct (parseInt_decimal (JS.take 3 (first_segment projectIdentifier))) as [n Hn];
        [by rewrite starts_with_digit_take|by rewrite hex_prefixed_take|congruence].
  - right. exists (n / 100). by apply system_label_of_parse.
Qed.

(** Identifier "150.2". *)
Lemma leading_digit_system_labels_witness :
  (Static.inferCoreSystemsLabel "150.2" = inr "[NaN-NaN]"
   ∧ hex_prefixed (first_segment "150.2") = true)
  ∨ ∃ h, 0 ≤ h ≤ 9 ∧ Static.inferCoreSystemsLabel "150.2" = inr (range_label (100 * h)).
Proof. apply (leading_digit_system_labels "150.2"). reflexivity. Defined.

Lemma first_segment_append (seg rest : string) :
  dot_free seg = true →
  first_segment (seg ++ String "." rest)%string = seg.
Proof.
  unfold first_segment. induction seg as [|c seg IH]; intros Hfree; simpl in *.
  - done.
  - apply andb_prop in Hfree as [Hc Hfree]. apply negb_true_iff in Hc. rewrite Hc.
    specialize (IH Hfree).
    destruct (JS.split "." (seg ++ String "." rest)%string) as [|p ps]; simpl in *; congruence.
Qed.

Lemma first_segment_whole (seg : string) :
  dot_free seg = true → first_segment seg = seg.
Proof.
  unfold first_segment. induction seg as [|c seg IH]; intros Hfree; simpl in *; [done|].
  apply andb_prop in Hfree as [Hc Hfree]. apply negb_true_iff in Hc. rewrite Hc.
  specialize (IH Hfree).
  destruct (JS.split "." seg) as [|p ps]; simpl in *; congruence.
Qed.

(** X2.  Both inference functions read the first dot-separated segment
    only: an identifier made of a non-empty segment, a dot and any text gets
    the labels of the segment alone. *)
Theorem text_after_first_dot_is_ignored (segment rest : string) :
  segment ≠ "" → dot_free segment = true →
  Static.inferCoreSystemsLabel (segment ++ String "." rest)%string
  = Static.inferCoreSystemsLabel segment
  ∧ Static.inferCoreAreasLabel (segment ++ String "." rest)%string
    = Static.inferCoreAreasLabel segment.
Proof.
  intros Hne Hfree.
  assert ((segment ++ String "." rest)%string ≠ "") as Hne' by by destruct segment.
  rewrite !infer_systems_unfold, !infer_areas_unfold by done.
  by rewrite first_segment_append, first_segment_whole.
Qed.

(** Segment "150" followed by ".2.x". *)
Lemma text_after_first_dot_is_ignored_witness :
  Static.inferCoreSystemsLabel "150.2.x" = Static.inferCoreSystemsLabel "150"
  ∧ Static.inferCoreAreasLabel "150.2.x" = Static.inferCoreAreasLabel "150".
Proof. apply (text_after_first_dot_is_ignored "150" "2.x"); [discriminate|reflexivity]. Defined.

End InferenceEdges.

(** ** One retried request *)

Section RetriedRequest.

Lemma requests_app (t1 t2 : list event) : requests (t1 ++ t2) = requests t1 ++ requests t2.
Proof. apply omap_app. Qed.

(** What one call of [graphqlRequest] does, from the response it gets. *)
Lemma graphqlRequest_reply (q : request) (w : world) (c : nat) :
  ∃ t, graphqlRequest q w c
       = (match reply_error (server w c q) with
          | Some e => Stop (Throw e)
          | None => Ok (reply_data (server w c q))
          end, t, S c)
       ∧ requests t = [q] ∧ delays t = 0%nat.
Proof.
  unfold graphqlRequest, send. exec.
  destruct (server w c q) as [reason|[] status [] data]; simpl; by eexists.
Qed.

Lemma retried_request_count (n : nat) (q : request) (w : world) (c : nat) :
  ∃ o t c',
    fetchWithRetry (graphqlRequest q) n w c = (o, t, c')
    ∧ (c < c' ≤ c + Nat.max 1 n)%nat
    ∧ requests t = replicate (c' - c) q
    ∧ delays t = (c' - c - 1)%nat
    ∧ (∀ i, (c ≤ i < c' - 1)%nat → reply_error (server w i q) ≠ None)
    ∧ match reply_error (server w (c' - 1) q) with
      | Some e => o = Stop (Throw e) ∧ c' = (c + Nat.max 1 n)%nat
      | None => o = Ok (reply_data (server w (c' - 1) q))
      end.
Proof.
  revert c. induction n as [n IH] using lt_wf_ind. intros c.
  destruct (graphqlRequest_reply q w c) as (t & Hrun & Hreq & Hdel).
  assert (S c - 1 = c)%nat as Hpred by lia.
  assert (S c - c = 1)%nat as Hone by lia.
  destruct (reply_error (server w c q)) as [e|] eqn:Herr.
  - destruct n as [|[|n]].
    1,2: rewrite fetchWithRetry_last by lia; unfold try_catch; rewrite Hrun; exec;
      exists (Stop (Throw e)), (t ++ []), (S c); rewrite app_nil_r, Hpred, Hone, Herr;
      (split; [done|]); (split; [simpl; lia|]); (split; [done|]); (split; [by rewrite Hdel|]);
      (split; [intros; lia|]); split; [done|simpl; lia].
    rewrite fetchWithRetry_more. unfold try_catch. rewrite Hrun.
    destruct (IH (S n) ltac:(lia) (S c)) as (o & t' & c' & Hrest & Hc & Hreq' & Hdel' & Hbefore & Hlast).
    exec. rewrite Hrest.
    eexists _, _, c'. split; [reflexivity|]. split; [lia|].
    split; [|split; [|split]].
    + rewrite requests_app, Hreq. simpl. rewrite Hreq'.
      replace (c' - c)%nat with (S (c' - S c)) by lia. done.
    + rewrite delays_app, Hdel. unfold delays in *. simpl. rewrite Hdel'. lia.
    + intros i Hi. destruct (decide (i = c)) as [-> |Hne]; [by rewrite Herr|].
      apply Hbefore. lia.
    + destruct (reply_error (server w (c' - 1) q)); [|done].
      destruct Hlast as [-> ->]. split; [done|]. lia.
  - assert (fetchWithRetry (graphqlRequest q) n w c
            = (Ok (reply_data (server w c q)), t, S c)) as ->.
    { destruct n as [|[|n]]; simpl; unfold try_catch; by rewrite Hrun. }
    eexists _, _, _. split; [reflexivity|]. rewrite Hpred, Hone, Herr.
    split; [lia|]. split; [done|]. split; [by rewrite Hdel|]. split; [intros; lia|done].
Qed.

(** X3.  A request under [fetchWithRetry] with budget [n] is sent between
    1 and max(1, n) times, each time the same request, with a delay between
    two sends and none after the last.  Every reply before the last made
    [graphqlRequest] throw; the last reply decides the outcome: its data
    when it is accepted, and its error, after all max(1, n) sends, when it
    is not. *)
Theorem retried_request_bounds (n : nat) (q : request) (w : world) (c : nat) :
  ∃ o t c',
    fetchWithRetry (graphqlRequest q) n w c = (o, t, c')
    ∧ (c < c' ≤ c + Nat.max 1 n)%nat
    ∧ requests t = replicate (c' - c) q
    ∧ delays t = (c' - c - 1)%nat
    ∧ (∀ i, (c ≤ i < c' - 1)%nat → reply_error (server w i q) ≠ None)
    ∧ match reply_error (server w (c' - 1) q) with
      | Some e => o = Stop (Throw e) ∧ c' = (c + Nat.max 1 n)%nat
      | None => o = Ok (reply_data (server w (c' - 1) q))
      end.
Proof. apply retried_request_count. Qed.

End RetriedRequest.

(** ** Pagination *)

Section Pagination.

Lemma answered_at_once (q : request) (w : world) (c : nat) (status : Z)
    (data : option payload) (n : nat) :
  server w c q = Reply true status false data →
  fetchWithRetry (graphqlRequest q) n w c = (Ok data, [Sent q], S c).
Proof.
  intros Hreply.
  assert (graphqlRequest q w c = (Ok data, [Sent q], S c)) as Hrun.
  { unfold graphqlRequest, send. exec. by rewrite Hreply. }
  destruct n as [|[|n]]; simpl; unfold try_catch; by rewrite Hrun.
Qed.

Lemma fetchAllIssues_from_pages (pages : list (list Issue * option string)) :
  ∀ fuel issues after w c,
    serves_issues w c after pages →
    (length pages ≤ fuel)%nat →
    fetchAllIssues_from fuel issues after w c
    = (Ok (issues ++ concat (map fst pages)),
       map (λ cursor, Sent (IssuesQuery cursor)) (after :: map snd (removelast pages)),
       (c + length pages)%nat).
Proof.
  induction pages as [|[nodes endCursor] rest IH]; intros fuel issues after w c Hserves Hfuel;
    [done|].
  destruct fuel as [|fuel]; [simpl in Hfuel; lia|].
  destruct Hserves as (status & Hreply & Hrest).
  cbn [fetchAllIssues_from]. unfold bind.
  rewrite (answered_at_once _ _ _ _ _ _ Hreply).
  destruct rest as [|page rest].
  - simpl. unfold ret. rewrite app_nil_r. do 2 f_equal. lia.
  - destruct Hrest as [?|Hrest]; [done|].
    rewrite bool_decide_eq_false_2 by done. change (negb false) with true. cbv iota.
    rewrite (IH fuel (issues ++ nodes) endCursor w (S c) Hrest) by (simpl in *; lia).
    cbn [map fst concat length removelast snd app]. rewrite <- app_assoc.
    f_equal. lia.
Qed.

(** X4.  When the server answers the issue queries with a sequence of
    pages, all but the last announcing a next page, [fetchAllIssues] returns
    the nodes of all pages in order, with one request per page: the first
    without a cursor, each later one with the end cursor of the page before
    it. *)
Theorem fetchAllIssues_concatenates_pages (pages : list (list Issue * option string))
    (fuel : nat) (w : world) (c : nat) :
  serves_issues w c None pages →
  (length pages ≤ fuel)%nat →
  fetchAllIssues fuel w c
  = (Ok (concat (map fst pages)),
     map (λ cursor, Sent (IssuesQuery cursor)) (cursors pages),
     (c + length pages)%nat).
Proof. intros Hserves Hfuel. by apply (fetchAllIssues_from_pages pages fuel []). Qed.

(** Three pages of one issue each. *)
Lemma fetchAllIssues_concatenates_pages_witness :
  fetchAllIssues 3 paged_world 0%nat
  = (Ok [labelled_issue; unlabelled_issue; bare_issue],
     [Sent (IssuesQuery None); Sent (IssuesQuery (Some "i1")); Sent (IssuesQuery (Some "i2"))],
     3%nat).
Proof.
  apply (fetchAllIssues_concatenates_pages
           [([labelled_issue], Some "i1"); ([unlabelled_issue], Some "i2"); ([bare_issue], None)]
           3 paged_world 0%nat).
  - exists 200. split; [reflexivity|right].
    exists 200. split; [reflexivity|right].
    exists 200. split; [reflexivity|by left].
  - simpl. lia.
Defined.

Lemma fetchWorkspaceLabels_from_pages (pages : list (list Label * option string)) :
  ∀ fuel labels after w c,
    serves_labels w c after pages →
    (length pages ≤ fuel)%nat →
    fetchWorkspaceLabels_from fuel labels after w c
    = (Ok (labels ++ concat (map fst pages)),
       map (λ cursor, Sent (LabelsQuery cursor)) (after :: map snd (removelast pages)),
       (c + length pages)%nat).
Proof.
  induction pages as [|[nodes endCursor] rest IH]; intros fuel labels after w c Hserves Hfuel;
    [done|].
  destruct fuel as [|fuel]; [simpl in Hfuel; lia|].
  destruct Hserves as (status & Hreply & Hrest).
  cbn [fetchWorkspaceLabels_from]. unfold bind.
  rewrite (answered_at_once _ _ _ _ _ _ Hreply).
  destruct rest as [|page rest].
  - simpl. unfold ret. rewrite app_nil_r. do 2 f_equal. lia.
  - destruct Hrest as [?|Hrest]; [done|].
    rewrite bool_decide_eq_false_2 by done. change (negb false) with true. cbv iota.
    rewrite (IH fuel (labels ++ nodes) endCursor w (S c) Hrest) by (simpl in *; lia).
    cbn [map fst concat length removelast snd app]. rewrite <- app_assoc.
    f_equal. lia.
Qed.

(** X5.  The same for the workspace labels: [fetchWorkspaceLabels]
    returns the nodes of all pages in order, with one request per page and
    each request carrying the end cursor of the page before it. *)
Theorem fetchWorkspaceLabels_concatenates_pages (pages : list (list Label * option string))
    (fuel : nat) (w : world) (c : nat) :
  serves_labels w c None pages →
  (length pages ≤ fuel)%nat →
  fetchWorkspaceLabels fuel w c
  = (Ok (concat (map fst pages)),
     map (λ cursor, Sent (LabelsQuery cursor)) (cursors pages),
     (c + length pages)%nat).
Proof. intros Hserves Hfuel. by apply (fetchWorkspaceLabels_from_pages pages fuel []). Qed.

(** Two pages of one label each. *)
Lemma fetchWorkspaceLabels_concatenates_pages_witness :
  fetchWorkspaceLabels 2 paged_world 3%nat
  = (Ok sample_labels, [Sent (LabelsQuery None); Sent (LabelsQuery (Some "l1"))], 5%nat).
Proof.
  apply (fetchWorkspaceLabels_concatenates_pages
           [([mkLabel "id-a" "[100-199]"], Some "l1"); ([mkLabel "id-b" "[50]"], None)]
           2 paged_world 3%nat).
  - exists 200. split; [reflexivity|right].
    exists 200. split; [reflexivity|by left].
  - simpl. lia.
Defined.

End Pagination.

(** ** Pagination at its edges *)

Section PaginationEdges.

(** X6.  The pagination loop has no bound of its own: against a server
    whose every issue page announces a next page, [fetchAllIssues] is still
    asking after any number of pages, one request per page, and neither
    variant's run completes or reaches its error handler. *)
Theorem pagination_has_no_page_limit (w : world) :
  (∀ c after, ∃ status nodes endCursor,
      server w c (IssuesQuery after)
      = Reply true status false (Some (IssuesPage nodes true endCursor))) →
  ∀ fuel c,
    (∃ t, fetchAllIssues fuel w c = (Stop OutOfFuel, t, (c + fuel)%nat)
          ∧ length (requests t) = fuel)
    ∧ result (Static.syncTasks fuel w c) = Stop OutOfFuel
    ∧ result (Lookup.syncTasks fuel w c) = Stop OutOfFuel.
Proof.
  intros Hserver fuel c.
  assert (∀ issues after c, ∃ t,
            fetchAllIssues_from fuel issues after w c = (Stop OutOfFuel, t, (c + fuel)%nat)
            ∧ length (requests t) = fuel) as Hloop.
  { clear c. induction fuel as [|fuel IH]; intros issues after c.
    - exists []. split; [|done]. simpl. unfold out_of_fuel. f_equal. lia.
    - destruct (Hserver c after) as (status & nodes & endCursor & Hreply).
      destruct (IH (issues ++ nodes) endCursor (S c)) as (t & Hrun & Hlen).
      exists (Sent (IssuesQuery after) :: t).
      cbn [fetchAllIssues_from]. unfold bind.
      rewrite (answered_at_once _ _ _ _ _ _ Hreply), Hrun.
      split; [simpl; f_equal; lia|]. unfold requests in *. cbn [omap list_omap request_of length].
      by rewrite Hlen. }
  destruct (Hloop [] None c) as (t & Hrun & Hlen).
  split; [by exists t|].
  split.
  - destruct (static_sync_run fuel w c) as (o & ts & c' & -> & Hcases).
    unfold fetchAllIssues in Hcases. rewrite Hrun in Hcases. by destruct Hcases as (-> & _).
  - destruct (lookup_sync_run fuel w c) as (o & ts & c' & -> & Hcases).
    unfold fetchAllIssues in Hcases. rewrite Hrun in Hcases. by destruct Hcases as (-> & _).
Qed.

(** Seven pages in, the loop is still asking. *)
Lemma pagination_has_no_page_limit_witness :
  ∃ t, fetchAllIssues 7 endless_world 0%nat = (Stop OutOfFuel, t, 7%nat)
       ∧ length (requests t) = 7%nat.
Proof.
  apply (pagination_has_no_page_limit endless_world).
  intros c after. by exists 200, [], (Some "next").
Defined.

(** X7.  A response that is accepted but carries no [data] is not
    retried: both listings throw "missing data" after that one request, and
    [updateIssue] logs the unexpected response after one request.  In a run
    the exception of the listing is caught and logged, and the run ends
    normally without another request. *)
Theorem missing_data_is_not_retried (w : world) (c : nat) (status : Z) :
  (∀ fuel issues after,
      server w c (IssuesQuery after) = Reply true status false None →
      fetchAllIssues_from (S fuel) issues after w c
      = (Stop (Throw MissingData), [Sent (IssuesQuery after)], S c))
  ∧ (∀ fuel labels after,
      server w c (LabelsQuery after) = Reply true status false None →
      fetchWorkspaceLabels_from (S fuel) labels after w c
      = (Stop (Throw MissingData), [Sent (LabelsQuery after)], S c))
  ∧ (∀ issue labelIds,
      server w c (UpdateIssueMutation (issue_id issue) labelIds) = Reply true status false None →
      updateIssue issue labelIds w c
      = (Ok tt,
         [Log (Updating issue labelIds); Sent (UpdateIssueMutation (issue_id issue) labelIds);
          Log (UpdateUnexpected issue)],
         S c))
  ∧ (∀ fuel,
      server w c (IssuesQuery None) = Reply true status false None →
      Static.syncTasks (S fuel) w c
      = (Ok tt, [Sent (IssuesQuery None); Log (SyncError MissingData)], S c)).
Proof.
  split; [|split; [|split]].
  - intros fuel issues after Hreply. cbn [fetchAllIssues_from]. unfold bind.
    by rewrite (answered_at_once _ _ _ _ _ _ Hreply).
  - intros fuel labels after Hreply. cbn [fetchWorkspaceLabels_from]. unfold bind.
    by rewrite (answered_at_once _ _ _ _ _ _ Hreply).
  - intros issue labelIds Hreply. unfold updateIssue, try_catch. exec.
    by rewrite (answered_at_once _ _ _ _ _ _ Hreply).
  - intros fuel Hreply. unfold Static.syncTasks, try_catch, fetchAllIssues.
    cbn [fetchAllIssues_from]. unfold bind.
    by rewrite (answered_at_once _ _ _ _ _ _ Hreply).
Qed.

(** A static run against a server whose responses carry no data. *)
Lemma missing_data_is_not_retried_witness :
  Static.syncTasks 1 dataless_world 0%nat
  = (Ok tt, [Sent (IssuesQuery None); Log (SyncError MissingData)], 1%nat).
Proof.
  apply (proj2 (proj2 (proj2 (missing_data_is_not_retried dataless_world 0%nat 200)))).
  reflexivity.
Defined.

End PaginationEdges.

(** ** The name-to-id map *)

Section LabelMap.

Lemma labelNameToId_snoc (labels : list Label) (label : Label) :
  labelNameToId (labels ++ [label])
  = JS.assign (labelNameToId labels) (label_name label) (label_id label).
Proof. unfold labelNameToId. by rewrite foldl_app. Qed.

(** The own properties: one per label name other than "__proto__", with the
    id of the last label of that name. *)
Lemma labelNameToId_lookup (workspaceLabels : list Label) (name : string) :
  labelNameToId workspaceLabels !! name
  = if String.eqb name "__proto__" then None
    else label_id <$> last (filter (λ label, label_name label = name) workspaceLabels).
Proof.
  induction workspaceLabels as [|label labels IH] using rev_ind.
  { by destruct (String.eqb name "__proto__"). }
  rewrite labelNameToId_snoc, filter_app. unfold JS.assign.
  destruct (decide (label_name label = name)) as [<- |Hne].
  - rewrite filter_cons_True, filter_nil, last_snoc by done.
    destruct (String.eqb (label_name label) "__proto__") eqn:Hproto; [by rewrite IH|].
    by rewrite lookup_insert_eq.
  - rewrite filter_cons_False, filter_nil, app_nil_r by done.
    destruct (String.eqb (label_name label) "__proto__"); [done|].
    by rewrite lookup_insert_ne.
Qed.

(** X8.  Reading the name-to-id object under a name gives the id of the
    last workspace label with that name: a later label overwrites an earlier
    one of the same name.  The exceptions are the names that every object
    inherits a property under: under "__proto__" nothing is ever stored and
    the read gives the prototype, and under the others the read gives the
    inherited value when no label has the name.  Under any other name that
    no label has, the read gives [undefined]. *)
Theorem labelNameToId_last_wins (workspaceLabels : list Label) (name : string) :
  JS.get (labelNameToId workspaceLabels) name
  = match last (filter (λ label, label_name label = name) workspaceLabels) with
    | Some label =>
        if String.eqb name "__proto__" then JS.Inherited name else JS.Own (label_id label)
    | None =>
        if bool_decide (name ∈ JS.prototype_keys) then JS.Inherited name else JS.Undefined
    end.
Proof.
  unfold JS.get. rewrite labelNameToId_lookup.
  destruct (String.eqb name "__proto__") eqn:Hproto.
  - apply String.eqb_eq in Hproto as ->.
    by destruct (last _).
  - by destruct (last _).
Qed.

End LabelMap.

(** ** The submitted label ids *)

Section Submitted.

Lemma foldl_Set_add_NoDup (l s : list LabelId) :
  NoDup (s ++ l) → foldl Set_add s l = s ++ l.
Proof.
  revert s. induction l as [|x l IH]; intros s Hnodup; simpl; [by rewrite app_nil_r|].
  assert (Set_add s x = s ++ [x]) as ->.
  { unfold Set_add. destruct (Set_has s x) eqn:Hhas; [|done].
    apply Set_has_spec in Hhas. apply NoDup_app in Hnodup as (_ & Hdisjoint & _).
    destruct (Hdisjoint x Hhas). by left. }
  rewrite IH; rewrite <- app_assoc; done.
Qed.

Lemma Set_add_prefix (s : list LabelId) (x : LabelId) :
  s `prefix_of` Set_add s x ∧ (length (Set_add s x) ≤ S (length s))%nat.
Proof.
  unfold Set_add. destruct (Set_has s x).
  - split; [done|lia].
  - split; [by apply prefix_app_r|]. rewrite length_app. simpl. lia.
Qed.

Lemma target_ids_prefix (m : gmap string string) (names : list (option string)) (existing : list LabelId) :
  existing `prefix_of` target_ids m names existing
  ∧ (length (target_ids m names existing) ≤ length existing + length names)%nat.
Proof.
  unfold target_ids. revert existing.
  induction names as [|name names IH]; intros existing; simpl; [split; [done|lia]|].
  destruct (IH (from_option (Set_add existing) existing (usable_id m name))) as [Hpre Hlen].
  destruct (usable_id m name) as [id|]; simpl in *.
  - destruct (Set_add_prefix existing id) as [Hpre' Hlen'].
    split; [by etrans|lia].
  - split; [done|lia].
Qed.

Lemma target_ids_settled (m : gmap string string) (names : list (option string)) (existing : list LabelId) :
  (∀ name id, name ∈ names → usable_id m name = Some id → id ∈ existing) →
  target_ids m names existing = existing.
Proof.
  unfold target_ids. induction names as [|name names IH]; intros Hin; simpl; [done|].
  destruct (usable_id m name) as [id|] eqn:Hid; simpl.
  - assert (Set_add existing id = existing) as ->.
    { unfold Set_add. assert (id ∈ existing) as ->%Set_has_spec; [|done].
      apply (Hin name); [by left|done]. }
    apply IH. intros n i Hn. apply Hin. by right.
  - apply IH. intros n i Hn. apply Hin. by right.
Qed.

Lemma required_length (issue : Issue) (names : list (option string)) :
  static_required issue = Some names → length names = 2%nat.
Proof.
  unfold static_required. intros H. repeat case_match; by simplify_eq.
Qed.

Lemma lookup_required_length (mapping : gmap string ProjectLabelMapping)
    (issue : Issue) (names : list (option string)) :
  lookup_required mapping issue = Some names → length names = 2%nat.
Proof.
  unfold lookup_required. intros H. repeat case_match; by simplify_eq.
Qed.

Lemma started_one (m : gmap string string) (required : Issue → option (list (option string)))
    (issue : Issue) (t : list event) (i : Issue) (ids : list LabelId) :
  applied m required [issue] t →
  (i, ids) ∈ started_updates t →
  i = issue ∧ ids = target m (required issue) issue.
Proof.
  intros [(Hstarted & _) _]. rewrite Hstarted, submissions_one.
  destruct (changed _ _ _); [|by intros ?%elem_of_nil].
  by intros [= -> ->]%list_elem_of_singleton.
Qed.

Lemma target_shape (m : gmap string string) (required : option (list (option string)))
    (issue : Issue) :
  (∀ names, required = Some names → length names = 2%nat) →
  existing_ids issue `prefix_of` target m required issue
  ∧ (length (target m required issue) ≤ length (existing_ids issue) + 2)%nat
  ∧ NoDup (target m required issue).
Proof.
  intros Hlen. unfold target.
  destruct (target_ids_prefix m (default [] required) (existing_ids issue)) as [Hpre Hle].
  split; [done|]. split.
  - destruct required as [names|]; simpl in *; [rewrite (Hlen names eq_refl) in Hle|]; lia.
  - apply NoDup_target_ids, NoDup_new_Set.
Qed.

(** X9.  The label ids of an update that is started, in either variant,
    begin with the issue's existing ids in their order of first occurrence,
    followed by one or two new ids; no id occurs twice, and the update is
    for the issue at hand. *)
Theorem submitted_ids_extend_in_order (m : gmap string string) (issue : Issue)
    (w : world) (c : nat) (i : Issue) (ids : list LabelId) :
  (i, ids) ∈ started_updates (events (Static.apply m issue w c))
  ∨ (∃ mapping, (i, ids) ∈ started_updates (events (Lookup.apply (Some mapping) m issue w c))) →
  i = issue
  ∧ existing_ids issue `prefix_of` ids
  ∧ (length (existing_ids issue) < length ids ≤ length (existing_ids issue) + 2)%nat
  ∧ NoDup ids.
Proof.
  assert (∀ required t,
            (∀ names, required issue = Some names → length names = 2%nat) →
            applied m required [issue] t → (i, ids) ∈ started_updates t →
            i = issue
            ∧ existing_ids issue `prefix_of` ids
            ∧ (length (existing_ids issue) < length ids ≤ length (existing_ids issue) + 2)%nat
            ∧ NoDup ids) as Hgen.
  { intros required t Hlen Happlied Hin.
    pose proof Happlied as [(Hstarted & _) _].
    destruct (started_one _ _ _ _ _ _ Happlied Hin) as [-> ->].
    destruct (target_shape m (required issue) issue Hlen) as (Hpre & Hle & Hnodup).
    repeat split; try done.
    rewrite Hstarted, submissions_one in Hin. unfold changed in Hin.
    destruct (Nat.eqb_spec (length (target m (required issue) issue))
                (length (existing_ids issue))) as [Heq|Hne]; simpl in Hin;
      [by apply elem_of_nil in Hin|].
    apply prefix_length in Hpre. lia. }
  intros [Hin|[mapping Hin]].
  - destruct (static_apply_run m issue w c) as (t & c' & Hrun & Happlied).
    rewrite Hrun in Hin. eapply Hgen; [|done..]. apply required_length.
  - destruct (lookup_apply_run mapping m issue w c) as (t & c' & Hrun & Happlied).
    rewrite Hrun in Hin. eapply Hgen; [|done..]. apply lookup_required_length.
Qed.

(** The issue that lacks the area label: "id-b" is added after "id-a". *)
Lemma submitted_ids_extend_in_order_witness :
  unlabelled_issue = unlabelled_issue
  ∧ existing_ids unlabelled_issue `prefix_of` [Id "id-a"; Id "id-b"]
  ∧ (length (existing_ids unlabelled_issue) < 2 ≤ length (existing_ids unlabelled_issue) + 2)%nat
  ∧ NoDup [Id "id-a"; Id "id-b"].
Proof.
  apply (submitted_ids_extend_in_order (labelNameToId sample_labels) unlabelled_issue
           refusing_world 0%nat unlabelled_issue [Id "id-a"; Id "id-b"]).
  left. apply list_elem_of_In. vm_compute. by left.
Defined.

Lemma settled_target (m : gmap string string) (required : Issue → option (list (option string)))
    (issue issue' : Issue) :
  required issue' = required issue →
  map (λ label, Id (label_id label)) (issue_labels issue') = target m (required issue) issue →
  target m (required issue') issue' = existing_ids issue'.
Proof.
  intros Hreq Hids. unfold target at 1. rewrite Hreq.
  apply target_ids_settled. intros name id Hname Hid.
  unfold existing_ids. rewrite elem_of_new_Set, Hids. unfold target.
  apply elem_of_target_ids. right. destruct (required issue) as [names|]; [|by apply elem_of_nil in Hname].
  by exists name.
Qed.

Lemma unchanged_sends_nothing (m : gmap string string)
    (required : Issue → option (list (option string))) (issue : Issue) (t : list event) :
  applied m required [issue] t →
  target m (required issue) issue = existing_ids issue →
  mutations t = [] ∧ started_updates t = [].
Proof.
  intros Happlied Htarget.
  pose proof Happlied as [(Hstarted & _) _].
  rewrite Hstarted, submissions_one in *. unfold changed. rewrite Htarget, Nat.eqb_refl. simpl.
  split; [|done].
  destruct (mutations t) as [|x l] eqn:Hm; [done|].
  pose proof (proj1 (submitted_iff_size_differs m required issue t Happlied)) as Hne.
  rewrite Hm, Htarget in Hne. by destruct Hne.
Qed.

(** X10.  Applying to an issue that already carries the target ids sends
    nothing: when the labels of [issue'] have exactly the ids that the
    target of [issue] lists (so that the target holds label ids only), and
    the project is the same, the apply step for [issue'] starts no update
    and sends no request, whatever the names of those labels are. *)
Theorem second_pass_sends_nothing (m : gmap string string) (issue issue' : Issue)
    (w : world) (c : nat) :
  issue_project issue' = issue_project issue →
  (map (λ label, Id (label_id label)) (issue_labels issue')
   = target m (static_required issue) issue →
   mutations (events (Static.apply m issue' w c)) = []
   ∧ started_updates (events (Static.apply m issue' w c)) = [])
  ∧ (∀ mapping,
       map (λ label, Id (label_id label)) (issue_labels issue')
       = target m (lookup_required mapping issue) issue →
       mutations (events (Lookup.apply (Some mapping) m issue' w c)) = []
       ∧ started_updates (events (Lookup.apply (Some mapping) m issue' w c)) = []).
Proof.
  intros Hproject. split; [intros Hids|intros mapping Hids].
  - destruct (static_apply_run m issue' w c) as (t & c' & -> & Happlied).
    apply (unchanged_sends_nothing m static_required issue'); [done|].
    apply (settled_target m static_required issue); [|done].
    unfold static_required. by rewrite Hproject.
  - destruct (lookup_apply_run mapping m issue' w c) as (t & c' & -> & Happlied).
    apply (unchanged_sends_nothing m (lookup_required mapping) issue'); [done|].
    apply (settled_target m (lookup_required mapping) issue); [|done].
    unfold lookup_required. by rewrite Hproject.
Qed.

(** The bare issue, once it carries both ids: nothing is sent, although one
    of its labels has another name. *)
Lemma second_pass_sends_nothing_witness :
  mutations (events (Static.apply (labelNameToId sample_labels) updated_issue refusing_world 0%nat))
  = []
  ∧ mutations (events (Lookup.apply (Some sample_mapping) (labelNameToId sample_labels)
                         updated_issue refusing_world 0%nat)) = [].
Proof.
  destruct (second_pass_sends_nothing (labelNameToId sample_labels) bare_issue updated_issue
              refusing_world 0%nat) as [Hstatic Hlookup]; [reflexivity|].
  split.
  - apply Hstatic. vm_compute. reflexivity.
  - apply (Hlookup sample_mapping). vm_compute. reflexivity.
Defined.

Lemma usable_id_falsy (m : gmap string string) (name : option string) :
  usable_id m name = None
  ↔ JS.get m (JS.to_key name) = JS.Undefined ∨ JS.get m (JS.to_key name) = JS.Own "".
Proof.
  unfold usable_id. destruct (JS.get m (JS.to_key name)) as [id|key|].
  - destruct id; simpl; (split; [|by intros [?|?]]); [by right|done].
  - split; [done|by intros [?|?]].
  - split; [by left|done].
Qed.

(** X11.  When reading the name-to-id object gives [undefined] or the empty
    id for every required label name, the apply step sends no request and
    warns about every one of the names. *)
Theorem unusable_labels_send_nothing (m : gmap string string) (issue : Issue)
    (names : list (option string)) (w : world) (c : nat) :
  (∀ name, name ∈ names →
     JS.get m (JS.to_key name) = JS.Undefined ∨ JS.get m (JS.to_key name) = JS.Own "") →
  (static_required issue = Some names →
   mutations (events (Static.apply m issue w c)) = []
   ∧ ∀ name, name ∈ names →
             Log (LabelNotFound (JS.to_key name)) ∈ events (Static.apply m issue w c))
  ∧ (∀ mapping,
       lookup_required mapping issue = Some names →
       mutations (events (Lookup.apply (Some mapping) m issue w c)) = []
       ∧ ∀ name, name ∈ names →
                 Log (LabelNotFound (JS.to_key name))
                 ∈ events (Lookup.apply (Some mapping) m issue w c)).
Proof.
  intros Hnone.
  assert (∀ required t, required issue = Some names → applied m required [issue] t →
            mutations t = []
            ∧ ∀ name, name ∈ names → Log (LabelNotFound (JS.to_key name)) ∈ t) as Hgen.
  { intros required t Hreq Happlied. split.
    - apply (unchanged_sends_nothing m required issue t Happlied).
      unfold target. rewrite Hreq. apply target_ids_settled.
      intros name id Hname Hid.
      apply Hnone, usable_id_falsy in Hname. congruence.
    - intros name Hname. destruct Happlied as [_ Hwarned].
      apply (Hwarned issue names name); [by left|done..|].
      by apply usable_id_falsy, Hnone. }
  split; [intros Hreq|intros mapping Hreq].
  - destruct (static_apply_run m issue w c) as (t & c' & -> & Happlied). by eapply Hgen.
  - destruct (lookup_apply_run mapping m issue w c) as (t & c' & -> & Happlied). by eapply Hgen.
Qed.

(** A workspace where the area label has the empty id and the system label
    does not exist: neither variant sends anything for the bare issue. *)
Lemma unusable_labels_send_nothing_witness :
  mutations (events (Static.apply (labelNameToId [mkLabel "" "[50]"]) bare_issue
                       refusing_world 0%nat)) = []
  ∧ mutations (events (Lookup.apply (Some sample_mapping) (labelNameToId [mkLabel "" "[50]"])
                         bare_issue refusing_world 0%nat)) = [].
Proof.
  destruct (unusable_labels_send_nothing (labelNameToId [mkLabel "" "[50]"]) bare_issue
              [Some "[100-199]"; Some "[50]"] refusing_world 0%nat) as [Hstatic Hlookup].
  - intros name Hin. apply list_elem_of_In in Hin.
    destruct Hin as [<-|[<-|[]]]; [left|right]; vm_compute; reflexivity.
  - split.
    + apply Hstatic. vm_compute. reflexivity.
    + apply (Hlookup sample_mapping). vm_compute. reflexivity.
Defined.

End Submitted.

(** ** One update *)

Section OneUpdate.

Lemma mutations_requests (t : list event) :
  mutations t
  = omap (λ r, match r with
               | UpdateIssueMutation issueId labelIds => Some (issueId, labelIds)
               | _ => None
               end) (requests t).
Proof.
  unfold mutations, requests. induction t as [|e t IH]; [done|].
  destruct e as [[]| | |]; simpl in *; by f_equal.
Qed.

Lemma mutations_replicate (k : nat) (issueId : string) (labelIds : list LabelId) (t : list event) :
  requests t = replicate k (UpdateIssueMutation issueId labelIds) →
  mutations t = replicate k (issueId, labelIds).
Proof.
  intros H. rewrite mutations_requests, H. clear H.
  induction k as [|k IH]; [done|]. simpl in *. by f_equal.
Qed.

Lemma in_phase_app (k : nat) (t1 t2 : list event) :
  in_phase k t1 → in_phase k t2 → in_phase k (t1 ++ t2).
Proof. intros H1 H2. by apply Forall_app. Qed.

Lemma in_phase_logs (k : nat) (t : list event) : Forall is_log t → in_phase k t.
Proof. intros H. eapply Forall_impl; [done|]. intros [] He; try done. by left. Qed.

Lemma transport_in_phase (q : request) (t : list event) :
  Forall (transport q) t → in_phase (default 0%nat (phase_of (Sent q))) t.
Proof.
  intros H. eapply Forall_impl; [done|]. intros [r|ms| |[]] He; simpl in *; try done;
    try by left.
  subst r. right. by destruct q.
Qed.

(** A call of [updateIssue], from the retried request inside it. *)
Lemma updateIssue_trace (issue : Issue) (labelIds : list LabelId) (w : world) (c : nat) :
  ∃ o tr c' last,
    fetchWithRetry (graphqlRequest (UpdateIssueMutation (issue_id issue) labelIds))
      RETRY_ATTEMPTS w c = (o, tr, c')
    ∧ updateIssue issue labelIds w c
      = (Ok tt, Log (Updating issue labelIds) :: tr ++ [Log last], c')
    ∧ start_of (Log last) = None.
Proof.
  destruct (retry_request_run RETRY_ATTEMPTS (UpdateIssueMutation (issue_id issue) labelIds) w c)
    as (o & t & c' & Hrun & _ & Ho).
  unfold updateIssue, try_catch. exec. rewrite Hrun.
  destruct o as [[[| |[[[] labels]|]]|]|[e| |]]; try done; simpl;
    eexists _, _, _, _; (split; [reflexivity|]); rewrite ?app_nil_r; by split.
Qed.

Lemma updateIssue_requests (issue : Issue) (labelIds : list LabelId)
    (w : world) (c : nat) :
  ∃ k t,
    updateIssue issue labelIds w c = (Ok tt, t, (c + k)%nat)
    ∧ (1 ≤ k ≤ RETRY_ATTEMPTS)%nat
    ∧ requests t = replicate k (UpdateIssueMutation (issue_id issue) labelIds)
    ∧ delays t = (k - 1)%nat
    ∧ started_updates t = [(issue, labelIds)]
    ∧ in_phase 3 t.
Proof.
  destruct (updateIssue_trace issue labelIds w c) as (o & tr & c' & last & Hretry & Hrun & Hlast).
  destruct (retried_request_count RETRY_ATTEMPTS
              (UpdateIssueMutation (issue_id issue) labelIds) w c)
    as (o' & tr' & c'' & Hretry' & Hc & Hreq & Hdel & _).
  rewrite Hretry in Hretry'. injection Hretry' as <- <- <-.
  destruct (retry_request_run RETRY_ATTEMPTS (UpdateIssueMutation (issue_id issue) labelIds) w c)
    as (o'' & t'' & c'' & Hretry'' & Ht'' & _).
  rewrite Hretry in Hretry''. injection Hretry'' as <- -> <-.
  destruct (transport_quiet _ _ Ht'') as (Hstarted & _).
  exists (c' - c)%nat, (Log (Updating issue labelIds) :: (Sent (UpdateIssueMutation (issue_id issue) labelIds) :: t'') ++ [Log last]).
  replace (c + (c' - c))%nat with c' by lia.
  split; [done|].
  split.
  { change (Nat.max 1 RETRY_ATTEMPTS) with RETRY_ATTEMPTS in Hc. lia. }
  split; [|split; [|split]].
  - change (Log (Updating issue labelIds) :: ?l) with ([Log (Updating issue labelIds)] ++ l).
    rewrite !requests_app, Hreq. simpl. by rewrite app_nil_r.
  - change (Log (Updating issue labelIds) :: ?l) with ([Log (Updating issue labelIds)] ++ l).
    rewrite !delays_app, Hdel. change (delays [Log (Updating issue labelIds)]) with 0%nat.
    change (delays [Log last]) with 0%nat. lia.
  - unfold started_updates in *. simpl. rewrite omap_app, Hstarted.
    by destruct last.
  - constructor; [by left|]. apply in_phase_app; [|by repeat constructor; left].
    constructor; [by right|].
    apply (transport_in_phase (UpdateIssueMutation (issue_id issue) labelIds)), Ht''.
Qed.

(** X12.  [updateIssue] always returns normally, whatever the server
    answers: it sends its one mutation between 1 and [RETRY_ATTEMPTS] times,
    with a delay between two sends, and logs the start of the update
    once. *)
Theorem updateIssue_sends_one_to_three (issue : Issue) (labelIds : list LabelId)
    (w : world) (c : nat) :
  ∃ k t,
    updateIssue issue labelIds w c = (Ok tt, t, (c + k)%nat)
    ∧ (1 ≤ k ≤ RETRY_ATTEMPTS)%nat
    ∧ requests t = replicate k (UpdateIssueMutation (issue_id issue) labelIds)
    ∧ delays t = (k - 1)%nat
    ∧ started_updates t = [(issue, labelIds)].
Proof.
  destruct (updateIssue_requests issue labelIds w c)
    as (k & t & Hrun & Hk & Hreq & Hdel & Hstarted & _).
  by exists k, t.
Qed.

End OneUpdate.

(** ** The shape of a run *)

Section Shapes.

Lemma phases_app (t1 t2 : list event) : phases (t1 ++ t2) = phases t1 ++ phases t2.
Proof. apply omap_app. Qed.

Lemma in_phase_replicate (k : nat) (t : list event) :
  in_phase k t → phases t = replicate (length (phases t)) k.
Proof.
  unfold phases. induction 1 as [|e t He _ IH]; [done|].
  simpl. destruct He as [-> | ->]; [done|]. simpl. by f_equal.
Qed.

Lemma plain_logs_silent (t : list event) : Forall plain_log t → Forall silent t.
Proof. intros H. eapply Forall_impl; [done|]. by intros e [_ ?]. Qed.

Lemma plain_logs_in_phase (k : nat) (t : list event) : Forall plain_log t → in_phase k t.
Proof. intros H. apply in_phase_logs. eapply Forall_impl; [done|]. by intros e [? _]. Qed.

Lemma within_budget_app (t1 t2 : list event) :
  within_budget t1 → within_budget t2 → within_budget (t1 ++ t2).
Proof.
  unfold within_budget, started_updates, mutations. rewrite !omap_app, !length_app. lia.
Qed.

Lemma within_budget_silent (t : list event) : Forall silent t → within_budget t.
Proof.
  intros H. unfold within_budget. rewrite silent_started, silent_mutations by done. simpl. lia.
Qed.

(** The events of the two listings. *)
Lemma fetchAllIssues_transport (fuel : nat) (issues : list Issue) (after : option string)
    (w : world) (c : nat) :
  ∃ o t c',
    fetchAllIssues_from fuel issues after w c = (o, t, c')
    ∧ Forall (λ e, ∃ cursor, transport (IssuesQuery cursor) e) t
    ∧ ∀ code, o ≠ Stop (Exit code).
Proof.
  revert issues after c. induction fuel as [|fuel IH]; intros issues after c.
  - by exists (Stop OutOfFuel), [], c.
  - cbn [fetchAllIssues_from]. exec.
    destruct (retry_request_run RETRY_ATTEMPTS (IssuesQuery after) w c)
      as (o & t & c' & -> & Ht & Ho).
    assert (Forall (λ e, ∃ cursor, transport (IssuesQuery cursor) e)
              (Sent (IssuesQuery after) :: t)) as Hall.
    { constructor; [by exists after|]. eapply Forall_impl; [done|]. intros e He. by exists after. }
    destruct o as [[[nodes [] endCursor'| |]|]|[e| |]]; try done;
      try (eexists _, _, _; split; [reflexivity|]; rewrite ?app_nil_r; by split).
    destruct (IH (issues ++ nodes) endCursor' c') as (o' & t' & c'' & -> & Ht' & Ho').
    eexists _, _, _; split; [reflexivity|]. split; [|done]. by apply Forall_app.
Qed.

Lemma fetchWorkspaceLabels_transport (fuel : nat) (labels : list Label)
    (after : option string) (w : world) (c : nat) :
  ∃ o t c',
    fetchWorkspaceLabels_from fuel labels after w c = (o, t, c')
    ∧ Forall (λ e, ∃ cursor, transport (LabelsQuery cursor) e) t
    ∧ ∀ code, o ≠ Stop (Exit code).
Proof.
  revert labels after c. induction fuel as [|fuel IH]; intros labels after c.
  - by exists (Stop OutOfFuel), [], c.
  - cbn [fetchWorkspaceLabels_from]. exec.
    destruct (retry_request_run RETRY_ATTEMPTS (LabelsQuery after) w c)
      as (o & t & c' & -> & Ht & Ho).
    assert (Forall (λ e, ∃ cursor, transport (LabelsQuery cursor) e)
              (Sent (LabelsQuery after) :: t)) as Hall.
    { constructor; [by exists after|]. eapply Forall_impl; [done|]. intros e He. by exists after. }
    destruct o as [[[|nodes [] endCursor'|]|]|[e| |]]; try done;
      try (eexists _, _, _; split; [reflexivity|]; rewrite ?app_nil_r; by split).
    destruct (IH (labels ++ nodes) endCursor' c') as (o' & t' & c'' & -> & Ht' & Ho').
    eexists _, _, _; split; [reflexivity|]. split; [|done]. by apply Forall_app.
Qed.

Lemma listing_events (k : nat) (q : option string → request) (t : list event) :
  (∀ cursor, is_query (q cursor) ∧ phase_of (Sent (q cursor)) = Some k) →
  Forall (λ e, ∃ cursor, transport (q cursor) e) t →
  Forall silent t ∧ in_phase k t.
Proof.
  intros Hq H. split; (eapply Forall_impl; [done|]); intros e [cursor He]; simpl in He.
  - destruct (Hq cursor) as [Hquery _].
    by apply (Forall_inv (transport_silent (q cursor) [e] Hquery (Forall_cons_2 _ _ _ He (Forall_nil_2 _)))).
  - destruct (Hq cursor) as [_ Hphase].
    pose proof (Forall_inv (transport_in_phase (q cursor) [e] (Forall_cons_2 _ _ _ He (Forall_nil_2 _)))) as H'.
    by rewrite Hphase in H'.
Qed.

(** The planner only logs. *)
Lemma static_select_logs (issue : Issue) (w : world) (c : nat) :
  ∃ t, Static.select issue w c
       = (Ok (missing_required (static_required issue) issue), t, c)
       ∧ Forall plain_log t.
Proof.
  unfold Static.select.
  destruct (issue_project issue) as [project|] eqn:Hproject.
  - destruct (JS.truthy (project_identifier project)) eqn:Hid;
      [change (negb true) with false|change (negb false) with true]; cbv iota.
    + destruct (static_required_resolved _ _ Hproject Hid) as (s & a & -> & -> & ->).
      unfold missing_required, existing_names. simpl existsb. rewrite orb_false_r.
      exec. destruct (_ || _); eexists; (split; [reflexivity|]); by repeat constructor.
    + unfold static_required. rewrite Hproject, Hid.
      eexists; (split; [reflexivity|]); by repeat constructor.
  - unfold static_required. rewrite Hproject.
    eexists; (split; [reflexivity|]); by repeat constructor.
Qed.

Lemma lookup_select_logs (mapping : gmap string ProjectLabelMapping)
    (issue : Issue) (w : world) (c : nat) :
  ∃ t, Lookup.select (Some mapping) issue w c
       = (Ok (missing_required (lookup_required mapping issue) issue), t, c)
       ∧ Forall plain_log t.
Proof.
  unfold Lookup.select, lookup_required.
  destruct (issue_project issue) as [project|].
  - unfold Lookup.index. exec.
    destruct (JS.get mapping (project_name project)) as [entry|key|].
    1,2: unfold missing_required, existing_names;
      destruct (existsb _ _); eexists; (split; [reflexivity|]); by repeat constructor.
    eexists; (split; [reflexivity|]); by repeat constructor.
  - eexists; (split; [reflexivity|]); by repeat constructor.
Qed.

Lemma filterM_logs {A} (p : A → M bool) (f : A → bool) :
  (∀ x w c, ∃ t, p x w c = (Ok (f x), t, c) ∧ Forall plain_log t) →
  ∀ l w c, ∃ t, filterM p l w c = (Ok (List.filter f l), t, c) ∧ Forall plain_log t.
Proof.
  intros Hp l w c. induction l as [|x l (t & IH & Ht)]; simpl.
  - by exists [].
  - destruct (Hp x w c) as (tx & Hx & Htx).
    unfold bind. rewrite Hx, IH. unfold ret.
    eexists. split; [by destruct (f x)|].
    rewrite app_nil_r. by apply Forall_app.
Qed.

Lemma add_if_found_logs (m : gmap string string) (name : option string) (ids : list LabelId)
    (w : world) (c : nat) :
  ∃ t, add_if_found (JS.to_key name) (JS.get m (JS.to_key name)) ids w c
       = (Ok (from_option (Set_add ids) ids (usable_id m name)), t, c)
       ∧ Forall plain_log t.
Proof.
  unfold add_if_found, usable_id.
  destruct (JS.get m (JS.to_key name)) as [id|key|]; [destruct (JS.truthy id)| |]; exec;
    eexists; (split; [reflexivity|]); by repeat constructor.
Qed.

Lemma updateIssue_updating (issue : Issue) (labelIds : list LabelId) (w : world) (c : nat) :
  ∃ t c', updateIssue issue labelIds w c = (Ok tt, t, c')
          ∧ in_phase 3 t ∧ within_budget t.
Proof.
  destruct (updateIssue_requests issue labelIds w c)
    as (k & t & Hrun & Hk & Hreq & _ & Hstarted & Hphase).
  exists t, (c + k)%nat. split; [done|]. split; [done|].
  unfold within_budget. rewrite Hstarted, (mutations_replicate k _ _ _ Hreq), length_replicate.
  unfold RETRY_ATTEMPTS in *. simpl. lia.
Qed.

Lemma add_two_updating (m : gmap string string) (issue : Issue)
    (first second : option string) (w : world) (c : nat) :
  ∃ t c',
    (let* newLabelIds :=
       add_if_found (JS.to_key first) (JS.get m (JS.to_key first)) (existing_ids issue) in
     let* newLabelIds :=
       add_if_found (JS.to_key second) (JS.get m (JS.to_key second)) newLabelIds in
     if negb (length newLabelIds =? length (existing_ids issue))%nat
     then updateIssue issue newLabelIds
     else log (NoChanges issue)) w c = (Ok tt, t, c')
    ∧ in_phase 3 t ∧ within_budget t.
Proof.
  exec.
  destruct (add_if_found_logs m first (existing_ids issue) w c) as (t1 & -> & Ht1).
  destruct (add_if_found_logs m second
              (from_option (Set_add (existing_ids issue)) (existing_ids issue)
                 (usable_id m first)) w c) as (t2 & -> & Ht2).
  assert (∃ t c', (if negb (length (from_option
                       (Set_add (from_option (Set_add (existing_ids issue)) (existing_ids issue)
                                   (usable_id m first)))
                       (from_option (Set_add (existing_ids issue)) (existing_ids issue)
                          (usable_id m first)) (usable_id m second))
                     =? length (existing_ids issue))%nat
                   then updateIssue issue _
                   else λ _ n, (Ok tt, [Log (NoChanges issue)], n)) w c = (Ok tt, t, c')
                  ∧ in_phase 3 t ∧ within_budget t) as (t & c' & -> & Ht & Hb).
  { destruct (negb _).
    - apply updateIssue_updating.
    - eexists _, _. split; [reflexivity|]. split; [by repeat constructor; left|].
      apply within_budget_silent. by repeat constructor. }
  eexists _, _. split; [reflexivity|]. split.
  - repeat apply in_phase_app; try done; by apply plain_logs_in_phase.
  - repeat apply within_budget_app; try done; by apply within_budget_silent, plain_logs_silent.
Qed.

Lemma static_apply_updating (m : gmap string string) (issue : Issue) (w : world) (c : nat) :
  ∃ t c', Static.apply m issue w c = (Ok tt, t, c') ∧ in_phase 3 t ∧ within_budget t.
Proof.
  unfold Static.apply.
  destruct (issue_project issue) as [project|] eqn:Hproject.
  - destruct (JS.truthy (project_identifier project)) eqn:Hid;
      [change (negb true) with false|change (negb false) with true]; cbv iota.
    + destruct (static_required_resolved _ _ Hproject Hid) as (s & a & Hs & Ha & Hreq).
      destruct (add_two_updating m issue (Some s) (Some a) w c) as (t & c' & Hrun & Ht).
      exists t, c'. split; [|done]. rewrite <- Hrun, Hs, Ha. cbn [lift].
      by rewrite !bind_ret.
    + exists [], c. split; [done|]. split; [constructor|by apply within_budget_silent].
  - exists [], c. split; [done|]. split; [constructor|by apply within_budget_silent].
Qed.

Lemma lookup_apply_updating (mapping : gmap string ProjectLabelMapping)
    (m : gmap string string) (issue : Issue) (w : world) (c : nat) :
  ∃ t c', Lookup.apply (Some mapping) m issue w c = (Ok tt, t, c')
          ∧ in_phase 3 t ∧ within_budget t.
Proof.
  unfold Lookup.apply, Lookup.index.
  destruct (issue_project issue) as [project|] eqn:Hproject.
  - destruct (JS.get mapping (project_name project)) as [entry|key|] eqn:Hmapping.
    1,2: match type of Hmapping with
         | _ = ?pm =>
             destruct (add_two_updating m issue (Lookup.member pm CoreSystems)
                         (Lookup.member pm CoreAreas) w c) as (t & c' & Hrun & Ht)
         end;
      exists t, c'; (split; [|done]); rewrite <- Hrun, bind_ret;
      cbn [foldM LABEL_GROUPS]; unfold bind, ret, existing_ids;
      (destruct (add_if_found _ _ _ w c) as [[[ids1|s1] t1] c1]; [|done]);
      (destruct (add_if_found _ _ _ w c1) as [[[ids2|s2] t2] c2]; [|done]);
      (destruct (negb _); [destruct (updateIssue issue ids2 w c2) as [[o3 t3] c3]|cbv [log emit]]);
      by rewrite ?app_nil_r, ?app_assoc.
    exists [], c. split; [by rewrite bind_ret|].
    split; [constructor|by apply within_budget_silent].
  - exists [], c. split; [done|]. split; [constructor|by apply within_budget_silent].
Qed.

Lemma forM_updating (body : Issue → M unit) :
  (∀ issue w c, ∃ t c', body issue w c = (Ok tt, t, c') ∧ in_phase 3 t ∧ within_budget t) →
  ∀ plan w c, ∃ t c', forM_ plan body w c = (Ok tt, t, c') ∧ in_phase 3 t ∧ within_budget t.
Proof.
  intros Hbody plan w. induction plan as [|issue plan IH]; intros c.
  - exists [], c. split; [done|]. split; [constructor|by apply within_budget_silent].
  - destruct (Hbody issue w c) as (t1 & c1 & Hrun1 & Hp1 & Hb1).
    destruct (IH c1) as (t2 & c2 & Hrun2 & Hp2 & Hb2).
    simpl forM_. exec. rewrite Hrun1, Hrun2.
    eexists _, _. split; [reflexivity|].
    split; [by apply in_phase_app|by apply within_budget_app].
Qed.

Lemma listing_issues (fuel : nat) (w : world) (c : nat) :
  ∃ o t c', fetchAllIssues fuel w c = (o, t, c')
            ∧ Forall silent t ∧ in_phase 0 t ∧ ∀ code, o ≠ Stop (Exit code).
Proof.
  destruct (fetchAllIssues_transport fuel [] None w c) as (o & t & c' & Hrun & Ht & Ho).
  exists o, t, c'. split; [done|].
  destruct (listing_events 0 IssuesQuery t) as [? ?]; [done..|by repeat split].
Qed.

Lemma listing_labels (fuel : nat) (w : world) (c : nat) :
  ∃ o t c', fetchWorkspaceLabels fuel w c = (o, t, c')
            ∧ Forall silent t ∧ in_phase 1 t ∧ ∀ code, o ≠ Stop (Exit code).
Proof.
  destruct (fetchWorkspaceLabels_transport fuel [] None w c) as (o & t & c' & Hrun & Ht & Ho).
  exists o, t, c'. split; [done|].
  destruct (listing_events 1 LabelsQuery t) as [? ?]; [done..|by repeat split].
Qed.

Lemma lookup_select_keyless (issues : list Issue) (w : world) (c : nat) :
  ∃ t, filterM (Lookup.select None) issues w c
       = (if forallb no_project issues then Ok [] else Stop (Throw TypeError), t, c)
       ∧ Forall plain_log t.
Proof.
  induction issues as [|issue issues (t & IH & Ht)].
  - by exists [].
  - cbn [filterM forallb]. set (rest := filterM (Lookup.select None) issues) in *.
    unfold Lookup.select, Lookup.index, no_project at 1.
    destruct (issue_project issue) as [project|]; exec.
    + by exists [].
    + rewrite IH. simpl andb.
      destruct (forallb no_project issues); eexists; (split; [reflexivity|]);
        cbn [app]; rewrite ?app_nil_r; by repeat constructor.
Qed.

(** The events of a run of the static variant, phase by phase. *)
Lemma static_sync_trace (fuel : nat) (w : world) (c : nat) :
  ∃ o1 t1 c1,
    fetchAllIssues fuel w c = (o1, t1, c1)
    ∧ Forall silent t1 ∧ in_phase 0 t1
    ∧ match o1 with
      | Stop s =>
          (∀ code, s ≠ Exit code)
          ∧ Static.syncTasks fuel w c = (caught s, t1 ++ catch_log s, c1)
      | Ok issues =>
          ∃ o2 t2 c2,
            fetchWorkspaceLabels fuel w c1 = (o2, t2, c2)
            ∧ Forall silent t2 ∧ in_phase 1 t2
            ∧ match o2 with
              | Stop s =>
                  (∀ code, s ≠ Exit code)
                  ∧ Static.syncTasks fuel w c
                    = (caught s,
                       t1 ++ Log (FetchedIssues (length issues)) :: t2 ++ catch_log s, c2)
              | Ok workspaceLabels =>
                  ∃ t3 t4 c4,
                    Forall plain_log t3 ∧ in_phase 3 t4 ∧ within_budget t4
                    ∧ Static.syncTasks fuel w c
                      = (Ok tt,
                         t1 ++ Log (FetchedIssues (length issues))
                            :: t2 ++ Log (FetchedLabels (length workspaceLabels))
                            :: Log (WorkspaceLabels (map label_name workspaceLabels))
                            :: t3 ++ Log (NeedUpdating (length (plan static_required issues)))
                            :: t4 ++ [Log SyncCompleted],
                         c4)
              end
      end.
Proof.
  destruct (listing_issues fuel w c) as (o1 & t1 & c1 & Hissues & Hs1 & Hp1 & Ho1).
  exists o1, t1, c1. split; [done|]. split; [done|]. split; [done|].
  unfold Static.syncTasks, try_catch. exec. rewrite Hissues.
  destruct o1 as [issues|s].
  2: { split; [intros code ->; by apply (Ho1 code)|].
       destruct s as [e| |]; cbn [caught catch_log]; by rewrite ?app_nil_r. }
  destruct (listing_labels fuel w c1) as (o2 & t2 & c2 & Hlabels & Hs2 & Hp2 & Ho2).
  exists o2, t2, c2. split; [done|]. split; [done|]. split; [done|].
  rewrite Hlabels.
  destruct o2 as [workspaceLabels|s].
  2: { split; [intros code ->; by apply (Ho2 code)|].
       destruct s as [e| |]; cbn [caught catch_log app]; rewrite ?app_nil_r; try done.
       by rewrite <- ?app_assoc. }
  destruct (filterM_logs Static.select _ static_select_logs issues w c2) as (t3 & -> & Ht3).
  destruct (forM_updating (Static.apply (labelNameToId workspaceLabels))
              (static_apply_updating _) (plan static_required issues) w c2)
    as (t4 & c4 & Hloop & Hp4 & Hb4).
  unfold plan in Hloop. rewrite Hloop.
  exists t3, t4, c4. split; [done|]. split; [done|]. split; [done|].
  unfold plan. cbn [app]. done.
Qed.

(** The same for the lookup-table variant, with the mapping document read
    between the listings and the plan. *)
Lemma lookup_sync_trace (fuel : nat) (w : world) (c : nat) :
  ∃ o1 t1 c1,
    fetchAllIssues fuel w c = (o1, t1, c1)
    ∧ Forall silent t1 ∧ in_phase 0 t1
    ∧ match o1 with
      | Stop s =>
          (∀ code, s ≠ Exit code)
          ∧ Lookup.syncTasks fuel w c = (caught s, t1 ++ catch_log s, c1)
      | Ok issues =>
          ∃ o2 t2 c2,
            fetchWorkspaceLabels fuel w c1 = (o2, t2, c2)
            ∧ Forall silent t2 ∧ in_phase 1 t2
            ∧ match o2 with
              | Stop s =>
                  (∀ code, s ≠ Exit code)
                  ∧ Lookup.syncTasks fuel w c
                    = (caught s,
                       t1 ++ Log (FetchedIssues (length issues)) :: t2 ++ catch_log s, c2)
              | Ok workspaceLabels =>
                  match mapping_file w with
                  | DocMissing | DocMalformed =>
                      Lookup.syncTasks fuel w c
                      = (Stop (Exit 1),
                         t1 ++ Log (FetchedIssues (length issues))
                            :: t2 ++ [Log (FetchedLabels (length workspaceLabels));
                                      ReadFile; Log MappingError],
                         c2)
                  | DocParsed None =>
                      ∃ t3,
                        Forall plain_log t3
                        ∧ Lookup.syncTasks fuel w c
                          = (Ok tt,
                             t1 ++ Log (FetchedIssues (length issues))
                                :: t2 ++ Log (FetchedLabels (length workspaceLabels))
                                :: ReadFile
                                :: Log (WorkspaceLabels (map label_name workspaceLabels))
                                :: t3 ++ (if forallb no_project issues
                                          then [Log (NeedUpdating 0); Log SyncCompleted]
                                          else [Log (SyncError TypeError)]),
                             c2)
                  | DocParsed (Some mapping) =>
                      ∃ t3 t4 c4,
                        Forall plain_log t3 ∧ in_phase 3 t4 ∧ within_budget t4
                        ∧ Lookup.syncTasks fuel w c
                          = (Ok tt,
                             t1 ++ Log (FetchedIssues (length issues))
                                :: t2 ++ Log (FetchedLabels (length workspaceLabels))
                                :: ReadFile
                                :: Log (WorkspaceLabels (map label_name workspaceLabels))
                                :: t3 ++ Log (NeedUpdating
                                                (length (plan (lookup_required mapping) issues)))
                                :: t4 ++ [Log SyncCompleted],
                             c4)
                  end
              end
      end.
Proof.
  destruct (listing_issues fuel w c) as (o1 & t1 & c1 & Hissues & Hs1 & Hp1 & Ho1).
  exists o1, t1, c1. split; [done|]. split; [done|]. split; [done|].
  unfold Lookup.syncTasks, try_catch, Lookup.loadProjectLabelMappings, readMappingFile.
  exec. rewrite Hissues.
  destruct o1 as [issues|s].
  2: { split; [intros code ->; by apply (Ho1 code)|].
       destruct s as [e| |]; cbn [caught catch_log]; by rewrite ?app_nil_r. }
  destruct (listing_labels fuel w c1) as (o2 & t2 & c2 & Hlabels & Hs2 & Hp2 & Ho2).
  exists o2, t2, c2. split; [done|]. split; [done|]. split; [done|].
  rewrite Hlabels.
  destruct o2 as [workspaceLabels|s].
  2: { split; [intros code ->; by apply (Ho2 code)|].
       destruct s as [e| |]; cbn [caught catch_log app]; rewrite ?app_nil_r; try done.
       by rewrite <- ?app_assoc. }
  destruct (mapping_file w) as [| |[mapping|]].
  1,2: cbn [app]; by rewrite ?app_nil_r.
  - destruct (filterM_logs (Lookup.select (Some mapping)) _ (lookup_select_logs mapping)
                issues w c2) as (t3 & -> & Ht3).
    destruct (forM_updating (Lookup.apply (Some mapping) (labelNameToId workspaceLabels))
                (lookup_apply_updating mapping _) (plan (lookup_required mapping) issues) w c2)
      as (t4 & c4 & Hloop & Hp4 & Hb4).
    unfold plan in Hloop. rewrite Hloop.
    exists t3, t4, c4. split; [done|]. split; [done|]. split; [done|].
    unfold plan. cbn [app]. done.
  - destruct (lookup_select_keyless issues w c2) as (t3 & -> & Ht3).
    exists t3. split; [done|].
    destruct (forallb no_project issues); cbn [app forM_]; exec; cbn [app];
      rewrite ?app_nil_r; try done.
    by repeat (rewrite <- app_assoc; cbn [app]).
Qed.

End Shapes.

(** ** Whole runs, phase by phase *)

Section RunOrder.

Lemma phases_log (m : message) (t : list event) : phases (Log m :: t) = phases t.
Proof. done. Qed.

Lemma phases_read (t : list event) : phases (ReadFile :: t) = 2%nat :: phases t.
Proof. done. Qed.

Lemma phases_plain (t : list event) : Forall plain_log t → phases t = [].
Proof.
  intros H. apply omap_silent. eapply Forall_impl; [done|]. by intros [] [? _].
Qed.

Lemma phases_catch (s : stop) : phases (catch_log s) = [].
Proof. by destruct s. Qed.

Ltac phase_list :=
  repeat first [rewrite phases_app | rewrite phases_log | rewrite phases_read
               | rewrite phases_catch];
  rewrite ?app_nil_r.

(** X13.  The requests of a run come in phases that never interleave:
    first the issue queries, then the label queries, then (lookup variant
    only, and at most once) the read of the mapping document, then the
    update requests. *)
Theorem requests_follow_the_phases (fuel : nat) (w : world) (c : nat) :
  (∃ a b u,
      phases (events (Static.syncTasks fuel w c))
      = replicate a 0%nat ++ replicate b 1%nat ++ replicate u 3%nat)
  ∧ (∃ a b r u,
      phases (events (Lookup.syncTasks fuel w c))
      = replicate a 0%nat ++ replicate b 1%nat ++ replicate r 2%nat ++ replicate u 3%nat
      ∧ (r ≤ 1)%nat).
Proof.
  split.
  - destruct (static_sync_trace fuel w c) as (o1 & t1 & c1 & _ & _ & Hp1 & Hcases).
    apply in_phase_replicate in Hp1.
    destruct o1 as [issues|s].
    2: { destruct Hcases as [_ ->]. unfold events. simpl. phase_list.
         exists (length (phases t1)), 0%nat, 0%nat. by rewrite app_nil_r. }
    destruct Hcases as (o2 & t2 & c2 & _ & _ & Hp2 & Hcases).
    apply in_phase_replicate in Hp2.
    destruct o2 as [workspaceLabels|s].
    2: { destruct Hcases as [_ ->]. unfold events. simpl. phase_list.
         exists (length (phases t1)), (length (phases t2)), 0%nat.
         by rewrite app_nil_r, <- Hp1, <- Hp2. }
    destruct Hcases as (t3 & t4 & c4 & Ht3 & Hp4 & _ & ->).
    apply in_phase_replicate in Hp4. unfold events. simpl. phase_list.
    rewrite (phases_plain t3 Ht3). simpl.
    exists (length (phases t1)), (length (phases t2)), (length (phases t4)).
    by rewrite <- Hp1, <- Hp2, <- Hp4.
  - destruct (lookup_sync_trace fuel w c) as (o1 & t1 & c1 & _ & _ & Hp1 & Hcases).
    apply in_phase_replicate in Hp1.
    destruct o1 as [issues|s].
    2: { destruct Hcases as [_ ->]. unfold events. simpl. phase_list.
         exists (length (phases t1)), 0%nat, 0%nat, 0%nat. split; [|lia].
         by rewrite !app_nil_r. }
    destruct Hcases as (o2 & t2 & c2 & _ & _ & Hp2 & Hcases).
    apply in_phase_replicate in Hp2.
    destruct o2 as [workspaceLabels|s].
    2: { destruct Hcases as [_ ->]. unfold events. simpl. phase_list.
         exists (length (phases t1)), (length (phases t2)), 0%nat, 0%nat. split; [|lia].
         by rewrite !app_nil_r, <- Hp1, <- Hp2. }
    destruct (mapping_file w) as [| |[mapping|]].
    1,2: rewrite Hcases; unfold events; simpl; phase_list;
      exists (length (phases t1)), (length (phases t2)), 1%nat, 0%nat; split; [|lia];
      by rewrite <- Hp1, <- Hp2.
    + destruct Hcases as (t3 & t4 & c4 & Ht3 & Hp4 & _ & ->).
      apply in_phase_replicate in Hp4. unfold events. simpl. phase_list.
      rewrite (phases_plain t3 Ht3). simpl.
      exists (length (phases t1)), (length (phases t2)), 1%nat, (length (phases t4)).
      split; [|lia]. by rewrite <- Hp1, <- Hp2, <- Hp4.
    + destruct Hcases as (t3 & Ht3 & ->). unfold events. simpl. phase_list.
      rewrite (phases_plain t3 Ht3). simpl.
      exists (length (phases t1)), (length (phases t2)), 1%nat, 0%nat. split; [|lia].
      rewrite <- Hp1, <- Hp2. by destruct (forallb no_project issues).
Qed.

End RunOrder.

Section RunOutcome.

Lemma plain_silent (t : list event) : Forall plain_log t → Forall silent t.
Proof. intros H. eapply Forall_impl; [done|]. by intros ? [_ ?]. Qed.

Lemma within_budget_nil : within_budget [].
Proof. unfold within_budget. simpl. lia. Qed.

Lemma within_budget_catch (s : stop) : within_budget (catch_log s).
Proof. destruct s; unfold within_budget; simpl; lia. Qed.

Lemma within_budget_cons (e : event) (t : list event) :
  silent e → within_budget t → within_budget (e :: t).
Proof.
  intros He Ht. change (e :: t) with ([e] ++ t).
  apply within_budget_app; [|done]. apply within_budget_silent. by constructor.
Qed.

Lemma plain_within_budget (t : list event) : Forall plain_log t → within_budget t.
Proof. intros H. by apply within_budget_silent, plain_silent. Qed.

Ltac budget :=
  repeat first
    [ apply within_budget_nil
    | apply within_budget_catch
    | apply within_budget_app
    | apply within_budget_cons; [done|]
    | by apply within_budget_silent
    | by apply plain_within_budget
    | done ].

Lemma static_sync_budget (fuel : nat) (w : world) (c : nat) :
  within_budget (events (Static.syncTasks fuel w c)).
Proof.
  destruct (static_sync_trace fuel w c) as (o1 & t1 & c1 & _ & Hs1 & _ & Hcases).
  destruct o1 as [issues|s].
  2: { destruct Hcases as [_ ->]. unfold events. simpl. budget. }
  destruct Hcases as (o2 & t2 & c2 & _ & Hs2 & _ & Hcases).
  destruct o2 as [workspaceLabels|s].
  2: { destruct Hcases as [_ ->]. unfold events. simpl. budget. }
  destruct Hcases as (t3 & t4 & c4 & Ht3 & _ & Hb4 & ->). unfold events. simpl. budget.
Qed.

Lemma lookup_sync_budget (fuel : nat) (w : world) (c : nat) :
  within_budget (events (Lookup.syncTasks fuel w c)).
Proof.
  destruct (lookup_sync_trace fuel w c) as (o1 & t1 & c1 & _ & Hs1 & _ & Hcases).
  destruct o1 as [issues|s].
  2: { destruct Hcases as [_ ->]. unfold events. simpl. budget. }
  destruct Hcases as (o2 & t2 & c2 & _ & Hs2 & _ & Hcases).
  destruct o2 as [workspaceLabels|s].
  2: { destruct Hcases as [_ ->]. unfold events. simpl. budget. }
  destruct (mapping_file w) as [| |[mapping|]].
  1,2: rewrite Hcases; unfold events; simpl; budget.
  - destruct Hcases as (t3 & t4 & c4 & Ht3 & _ & Hb4 & ->). unfold events. simpl. budget.
  - destruct Hcases as (t3 & Ht3 & ->). unfold events. simpl.
    destruct (forallb no_project issues); budget.
Qed.

(** X14.  Over a whole run of either variant, the number of update requests
    is at least the number of updates started and at most [RETRY_ATTEMPTS]
    times that number. *)
Theorem run_requests_per_update (fuel : nat) (w : world) (c : nat) :
  let static := events (Static.syncTasks fuel w c) in
  let lookup := events (Lookup.syncTasks fuel w c) in
  (length (started_updates static) ≤ length (mutations static)
   ≤ RETRY_ATTEMPTS * length (started_updates static))%nat
  ∧ (length (started_updates lookup) ≤ length (mutations lookup)
     ≤ RETRY_ATTEMPTS * length (started_updates lookup))%nat.
Proof.
  split; [apply static_sync_budget|apply lookup_sync_budget].
Qed.

Lemma caught_cases (s : stop) :
  (∀ code, s ≠ Exit code) → caught s = Ok tt ∨ caught s = Stop OutOfFuel.
Proof. destruct s as [e|code|]; intros H; [by left|by destruct (H code)|by right]. Qed.

(** X15.  A run never ends with an exception, so the [catch] handlers on
    the calls of [syncTasks] at the end of the files are never entered.  A
    static run ends normally unless a pagination loop does not end; a lookup
    run can also exit with code 1, which happens only when the mapping
    document cannot be loaded, and then without any update request. *)
Theorem runs_never_reject (fuel : nat) (w : world) (c : nat) :
  (result (Static.syncTasks fuel w c) = Ok tt
   ∨ result (Static.syncTasks fuel w c) = Stop OutOfFuel)
  ∧ (result (Lookup.syncTasks fuel w c) = Ok tt
     ∨ result (Lookup.syncTasks fuel w c) = Stop OutOfFuel
     ∨ result (Lookup.syncTasks fuel w c) = Stop (Exit 1)
       ∧ (mapping_file w = DocMissing ∨ mapping_file w = DocMalformed)
       ∧ mutations (events (Lookup.syncTasks fuel w c)) = []).
Proof.
  split.
  - destruct (static_sync_trace fuel w c) as (o1 & t1 & c1 & _ & _ & _ & Hcases).
    destruct o1 as [issues|s].
    2: { destruct Hcases as [Hs ->]. by apply caught_cases. }
    destruct Hcases as (o2 & t2 & c2 & _ & _ & _ & Hcases).
    destruct o2 as [workspaceLabels|s].
    2: { destruct Hcases as [Hs ->]. by apply caught_cases. }
    destruct Hcases as (t3 & t4 & c4 & _ & _ & _ & ->). by left.
  - destruct (lookup_sync_trace fuel w c) as (o1 & t1 & c1 & _ & Hs1 & _ & Hcases).
    destruct o1 as [issues|s].
    2: { destruct Hcases as [Hs ->]. destruct (caught_cases s Hs); [by left|by right; left]. }
    destruct Hcases as (o2 & t2 & c2 & _ & Hs2 & _ & Hcases).
    destruct o2 as [workspaceLabels|s].
    2: { destruct Hcases as [Hs ->]. destruct (caught_cases s Hs); [by left|by right; left]. }
    destruct (mapping_file w) as [| |[mapping|]] eqn:Hfile.
    1,2: right; right; rewrite Hcases; unfold result, events; simpl;
      (split; [done|]); (split; [by auto|]); apply silent_mutations; silence.
    + destruct Hcases as (t3 & t4 & c4 & _ & _ & _ & ->). by left.
    + destruct Hcases as (t3 & _ & ->). by left.
Qed.

(** X16.  When the mapping document parses but has no
    [PROJECT_LABEL_MAPPING] member, the lookup run does not exit: it sends
    no update request, and it completes when no issue has a project and
    otherwise ends in its error handler, on the type error of the first
    lookup in the missing table. *)
Theorem mapping_document_without_member (fuel : nat) (w : world) (c : nat)
    (issues : list Issue) (workspaceLabels : list Label) (t1 t2 : list event) (c1 c2 : nat) :
  mapping_file w = DocParsed None →
  fetchAllIssues fuel w c = (Ok issues, t1, c1) →
  fetchWorkspaceLabels fuel w c1 = (Ok workspaceLabels, t2, c2) →
  result (Lookup.syncTasks fuel w c) = Ok tt
  ∧ mutations (events (Lookup.syncTasks fuel w c)) = []
  ∧ last (events (Lookup.syncTasks fuel w c))
    = Some (Log (if forallb no_project issues then SyncCompleted else SyncError TypeError)).
Proof.
  intros Hfile Hissues Hlabels.
  destruct (lookup_sync_trace fuel w c) as (o1 & t1' & c1' & Hi & Hs1 & _ & Hcases).
  rewrite Hissues in Hi. injection Hi as <- <- <-.
  destruct Hcases as (o2 & t2' & c2' & Hl & Hs2 & _ & Hcases).
  rewrite Hlabels in Hl. injection Hl as <- <- <-.
  rewrite Hfile in Hcases. destruct Hcases as (t3 & Ht3 & ->).
  unfold result, events. simpl. split; [done|]. split.
  - pose proof (plain_silent t3 Ht3). apply silent_mutations.
    destruct (forallb no_project issues); silence.
  - destruct (forallb no_project issues).
    + rewrite !app_comm_cons, !app_assoc.
      change [Log (NeedUpdating 0); Log SyncCompleted]
        with ([Log (NeedUpdating 0)] ++ [Log SyncCompleted]).
      rewrite app_assoc. apply last_snoc.
    + rewrite !app_comm_cons, !app_assoc. apply last_snoc.
Qed.

(** One issue with a project: the run ends in its error handler. *)
Lemma mapping_document_without_member_witness :
  result (Lookup.syncTasks 1 keyless_world 0%nat) = Ok tt
  ∧ mutations (events (Lookup.syncTasks 1 keyless_world 0%nat)) = []
  ∧ last (events (Lookup.syncTasks 1 keyless_world 0%nat)) = Some (Log (SyncError TypeError)).
Proof.
  eapply (mapping_document_without_member 1 keyless_world 0%nat [unlabelled_issue] sample_labels);
    [reflexivity|vm_compute; reflexivity|vm_compute; reflexivity].
Defined.

End RunOutcome.

(** ** The entry point of the static variant *)

Section EntryPoint.

(** A run of the static variant is a full pass: it begins by asking for the
    first page of issues, and when both listings succeed it completes,
    having started the updates that the plan over the listed issues calls
    for, in plan order. *)
Lemma static_run_is_a_pass (fuel : nat) (w : world) (c : nat) :
  (∃ o t c', Static.syncTasks (S fuel) w c = (o, Sent (IssuesQuery None) :: t, c'))
  ∧ (∀ issues t1 c1 workspaceLabels t2 c2,
       fetchAllIssues fuel w c = (Ok issues, t1, c1) →
       fetchWorkspaceLabels fuel w c1 = (Ok workspaceLabels, t2, c2) →
       result (Static.syncTasks fuel w c) = Ok tt
       ∧ started_updates (events (Static.syncTasks fuel w c))
         = submissions (labelNameToId workspaceLabels) static_required
             (plan static_required issues)
       ∧ last (events (Static.syncTasks fuel w c)) = Some (Log SyncCompleted)).
Proof.
  split.
  - destruct (static_sync_trace (S fuel) w c) as (o1 & t1 & c1 & Hissues & _ & _ & Hcases).
    destruct (fetchAllIssues_sends fuel w c) as (o' & t' & c'' & Hsends).
    rewrite Hsends in Hissues. injection Hissues as <- <- <-.
    destruct o' as [issues|s].
    2: { destruct Hcases as [_ ->]. by eexists _, _, _. }
    destruct Hcases as (o2 & t2 & c2 & _ & _ & _ & Hcases).
    destruct o2 as [workspaceLabels|s].
    2: { destruct Hcases as [_ ->]. by eexists _, _, _. }
    destruct Hcases as (t3 & t4 & c4 & _ & _ & _ & ->). by eexists _, _, _.
  - intros issues t1 c1 workspaceLabels t2 c2 Hissues Hlabels.
    destruct (static_sync_run fuel w c) as (o & t & c' & Hrun & Hcases).
    rewrite Hissues, Hlabels in Hcases.
    destruct Hcases as (-> & [t0 ->] & [(Hstarted & _) _]).
    rewrite Hrun. unfold result, events. simpl.
    split; [done|]. split; [done|]. apply last_snoc.
Qed.

(** C10, amended.  In the static variant every invocation that passes the
    credential check starts the pipeline twice: the entry point logs
    nothing, does not exit, and calls [syncTasks] two times.  Each of the
    two runs is a full pass against the workspace, whatever the server
    answers and wherever in the sequence of requests its own requests fall:
    it begins by asking for the first page of issues, and when its two
    listings succeed it completes, having started the updates that the plan
    over the issues it listed calls for. *)
Theorem entry_point_starts_two_runs (LINEAR_API_KEY : string) :
  LINEAR_API_KEY ≠ "" →
  Static.main (Some LINEAR_API_KEY) = mkLaunch [] None [Static.syncTasks; Static.syncTasks]
  ∧ length (started (Static.main (Some LINEAR_API_KEY))) = 2%nat
  ∧ ∀ run, run ∈ started (Static.main (Some LINEAR_API_KEY)) →
      ∀ fuel w c,
        (∃ o t c', run (S fuel) w c = (o, Sent (IssuesQuery None) :: t, c'))
        ∧ (∀ issues t1 c1 workspaceLabels t2 c2,
             fetchAllIssues fuel w c = (Ok issues, t1, c1) →
             fetchWorkspaceLabels fuel w c1 = (Ok workspaceLabels, t2, c2) →
             result (run fuel w c) = Ok tt
             ∧ started_updates (events (run fuel w c))
               = submissions (labelNameToId workspaceLabels) static_required
                   (plan static_required issues)
             ∧ last (events (run fuel w c)) = Some (Log SyncCompleted)).
Proof.
  intros Hkey%truthy_nonempty. unfold Static.main. simpl default. rewrite Hkey.
  split; [done|]. split; [done|].
  intros run Hrun fuel w c. simpl in Hrun.
  assert (run = Static.syncTasks) as ->.
  { by apply elem_of_cons in Hrun as [-> | ->%list_elem_of_singleton]. }
  apply static_run_is_a_pass.
Qed.

(** Against a server that lists the bare issue whenever it is asked, each
    of the two runs starts the update of that issue: the update is started
    twice. *)
Lemma entry_point_starts_two_runs_witness :
  length (started (Static.main (Some "lin_api_key"))) = 2%nat
  ∧ ∀ run c, run ∈ started (Static.main (Some "lin_api_key")) →
      started_updates (events (run 1%nat empty_id_world c)) = [(bare_issue, [Id "id-a"])].
Proof.
  assert ("lin_api_key" ≠ "") as Hkey by discriminate.
  destruct (entry_point_starts_two_runs "lin_api_key" Hkey) as (_ & Hlength & Hruns).
  split; [exact Hlength|]. intros run c Hrun.
  destruct (Hruns run Hrun 1%nat empty_id_world c) as [_ Hpass].
  destruct (Hpass [bare_issue] [Sent (IssuesQuery None)] (S c) empty_id_labels
              [Sent (LabelsQuery None)] (S (S c)) eq_refl eq_refl) as (_ & -> & _).
  reflexivity.
Defined.

End EntryPoint.
